(** * A shallow embedding of the selection core of ComfyU-auto-script-call

    The Python program keeps all of its configuration and catalog data in
    nested dicts loaded from YAML / JSON.  We model those values as
    [pyval], Python exceptions as [exn], and every fallible function as a
    computation in the error monad [sum exn] (ExtLib's [Monad_either]);
    the stateful methods of [ComfyUIAutomation] additionally thread the
    object's fields and the state of Python's [random] module
    ([stateT] over [sum exn]).

    Objects are modelled as trees: two positions of a structure never
    share one Python object (no aliasing).  Python sets are modelled as
    duplicate-free lists iterated in insertion order (CPython iterates
    them in hash order). *)

From Stdlib Require Import String Ascii List ZArith QArith Bool Lia Permutation.
From ExtLib Require Import Structures.Monad Structures.MonadState
  Structures.MonadExc Data.Monads.StateMonad Data.Monads.EitherMonad.
Import ListNotations.
Import MonadNotation.
Local Open Scope monad_scope.
#[local] Existing Instance Monad_stateT.
#[local] Set Warnings "-register-all".

(** ** Python values *)

Inductive pyval : Type :=
| PNone
| PBool (b : bool)
| PInt (z : Z)
| PFloat (q : Q)
| PStr (s : string)
| PList (l : list pyval)
| PDict (d : list (pyval * pyval)).

Definition pydict := list (pyval * pyval).

Coercion PStr : string >-> pyval.

(** The Python exceptions the modelled code can raise. *)
Inductive exn : Type :=
| ValueError
| TypeError
| AttributeError
| IndexError
| KeyError
| FileNotFoundError.

Definition res (A : Type) := sum exn A.

#[global] Instance Monad_res : Monad res := Monad_either exn.

Definition raise_ {A : Type} (e : exn) : res A := inl e.

Definition Qlt_bool (x y : Q) : bool := negb (Qle_bool y x).

(** [bool] is a subclass of [int]: both are numbers, as is [float]. *)
Definition num_of (v : pyval) : option Q :=
  match v with
  | PBool b => Some (if b then 1 else 0)%Q
  | PInt z => Some (inject_Z z)
  | PFloat q => Some q
  | _ => None
  end.

(** [isinstance(v, int)] (which includes [bool]). *)
Definition is_int (v : pyval) : bool :=
  match v with PBool _ | PInt _ => true | _ => false end.

Definition is_float (v : pyval) : bool :=
  match v with PFloat _ => true | _ => false end.

Definition is_dict (v : pyval) : bool :=
  match v with PDict _ => true | _ => false end.

Definition is_list (v : pyval) : bool :=
  match v with PList _ => true | _ => false end.

Definition is_str (v : pyval) : bool :=
  match v with PStr _ => true | _ => false end.

(** Lists and dicts are unhashable. *)
Definition hashable (v : pyval) : bool :=
  match v with PList _ | PDict _ => false | _ => true end.

(** [bool(v)]. *)
Definition truthy (v : pyval) : bool :=
  match v with
  | PNone => false
  | PBool b => b
  | PInt z => negb (Z.eqb z 0)
  | PFloat q => negb (Qeq_bool q 0)
  | PStr s => negb (String.eqb s "")
  | PList l => negb (Nat.eqb (length l) 0)
  | PDict d => negb (Nat.eqb (length d) 0)
  end.

(** [a == b]: numbers by value, strings by content, lists element-wise,
    dicts as mappings. *)
Fixpoint py_eq (a b : pyval) {struct a} : bool :=
  match a, b with
  | PNone, PNone => true
  | PStr s, PStr t => String.eqb s t
  | PList l1, PList l2 =>
      (fix go (l1 l2 : list pyval) : bool :=
         match l1, l2 with
         | [], [] => true
         | x :: xs, y :: ys => py_eq x y && go xs ys
         | _, _ => false
         end) l1 l2
  | PDict d1, PDict d2 =>
      Nat.eqb (length d1) (length d2) &&
      (fix all (d : list (pyval * pyval)) : bool :=
         match d with
         | [] => true
         | (k, v) :: r =>
             match (fix look (e : list (pyval * pyval)) : option pyval :=
                      match e with
                      | [] => None
                      | (k', v') :: e' => if py_eq k k' then Some v' else look e'
                      end) d2 with
             | Some w => py_eq v w
             | None => false
             end && all r
         end) d1
  | _, _ =>
      match num_of a, num_of b with
      | Some x, Some y => Qeq_bool x y
      | _, _ => false
      end
  end.

(** ** Dicts as insertion-ordered association lists *)

Fixpoint dlookup (d : pydict) (k : pyval) : option pyval :=
  match d with
  | [] => None
  | (k', v) :: r => if py_eq k k' then Some v else dlookup r k
  end.

(** [d[k] = v]: an existing key keeps its position, a new one goes last. *)
Fixpoint dset (d : pydict) (k v : pyval) : pydict :=
  match d with
  | [] => [(k, v)]
  | (k', v') :: r => if py_eq k k' then (k', v) :: r else (k', v') :: dset r k v
  end.

(** [d.pop(k, None)]. *)
Fixpoint dpop (d : pydict) (k : pyval) : pydict :=
  match d with
  | [] => []
  | (k', v') :: r => if py_eq k k' then r else (k', v') :: dpop r k
  end.

Definition dkeys (d : pydict) : list pyval := map fst d.

(** Python's list indexing with negative indices. *)
Definition py_index (n : nat) (i : Z) : option nat :=
  let j := if (i <? 0)%Z then (i + Z.of_nat n)%Z else i in
  if ((0 <=? j) && (j <? Z.of_nat n))%Z then Some (Z.to_nat j) else None.

Definition int_of (v : pyval) : option Z :=
  match v with
  | PBool b => Some (if b then 1 else 0)%Z
  | PInt z => Some z
  | _ => None
  end.

(** [c.get(k, dflt)]. *)
Definition py_get (c k dflt : pyval) : res pyval :=
  match c with
  | PDict d =>
      if hashable k then ret (match dlookup d k with Some v => v | None => dflt end)
      else raise_ TypeError
  | _ => raise_ AttributeError
  end.

(** [x in c]. *)
Definition py_contains (c x : pyval) : res bool :=
  match c with
  | PDict d => if hashable x then ret (match dlookup d x with Some _ => true | None => false end)
               else raise_ TypeError
  | PList l => ret (existsb (py_eq x) l)
  | PStr t =>
      match x with
      | PStr s => ret (match String.index 0 s t with Some _ => true | None => false end)
      | _ => raise_ TypeError
      end
  | _ => raise_ TypeError
  end.

(** [c[k]]. *)
Definition py_getitem (c k : pyval) : res pyval :=
  match c with
  | PDict d =>
      if hashable k then match dlookup d k with Some v => ret v | None => raise_ KeyError end
      else raise_ TypeError
  | PList l =>
      match int_of k with
      | Some i => match py_index (length l) i with
                  | Some j => match nth_error l j with Some v => ret v | None => raise_ IndexError end
                  | None => raise_ IndexError
                  end
      | None => raise_ TypeError
      end
  | PStr s =>
      match int_of k with
      | Some i => match py_index (String.length s) i with
                  | Some j => ret (PStr (String.substring j 1 s))
                  | None => raise_ IndexError
                  end
      | None => raise_ TypeError
      end
  | _ => raise_ TypeError
  end.

(** [c[k] = v]. *)
Definition py_setitem (c k v : pyval) : res pyval :=
  match c with
  | PDict d => if hashable k then ret (PDict (dset d k v)) else raise_ TypeError
  | PList l =>
      match int_of k with
      | Some i => match py_index (length l) i with
                  | Some j => ret (PList (firstn j l ++ v :: skipn (S j) l))
                  | None => raise_ IndexError
                  end
      | None => raise_ TypeError
      end
  | _ => raise_ TypeError
  end.

(** ** [utils/dict_utils.py] *)

(** [get_nested(d, *keys, default)]: walk [keys[:-1]] with
    [current = current.get(key, default)], returning [default] as soon as
    the walk reaches a non-dict, then look the last key up. *)
Fixpoint get_nested (current : pyval) (keys : list pyval) (default : pyval)
  : res pyval :=
  match keys with
  | [] => ret default
  | [k] =>
      b <- py_contains current k ;;
      if b then py_getitem current k else ret default
  | k :: keys' =>
      nxt <- py_get current k default ;;
      if is_dict nxt then get_nested nxt keys' default else ret default
  end.

(** The walk of [set_nested]: [temp = temp.setdefault(key, {})] for all
    keys but the last, then [temp[keys[-1]] = value]. *)
Fixpoint set_walk (temp : pyval) (keys : list pyval) (value : pyval)
  : res pyval :=
  match keys with
  | [] => ret temp
  | [k] => py_setitem temp k value
  | k :: keys' =>
      match temp with
      | PDict d =>
          if hashable k then
            let child := match dlookup d k with Some c => c | None => PDict [] end in
            child' <- set_walk child keys' value ;;
            ret (PDict (dset d k child'))
          else raise_ TypeError
      | _ => raise_ AttributeError
      end
  end.

(** [set_nested(d, value, *keys)]: returns [d] (mutated in place). *)
Definition set_nested (d value : pyval) (keys : list pyval) : res pyval :=
  match keys with
  | [] => ret d
  | _ => set_walk d keys value
  end.

(** [c.pop(k, default)]: a dict removes and returns the entry ([default]
    when absent); [list.pop] takes at most one argument. *)
Definition py_pop (c k default : pyval) : res (pyval * pyval) :=
  match c with
  | PDict d =>
      if hashable k then
        ret (match dlookup d k with
             | Some v => (v, PDict (dpop d k))
             | None => (default, c)
             end)
      else raise_ TypeError
  | PList _ => raise_ TypeError
  | _ => raise_ AttributeError
  end.

(** The walk of [pop_nested]: [current = current.get(key)] along
    [keys[:-2]], then [current[keys[-2]].pop(keys[-1], default)]; the
    returned pair is the popped value and the mutated root. *)
Fixpoint pop_walk (current : pyval) (prefix : list pyval) (k2 k1 default : pyval)
  : res (pyval * pyval) :=
  match prefix with
  | [] =>
      b <- py_contains current k2 ;;
      if b then
        child <- py_getitem current k2 ;;
        rc <- py_pop child k1 default ;;
        current' <- py_setitem current k2 (snd rc) ;;
        ret (fst rc, current')
      else ret (default, current)
  | k :: ks =>
      nxt <- py_get current k PNone ;;
      if is_dict nxt then
        rc <- pop_walk nxt ks k2 k1 default ;;
        current' <- py_setitem current k (snd rc) ;;
        ret (fst rc, current')
      else ret (default, current)
  end.

(** [pop_nested(d, *keys, default)] of [utils/dict_utils.py]. *)
Definition pop_nested (d : pyval) (keys : list pyval) (default : pyval) : res (pyval * pyval) :=
  match rev keys with
  | k1 :: k2 :: rprefix => pop_walk d (rev rprefix) k2 k1 default
  | _ => ret (default, d)
  end.

(** [v * s] (numbers, or repetition of a string or list). *)
Fixpoint repeat_str (s : string) (n : nat) : string :=
  match n with O => EmptyString | S n' => String.append s (repeat_str s n') end.

Definition py_mul (a b : pyval) : res pyval :=
  match a, b with
  | PStr s, _ => match int_of b with
                 | Some n => ret (PStr (repeat_str s (Z.to_nat n)))
                 | None => raise_ TypeError
                 end
  | _, PStr s => match int_of a with
                 | Some n => ret (PStr (repeat_str s (Z.to_nat n)))
                 | None => raise_ TypeError
                 end
  | PList l, _ => match int_of b with
                  | Some n => ret (PList (concat (repeat l (Z.to_nat n))))
                  | None => raise_ TypeError
                  end
  | _, PList l => match int_of a with
                  | Some n => ret (PList (concat (repeat l (Z.to_nat n))))
                  | None => raise_ TypeError
                  end
  | _, _ =>
      match int_of a, int_of b with
      | Some x, Some y => ret (PInt (x * y))
      | _, _ => match num_of a, num_of b with
                | Some x, Some y => ret (PFloat (x * y))
                | _, _ => raise_ TypeError
                end
      end
  end.

(** The two type filters the source passes to [get_type_list]:
    [(int, float)] without [bool], and [(str, bool)]. *)
Definition is_number_value (v : pyval) : bool :=
  match v with PInt _ | PFloat _ => true | _ => false end.

Definition is_choice_value (v : pyval) : bool :=
  match v with PStr _ | PBool _ => true | _ => false end.

(** [get_type_list(dic, type_tuple, exclude_tuple)] of [utils/type_utils.py]. *)
Definition get_type_list (dic : pyval) (keep : pyval -> bool) : list pyval :=
  match dic with
  | PDict d => map fst (filter (fun kv => keep (snd kv)) d)
  | _ => []
  end.

(** ** [pathlib] on POSIX paths *)

Definition slash : ascii := "/"%char.
Definition dot : ascii := "."%char.

Fixpoint split_slash (l : list ascii) (cur : list ascii) : list (list ascii) :=
  match l with
  | [] => [rev cur]
  | c :: r => if Ascii.eqb c slash then rev cur :: split_slash r [] else split_slash r (c :: cur)
  end.

(** [Path(p).parts]: empty and [.] components vanish, a leading [/] is a
    part of its own (a path starting with exactly two slashes keeps [//]). *)
Definition path_parts (p : string) : list string :=
  let l := list_ascii_of_string p in
  let comps := filter (fun c => negb (match c with [] => true | [d] => Ascii.eqb d dot | _ => false end))
                      (split_slash l []) in
  let names := map string_of_list_ascii comps in
  match l with
  | a :: b :: c :: _ =>
      if Ascii.eqb a slash then
        if Ascii.eqb b slash && negb (Ascii.eqb c slash) then "//"%string :: names
        else "/"%string :: names
      else names
  | [a; b] => if Ascii.eqb a slash then
                (if Ascii.eqb b slash then "//"%string else "/"%string) :: names
              else names
  | [a] => if Ascii.eqb a slash then "/"%string :: names else names
  | [] => names
  end.

(** [Path(p).name]: the last part, unless it is the root. *)
Definition path_name (p : string) : string :=
  match rev (list_ascii_of_string p), rev (path_parts p) with
  | _, [] => EmptyString
  | _, [x] => if String.eqb x "/" || String.eqb x "//" then EmptyString else x
  | _, x :: _ => x
  end.

(** [str.rfind('.')] as an index, [None] for -1. *)
Definition rfind_dot (l : list ascii) : option nat :=
  fold_left (fun acc '(i, c) => if Ascii.eqb c dot then Some i else acc)
            (combine (seq 0 (length l)) l) None.

(** [Path(p).stem]: the name without its last suffix, where a suffix
    starts at a dot that is neither first nor last in the name. *)
Definition path_stem (p : string) : string :=
  let n := list_ascii_of_string (path_name p) in
  match rfind_dot n with
  | Some i => if Nat.ltb 0 i && Nat.ltb i (length n - 1)
              then string_of_list_ascii (firstn i n) else path_name p
  | None => path_name p
  end.

(** ** Python's [random] module

    A generator state [G] with the two primitives every drawing function
    of CPython's [random.Random] is built on. *)

Class PyRandom (G : Type) := {
  random : G -> Q * G;          (** [random.random()] *)
  randbelow : Z -> G -> Z * G   (** [random._randbelow(n)] *)
}.

(** What the primitives guarantee. *)
Class PyRandomValid (G : Type) `{PyRandom G} := {
  random_range : forall s, 0 <= fst (random s) /\ fst (random s) < 1;
  randbelow_range : forall n s, (0 < n)%Z -> (0 <= fst (randbelow n s) < n)%Z
}.

(** ** The [ComfyUIAutomation] object *)

Record Auto := mkAuto {
  config : pyval;            (** [self.config] *)
  type_dics : pyval;         (** [self.type_dics] *)
  is_first : bool;
  checkpoint_type : pyval;
  checkpoint_name : pyval;
  checkpoint_path : pyval;
  char_name : pyval;
  char_path : pyval;
  no_char : bool;
  no_lora : bool;
  loras_set : list pyval;    (** [self.loras_set], a set *)
  tive_weight : pyval;
  workflow_api : pyval
}.

(** Field updates of [Auto]. *)
Definition upd_is_first (b : bool) (a : Auto) : Auto :=
  mkAuto (config a) (type_dics a) b (checkpoint_type a) (checkpoint_name a)
    (checkpoint_path a) (char_name a) (char_path a) (no_char a) (no_lora a)
    (loras_set a) (tive_weight a) (workflow_api a).

Definition upd_checkpoint_type (v : pyval) (a : Auto) : Auto :=
  mkAuto (config a) (type_dics a) (is_first a) v (checkpoint_name a)
    (checkpoint_path a) (char_name a) (char_path a) (no_char a) (no_lora a)
    (loras_set a) (tive_weight a) (workflow_api a).

Definition upd_checkpoint_name (v : pyval) (a : Auto) : Auto :=
  mkAuto (config a) (type_dics a) (is_first a) (checkpoint_type a) v
    (checkpoint_path a) (char_name a) (char_path a) (no_char a) (no_lora a)
    (loras_set a) (tive_weight a) (workflow_api a).

Definition upd_checkpoint_path (v : pyval) (a : Auto) : Auto :=
  mkAuto (config a) (type_dics a) (is_first a) (checkpoint_type a)
    (checkpoint_name a) v (char_name a) (char_path a) (no_char a) (no_lora a)
    (loras_set a) (tive_weight a) (workflow_api a).

Definition upd_char_name (v : pyval) (a : Auto) : Auto :=
  mkAuto (config a) (type_dics a) (is_first a) (checkpoint_type a)
    (checkpoint_name a) (checkpoint_path a) v (char_path a) (no_char a)
    (no_lora a) (loras_set a) (tive_weight a) (workflow_api a).

Definition upd_char_path (v : pyval) (a : Auto) : Auto :=
  mkAuto (config a) (type_dics a) (is_first a) (checkpoint_type a)
    (checkpoint_name a) (checkpoint_path a) (char_name a) v (no_char a)
    (no_lora a) (loras_set a) (tive_weight a) (workflow_api a).

Definition upd_no_char (b : bool) (a : Auto) : Auto :=
  mkAuto (config a) (type_dics a) (is_first a) (checkpoint_type a)
    (checkpoint_name a) (checkpoint_path a) (char_name a) (char_path a) b
    (no_lora a) (loras_set a) (tive_weight a) (workflow_api a).

Definition upd_no_lora (b : bool) (a : Auto) : Auto :=
  mkAuto (config a) (type_dics a) (is_first a) (checkpoint_type a)
    (checkpoint_name a) (checkpoint_path a) (char_name a) (char_path a)
    (no_char a) b (loras_set a) (tive_weight a) (workflow_api a).

Definition upd_loras_set (l : list pyval) (a : Auto) : Auto :=
  mkAuto (config a) (type_dics a) (is_first a) (checkpoint_type a)
    (checkpoint_name a) (checkpoint_path a) (char_name a) (char_path a)
    (no_char a) (no_lora a) l (tive_weight a) (workflow_api a).

Definition upd_tive_weight (v : pyval) (a : Auto) : Auto :=
  mkAuto (config a) (type_dics a) (is_first a) (checkpoint_type a)
    (checkpoint_name a) (checkpoint_path a) (char_name a) (char_path a)
    (no_char a) (no_lora a) (loras_set a) v (workflow_api a).

Definition upd_workflow_api (v : pyval) (a : Auto) : Auto :=
  mkAuto (config a) (type_dics a) (is_first a) (checkpoint_type a)
    (checkpoint_name a) (checkpoint_path a) (char_name a) (char_path a)
    (no_char a) (no_lora a) (loras_set a) (tive_weight a) v.

(** [self.get_config(key, default)] and [self.get_now(keys..., default)]. *)
Definition get_config (a : Auto) (key default : pyval) : res pyval :=
  py_get (config a) key default.

Definition get_now (a : Auto) (keys : list pyval) (default : pyval) : res pyval :=
  get_nested (type_dics a) (checkpoint_type a :: keys) default.

(** [len(v)]. *)
Definition py_len (v : pyval) : res nat :=
  match v with
  | PList l => ret (length l)
  | PDict d => ret (length d)
  | PStr s => ret (String.length s)
  | _ => raise_ TypeError
  end.

(** Iterating over [v] ([for x in v]). *)
Definition py_iter (v : pyval) : res (list pyval) :=
  match v with
  | PList l => ret l
  | PDict d => ret (dkeys d)
  | PStr s => ret (map (fun c => PStr (String c EmptyString)) (list_ascii_of_string s))
  | _ => raise_ TypeError
  end.

(** [s.add(x)] on a set kept as a duplicate-free list. *)
Definition set_add (l : list pyval) (x : pyval) : res (list pyval) :=
  if hashable x then ret (if existsb (py_eq x) l then l else l ++ [x])
  else raise_ TypeError.

Fixpoint set_update (l : list pyval) (xs : list pyval) : res (list pyval) :=
  match xs with
  | [] => ret l
  | x :: r => l' <- set_add l x ;; set_update l' r
  end.

(** [update_dict(d, u)] of [utils/dict_utils.py]: deep merge of [u] into [d]. *)
Fixpoint update_dict (d u : pyval) {struct u} : res pyval :=
  match u with
  | PNone => ret d
  | PDict e =>
      (fix go (d : pyval) (e : list (pyval * pyval)) : res pyval :=
         match e with
         | [] => ret d
         | (k, v) :: r =>
             d' <- (if is_dict v then
                      child <- py_get d k (PDict []) ;;
                      child' <- update_dict child v ;;
                      py_setitem d k child'
                    else py_setitem d k v) ;;
             go d' r
         end) d e
  | _ => raise_ AttributeError
  end.

(** [update_dict_key(d, u, key)]. *)
Definition update_dict_key (d u key : pyval) : res pyval :=
  b <- py_contains u key ;;
  if b then
    c <- py_contains d key ;;
    uk <- py_getitem u key ;;
    if c then (dk <- py_getitem d key ;; dk' <- update_dict dk uk ;; py_setitem d key dk')
    else py_setitem d key uk
  else ret d.

Section Engine.
Context {G : Type} `{PyRandom G}.

(** Python code running with the object and the generator as state. *)
Definition M := stateT (Auto * G) res.

Definition lift {A : Type} (r : res A) : M A :=
  mkStateT (fun st => match r with inl e => inl e | inr a => inr (a, st) end).

Definition throw {A : Type} (e : exn) : M A := lift (raise_ e).

Definition get_self : M Auto := st <- get ;; ret (fst st).

Definition modify_self (f : Auto -> Auto) : M unit :=
  st <- get ;; put (f (fst st), snd st).

Definition rnd : M Q :=
  st <- get ;;
  let (u, s') := random (snd st) in
  put (fst st, s') ;; ret u.

Definition rbelow (n : Z) : M Z :=
  st <- get ;;
  let (j, s') := randbelow n (snd st) in
  put (fst st, s') ;; ret j.

(** [random.randint(a, b)] = [randrange(a, b + 1)]. *)
Definition randint (a b : Z) : M Z :=
  let width := (b + 1 - a)%Z in
  if (width <=? 0)%Z then throw ValueError
  else j <- rbelow width ;; ret (a + j)%Z.

(** [random.uniform(a, b)] = [a + (b - a) * random()]. *)
Definition uniform (a b : Q) : M Q :=
  u <- rnd ;; ret (a + (b - a) * u).

(** [random.choice(seq)]. *)
Definition choice (l : list pyval) : M pyval :=
  match l with
  | [] => throw IndexError
  | _ => j <- rbelow (Z.of_nat (length l)) ;;
         match nth_error l (Z.to_nat j) with
         | Some v => ret v
         | None => throw IndexError
         end
  end.

(** [bisect.bisect_right(a, x, lo, hi)]; [fuel] bounds the halvings. *)
Fixpoint bisect_go (fuel : nat) (a : list Q) (x : Q) (lo hi : nat) : nat :=
  match fuel with
  | O => lo
  | S f =>
      if Nat.ltb lo hi then
        let mid := Nat.div (lo + hi) 2 in
        if Qlt_bool x (nth mid a 0) then bisect_go f a x lo mid
        else bisect_go f a x (S mid) hi
      else lo
  end.

Definition bisect_right (a : list Q) (x : Q) (lo hi : nat) : nat :=
  bisect_go (S (length a)) a x lo hi.

(** [itertools.accumulate(weights)]; adding a non-number raises. *)
Fixpoint accumulate (acc : Q) (ws : list pyval) : res (list Q) :=
  match ws with
  | [] => ret []
  | w :: r =>
      match num_of w with
      | Some x => rest <- accumulate (acc + x) r ;; ret ((acc + x) :: rest)
      | None => raise_ TypeError
      end
  end.

(** [random.choices(population, weights=weights, k=k)]. *)
Definition choices (population weights : list pyval) (k : pyval) : M (list pyval) :=
  cum <- lift (accumulate 0 weights) ;;
  if negb (Nat.eqb (length cum) (length population)) then throw ValueError else
  match rev cum with
  | [] => throw IndexError
  | total :: _ =>
      if Qle_bool total 0 then throw ValueError else
      match int_of k with
      | None => throw TypeError
      | Some kz =>
          let hi := pred (length population) in
          (fix draw (n : nat) : M (list pyval) :=
             match n with
             | O => ret []
             | S n' =>
                 u <- rnd ;;
                 let i := bisect_right cum (u * total) 0 hi in
                 match nth_error population i with
                 | Some p => rest <- draw n' ;; ret (p :: rest)
                 | None => throw IndexError
                 end
             end) (Z.to_nat kz)
      end
  end.

(** [a < b] for the values the program compares. *)
Fixpoint py_lt (a b : pyval) {struct a} : res bool :=
  match a, b with
  | PStr s, PStr t => ret (String.ltb s t)
  | PList l1, PList l2 =>
      (fix go (l1 l2 : list pyval) : res bool :=
         match l1, l2 with
         | x :: xs, y :: ys => if py_eq x y then go xs ys else py_lt x y
         | [], _ :: _ => ret true
         | _, _ => ret false
         end) l1 l2
  | _, _ =>
      match num_of a, num_of b with
      | Some x, Some y => ret (Qlt_bool x y)
      | _, _ => raise_ TypeError
      end
  end.

(** [min(v)] and [max(v)]: keep the current item unless the next one is
    strictly smaller (larger). *)
Fixpoint min_go (cur : pyval) (rest : list pyval) : res pyval :=
  match rest with
  | [] => ret cur
  | x :: r => b <- py_lt x cur ;; min_go (if b then x else cur) r
  end.

Fixpoint max_go (cur : pyval) (rest : list pyval) : res pyval :=
  match rest with
  | [] => ret cur
  | x :: r => b <- py_lt cur x ;; max_go (if b then x else cur) r
  end.

Definition py_min (l : list pyval) : res pyval :=
  match l with [] => raise_ ValueError | x :: r => min_go x r end.

Definition py_max (l : list pyval) : res pyval :=
  match l with [] => raise_ ValueError | x :: r => max_go x r end.

(** [random_min_max(v)] of [utils/random_utils.py]; a scalar comes back
    unchanged.  (YAML and JSON yield lists, never tuples or sets.) *)
Definition random_min_max (v : pyval) : M pyval :=
  match v with
  | PList l =>
      if existsb is_float l then
        lo <- lift (py_min l) ;; hi <- lift (py_max l) ;;
        match num_of lo, num_of hi with
        | Some a, Some b => x <- uniform a b ;; ret (PFloat x)
        | _, _ => throw TypeError
        end
      else if forallb is_int l then
        lo <- lift (py_min l) ;; hi <- lift (py_max l) ;;
        match int_of lo, int_of hi with
        | Some a, Some b => z <- randint a b ;; ret (PInt z)
        | _, _ => throw TypeError
        end
      else throw ValueError
  | _ => ret v
  end.

(** [random_weight(i)]: a string as is, a list by [random.choice], a dict
    by [random.choices] over its values as weights. *)
Definition random_weight (i : pyval) : M pyval :=
  match i with
  | PStr _ => ret i
  | PList l => choice l
  | PDict d =>
      r <- choices (dkeys d) (map snd d) (PInt 1) ;;
      match r with p :: _ => ret p | [] => throw IndexError end
  | _ => ret i
  end.

(** [random_weight_count(d, count)] (every call site leaves [default] as
    [None], so a non-dict gives [[]]). *)
Definition random_weight_count (d : pyval) (count : pyval) : M (list pyval) :=
  match d with
  | PDict e =>
      if forallb (fun kv => match num_of (snd kv) with Some _ => true | None => false end) e
      then choices (dkeys e) (map snd e) count
      else throw TypeError
  | _ => ret []
  end.

(** The dict comprehension [{k: v[weight_key] for k, v in d.items() if
    weight_key in v}]. *)
Fixpoint weight_entries (d : pydict) (weight_key : pyval) : res pydict :=
  match d with
  | [] => ret []
  | (k, v) :: r =>
      b <- py_contains v weight_key ;;
      rest <- weight_entries r weight_key ;;
      if b then (w <- py_getitem v weight_key ;; ret ((k, w) :: rest)) else ret rest
  end.

(** [random_dict_weight(d, weight_key, count)]. *)
Definition random_dict_weight (d : pyval) (weight_key count : pyval) : M (list pyval) :=
  match d with
  | PDict e =>
      wd <- lift (weight_entries e weight_key) ;;
      match wd with
      | [] => ret []
      | _ => choices (dkeys wd) (map snd wd) count
      end
  | _ => throw AttributeError
  end.

(** [random.sample(population, k)] by CPython's pool method.  CPython
    takes it whenever the population has at most [setsize] items, and
    [setsize] is at least 21; for larger populations it uses a rejection
    method (redraw an index until it is new), which is not modelled, so
    the properties below about [sample]'s result assume at most 21 items. *)
Definition sample (population : list pyval) (k : pyval) : M (list pyval) :=
  let n := length population in
  match num_of k with
  | None => throw TypeError
  | Some q =>
      if negb (Qle_bool 0 q && Qle_bool q (inject_Z (Z.of_nat n))) then throw ValueError else
      match int_of k with
      | None => throw TypeError
      | Some kz =>
          (fix go (i : nat) (fuel : nat) (pool : list pyval) : M (list pyval) :=
             match fuel with
             | O => ret []
             | S f =>
                 j <- rbelow (Z.of_nat (n - i)) ;;
                 let jn := Z.to_nat j in
                 match nth_error pool jn with
                 | Some p =>
                     let last := nth (n - i - 1) pool PNone in
                     let pool' := firstn jn pool ++ last :: skipn (S jn) pool in
                     rest <- go (S i) f pool' ;; ret (p :: rest)
                 | None => throw IndexError
                 end
             end) O (Z.to_nat kz) population
      end
  end.

(** [random_items_count(items, count)]. *)
Definition random_items_count (items count : pyval) : M (list pyval) :=
  let items' := match items with PDict d => PList (dkeys d) | _ => items end in
  match items' with
  | PList l =>
      b <- lift (py_lt count (PInt (Z.of_nat (length l)))) ;;
      if b then sample l count else ret l
  | _ => throw ValueError
  end.

(** [random.choice(seq)] on a value (the name lists are lists). *)
Definition choice_v (v : pyval) : M pyval :=
  match v with
  | PList l => choice l
  | _ => throw TypeError
  end.

Definition first_of (l : list pyval) : M pyval :=
  match l with x :: _ => ret x | [] => throw IndexError end.

(** [x > r] where [r = random.random()] was just drawn. *)
Definition gt_random (x : pyval) (r : Q) : M bool := lift (py_lt (PFloat r) x).

(** The [safetensorsStart] bootstrap of [checkpoint_change]; [true] when
    it selected the start checkpoint. *)
Definition checkpoint_start (checkpoint_types : pyval) : M bool :=
  a <- get_self ;;
  if is_first a then
    modify_self (upd_is_first false) ;;
    safetensors_start <- lift (get_config a (PStr "safetensorsStart") PNone) ;;
    if truthy safetensors_start then
      match safetensors_start with
      | PStr p =>
          let parts := path_parts p in
          part0 <- first_of (map PStr parts) ;;
          ck <- lift (get_nested (type_dics a)
                        [part0; PStr "CheckpointFileDics"; PStr (path_stem p)] PNone) ;;
          ok <- (if Nat.eqb (length parts) 2 then
                   b <- lift (py_contains checkpoint_types part0) ;;
                   ret (b && truthy ck)
                 else ret false) ;;
          if ok then
            modify_self (upd_checkpoint_type part0) ;;
            modify_self (upd_checkpoint_name (PStr (path_stem p))) ;;
            a' <- get_self ;;
            path <- lift (get_now a' [PStr "CheckpointFileDics"; checkpoint_name a'] PNone) ;;
            modify_self (upd_checkpoint_path path) ;;
            ret true
          else ret false
      | _ => throw TypeError
      end
    else ret false
  else ret false.

(** [[x for x in names if x not in weights.keys()]]. *)
Definition not_weighted (names weights : pyval) : res (list pyval) :=
  l <- py_iter names ;;
  match weights with
  | PDict w => ret (filter (fun x => negb (existsb (py_eq x) (dkeys w))) l)
  | _ => raise_ AttributeError
  end.

(** [ComfyUIAutomation.checkpoint_change]. *)
Definition checkpoint_change : M unit :=
  a <- get_self ;;
  checkpoint_types <- lift (get_config a (PStr "CheckpointTypes") (PDict [])) ;;
  started <- checkpoint_start checkpoint_types ;;
  if started then ret tt else
  cts <- random_weight_count checkpoint_types (PInt 1) ;;
  ct <- first_of cts ;;
  modify_self (upd_checkpoint_type ct) ;;
  checkpoint_weight_per <- lift (get_config a (PStr "CheckpointWeightPer") (PFloat (1#2))) ;;
  r <- rnd ;;
  per_result <- gt_random checkpoint_weight_per r ;;
  a <- get_self ;;
  weight_checkpoint <- lift (get_now a [PStr "WeightCheckpoint"] (PDict [])) ;;
  checkpoint_file_names <- lift (get_now a [PStr "CheckpointFileNames"] (PList [])) ;;
  if negb (truthy checkpoint_file_names) then throw ValueError else
  name <- (if per_result then
             n <- lift (py_len weight_checkpoint) ;;
             if Nat.ltb 0 n then (l <- random_weight_count weight_checkpoint (PInt 1) ;; first_of l)
             else choice_v checkpoint_file_names
           else
             sub <- lift (not_weighted checkpoint_file_names weight_checkpoint) ;;
             if Nat.ltb 0 (length sub) then choice sub
             else choice_v checkpoint_file_names) ;;
  modify_self (upd_checkpoint_name name) ;;
  a <- get_self ;;
  path <- lift (get_now a [PStr "CheckpointFileDics"; name] PNone) ;;
  modify_self (upd_checkpoint_path path) ;;
  if negb (truthy path) then throw ValueError else ret tt.

(** [ComfyUIAutomation.char_change]. *)
Definition char_change : M unit :=
  a <- get_self ;;
  no_char_per <- lift (get_config a (PStr "noCharPer") (PFloat (1#2))) ;;
  r <- rnd ;;
  nc <- gt_random no_char_per r ;;
  modify_self (upd_no_char nc) ;;
  char_file_names <- lift (get_now a [PStr "CharFileNames"] (PList [])) ;;
  weight_char <- lift (get_now a [PStr "WeightChar"] (PDict [])) ;;
  if nc then
    modify_self (upd_char_name (PStr "noChar")) ;;
    char_file_lists <- lift (get_now a [PStr "CharFileLists"] (PList [])) ;;
    p <- (if truthy char_file_lists then lift (py_getitem char_file_lists (PInt 0))
          else ret PNone) ;;
    modify_self (upd_char_path p)
  else
    char_weight_per <- lift (get_config a (PStr "CharWeightPer") (PFloat (1#2))) ;;
    r <- rnd ;;
    per_result <- gt_random char_weight_per r ;;
    name <- (if per_result then
               n <- lift (py_len weight_char) ;;
               if Nat.ltb 0 n then (l <- random_weight_count weight_char (PInt 1) ;; first_of l)
               else if truthy char_file_names then choice_v char_file_names else ret PNone
             else
               sub <- lift (not_weighted char_file_names weight_char) ;;
               if Nat.ltb 0 (length sub) then choice sub
               else if truthy char_file_names then choice_v char_file_names else ret PNone) ;;
    modify_self (upd_char_name name) ;;
    p <- lift (get_now a [PStr "CharFileDics"; name] PNone) ;;
    modify_self (upd_char_path p).

(** [tive_weight_tmp[k] = v]. *)
Definition dict_setitem (d : pydict) (k v : pyval) : res pydict :=
  if hashable k then ret (dset d k v) else raise_ TypeError.

(** The "per" loop of [lora_change] over the rule's [dic] entries. *)
Fixpoint per_loop (entries : pydict) (per_firsts per_max : pyval) (per_cnt : Z)
    (tmp : pydict) : M pydict :=
  match entries with
  | [] => ret tmp
  | (k2, v2) :: rest =>
      stop <- (if truthy per_firsts then
                 match num_of per_max with
                 | Some m => ret (Qle_bool m (inject_Z per_cnt))
                 | None => throw TypeError
                 end
               else ret false) ;;
      if stop then ret tmp else
      per_val <- lift (py_get v2 (PStr "per") (PInt 0)) ;;
      r <- rnd ;;
      hit <- gt_random per_val r ;;
      if hit then
        loras <- lift (py_get v2 (PStr "loras") PNone) ;;
        lora <- random_weight loras ;;
        tmp' <- lift (dict_setitem tmp lora v2) ;;
        per_loop rest per_firsts per_max (per_cnt + 1) tmp'
      else per_loop rest per_firsts per_max per_cnt tmp
  end.

(** The loop over the keys drawn by the "weight" strategy. *)
Fixpoint weight_loop (dic : pyval) (keys : list pyval) (tmp : pydict) : M pydict :=
  match keys with
  | [] => ret tmp
  | k2 :: rest =>
      v2 <- lift (py_get dic k2 PNone) ;;
      loras <- lift (py_get v2 (PStr "loras") PNone) ;;
      lora <- random_weight loras ;;
      tmp' <- lift (dict_setitem tmp lora v2) ;;
      weight_loop dic rest tmp'
  end.

(** Folding the accepted records' tags into [self.tive_weight]. *)
Fixpoint tive_loop (tmp : pydict) (ks : list pyval) (tw : pyval) : res pyval :=
  match ks with
  | [] => ret tw
  | k2 :: rest =>
      rec <- py_getitem (PDict tmp) k2 ;;
      tw <- update_dict_key tw rec (PStr "positive") ;;
      tw <- update_dict_key tw rec (PStr "negative") ;;
      tive_loop tmp rest tw
  end.

(** One iteration of the rule loop of [lora_change]: the overlay names the
    rule [v1] selects ([loras_set_tmp]). *)
Definition lora_rule (v1 : pyval) : M (list pyval) :=
  _ <- lift (py_len v1) ;;
  dic <- lift (py_get v1 (PStr "dic") (PDict [])) ;;
  per <- lift (py_get v1 (PStr "per") (PBool false)) ;;
  tmp <- (if truthy per then
            per_max <- lift (py_get v1 (PStr "perMax") (PInt 0)) ;;
            per_max <- random_min_max per_max ;;
            per_firsts <- lift (py_get v1 (PStr "perFirsts") (PBool false)) ;;
            match dic with
            | PDict entries => per_loop entries per_firsts per_max 0 []
            | _ => throw AttributeError
            end
          else ret []) ;;
  weight <- lift (py_get v1 (PStr "weight") (PBool false)) ;;
  tmp <- (if truthy weight then
            weight_max <- lift (py_get v1 (PStr "weightMax") (PInt 0)) ;;
            weight_max <- random_min_max weight_max ;;
            drawn <- random_dict_weight dic (PStr "weight") weight_max ;;
            key_set <- lift (set_update [] drawn) ;;
            weight_loop dic key_set tmp
          else ret tmp) ;;
  total <- lift (py_get v1 (PStr "total") (PBool false)) ;;
  loras_set_tmp <-
    (if truthy total then
       total_max <- lift (py_get v1 (PStr "totalMax") (PInt 0)) ;;
       total_max <- random_min_max total_max ;;
       l <- random_items_count (PDict tmp) total_max ;;
       lift (set_update [] l)
     else lift (set_update [] (dkeys tmp))) ;;
  a <- get_self ;;
  tw <- lift (tive_loop tmp loras_set_tmp (tive_weight a)) ;;
  modify_self (upd_tive_weight tw) ;;
  ret loras_set_tmp.

Fixpoint lora_rules (rules : pydict) : M unit :=
  match rules with
  | [] => ret tt
  | (k1, v1) :: rest =>
      l <- lora_rule v1 ;;
      a <- get_self ;;
      u <- lift (set_update (loras_set a) l) ;;
      modify_self (upd_loras_set u) ;;
      lora_rules rest
  end.

(** [ComfyUIAutomation.lora_change]. *)
Definition lora_change : M unit :=
  modify_self (upd_tive_weight (PDict [])) ;;
  modify_self (upd_loras_set []) ;;
  a <- get_self ;;
  no_lora_per <- lift (get_config a (PStr "noLoraPer") (PFloat (1#2))) ;;
  r <- rnd ;;
  nl <- gt_random no_lora_per r ;;
  modify_self (upd_no_lora nl) ;;
  if nl then ret tt else
  weight_lora <- lift (get_now a [PStr "WeightLora"] (PDict [])) ;;
  match weight_lora with
  | PDict rules => lora_rules rules
  | _ => throw AttributeError
  end.

(** The selection steps of one iteration of [_loop] when every loop
    counter is at zero: [checkpoint_change], [char_change], [lora_change]. *)
Definition selection : M unit :=
  checkpoint_change ;; char_change ;; lora_change.

(** [seed_int()]. *)
Definition seed_int : M Z := randint 0 (2 ^ 64 - 1).

(** [set_exists(d, value, *keys)] of [utils/dict_utils.py]: the new root
    and whether it wrote (the source returns the inner dict or [None]). *)
Fixpoint set_exists_walk (current : pyval) (keys : list pyval) (value : pyval)
  : res (pyval * bool) :=
  match keys with
  | [] => ret (current, false)
  | [k] =>
      b <- py_contains current k ;;
      if b then (c' <- py_setitem current k value ;; ret (c', true))
      else ret (current, false)
  | k :: keys' =>
      nxt <- py_get current k PNone ;;
      if is_dict nxt then
        r <- set_exists_walk nxt keys' value ;;
        let (nxt', wrote) := r in
        if wrote then (c' <- py_setitem current k nxt' ;; ret (c', true))
        else ret (current, false)
      else ret (current, false)
  end.

(** [self.set_workflow(node, key, value)]. *)
Definition set_workflow (node key value : pyval) : M bool :=
  a <- get_self ;;
  r <- lift (set_exists_walk (workflow_api a) [node; PStr "inputs"; key] value) ;;
  let (w', wrote) := r in
  modify_self (upd_workflow_api w') ;; ret wrote.

(** [self.get_workflow(node, key)]. *)
Definition get_workflow (node key : pyval) : M pyval :=
  a <- get_self ;;
  lift (get_nested (workflow_api a) [node; PStr "inputs"; key] PNone).

(** [random_func(v)] for the two resolvers the source passes. *)
Definition apply_opt (f : option (pyval -> M pyval)) (v : pyval) : M pyval :=
  match f with Some g => g v | None => ret v end.

(** [self.set_workflow_func_random2(node, key_list, random_func, func)]. *)
Fixpoint set_workflow_func_random2 (node : pyval) (key_list : list pyval)
    (random_func : option (pyval -> M pyval))
    (func : option (pyval -> pyval -> M pyval)) : M unit :=
  match key_list with
  | [] => ret tt
  | k :: rest =>
      a <- get_self ;;
      setup_workflow <- lift (get_now a [PStr "setupWorkflow"] (PDict [])) ;;
      v <- get_workflow node k ;;
      v <- lift (get_nested setup_workflow [PStr "workflow"; node; k] v) ;;
      v <- (match func with Some f => f v k | None => ret v end) ;;
      v <- apply_opt random_func v ;;
      s <- lift (get_nested setup_workflow [PStr "workflow_scale"; node; k] PNone) ;;
      v <- (if truthy s then (s <- random_min_max s ;; lift (py_mul v s)) else ret v) ;;
      m <- lift (get_nested setup_workflow [PStr "workflow_min"; node; k] PNone) ;;
      v <- (if truthy m then (m <- random_min_max m ;; lift (max_go v [m])) else ret v) ;;
      m <- lift (get_nested setup_workflow [PStr "workflow_max"; node; k] PNone) ;;
      v <- (if truthy m then (m <- random_min_max m ;; lift (min_go v [m])) else ret v) ;;
      _ <- set_workflow node k v ;;
      set_workflow_func_random2 node rest random_func func
  end.

(** [inputs = self.workflow_api.get(k, {}).get("inputs", {})], read
    from the current state. *)
Definition node_inputs (k : pyval) : M pyval :=
  a <- get_self ;;
  v <- lift (py_get (workflow_api a) k (PDict [])) ;;
  lift (py_get v (PStr "inputs") (PDict [])).

(** One node of [self.set_setup_workflow_to_workflow_api()].  The
    source's [inputs] is the node's live dict, which [set_exists] updates
    in place, so the second [get_type_list] sees the values the first pass
    wrote: it is read again from the state before the second pass. *)
Definition setup_workflow_node (k : pyval) : M unit :=
  seed <- seed_int ;;
  _ <- set_workflow k (PStr "seed") (PInt seed) ;;
  inputs <- node_inputs k ;;
  set_workflow_func_random2 k (get_type_list inputs is_number_value) (Some random_min_max) None ;;
  inputs <- node_inputs k ;;
  set_workflow_func_random2 k (get_type_list inputs is_choice_value) (Some random_weight) None.

Fixpoint setup_workflow_nodes (nodes : list pyval) : M unit :=
  match nodes with
  | [] => ret tt
  | k :: rest => setup_workflow_node k ;; setup_workflow_nodes rest
  end.

(** [self.set_setup_workflow_to_workflow_api()]: every node of the
    template except the excluded ones. *)
Definition set_setup_workflow_to_workflow_api : M unit :=
  a <- get_self ;;
  excl <- lift (get_config a (PStr "excludeNode") (PList [])) ;;
  excl <- lift (py_iter excl) ;;
  excl <- lift (set_update [] excl) ;;
  nodes <- (match workflow_api a with
            | PDict w => ret (dkeys w)
            | _ => throw AttributeError
            end) ;;
  setup_workflow_nodes (filter (fun n => negb (existsb (py_eq n) excl)) nodes).

End Engine.

(** ** Asset catalog views: [get_file_dict_list] and [update_safetensors]

    The three views of one asset kind: the name-to-path map, the list of
    relative paths and the flat list of names.  Paths are the relative
    path strings ([str(rpath)]; the map of an update stores the [Path]
    itself, which names the same file). *)
Record Views := mkViews {
  file_dics : list (string * string);
  file_lists : list string;
  file_names : list string
}.

(** [d[k] = v] and [d.pop(k, None)] on a map with string keys. *)
Fixpoint sset (d : list (string * string)) (k v : string) : list (string * string) :=
  match d with
  | [] => [(k, v)]
  | (k', v') :: r => if String.eqb k k' then (k', v) :: r else (k', v') :: sset r k v
  end.

Fixpoint spop (d : list (string * string)) (k : string) : list (string * string) :=
  match d with
  | [] => []
  | (k', v') :: r => if String.eqb k k' then r else (k', v') :: spop r k
  end.

(** [l.remove(x)] (first occurrence; guarded by [x in l] in the source). *)
Fixpoint list_remove (l : list string) (x : string) : list string :=
  match l with
  | [] => []
  | y :: r => if String.eqb x y then r else y :: list_remove r x
  end.

Definition smem (x : string) (l : list string) : bool := existsb (String.eqb x) l.

(** [get_file_dict_list(path, base_dir)] of [utils/file_handler.py], given
    the files [rglob] finds, as paths relative to [base_dir]. *)
Definition get_file_dict_list (files : list string) : Views :=
  let names := map path_stem files in
  let paths_list := files in
  mkViews (fold_left (fun d np => sset d (fst np) (snd np)) (combine names paths_list) [])
          paths_list names.

(** [self.update_safetensors(path, ...)] on the views it reads with
    [get_now] and writes back with [set_now]; [rpath] is the path
    relative to the configured asset directory. *)
Definition update_safetensors (v : Views) (rpath : string) (event_type : string) : Views :=
  let name := path_stem rpath in
  let spath := rpath in
  let v := if smem event_type ["deleted"; "modified"]%string
           then mkViews (spop (file_dics v) name)
                        (if smem spath (file_lists v) then list_remove (file_lists v) spath
                         else file_lists v)
                        (if smem name (file_names v) then list_remove (file_names v) name
                         else file_names v)
           else v in
  if smem event_type ["created"; "modified"]%string
  then mkViews (sset (file_dics v) name rpath)
               (if smem spath (file_lists v) then file_lists v else file_lists v ++ [spath])
               (if smem name (file_names v) then file_names v else file_names v ++ [name])
  else v.

Definition views_dics (v : Views) : pyval :=
  PDict (map (fun kv => (PStr (fst kv), PStr (snd kv))) (file_dics v)).
Definition views_lists (v : Views) : pyval := PList (map PStr (file_lists v)).
Definition views_names (v : Views) : pyval := PList (map PStr (file_names v)).

(** ** Loading a category: the weight tables and [init]

    [x or {}] on a loaded YAML document. *)
Definition py_or_dict (v : pyval) : pyval := if truthy v then v else PDict [].

(** [self._get_weight_checkpoint(ct)] (and, with other keys, [_get_weight_char]):
    [weight_yml] is the loaded [WeightCheckpoint.yml]. *)
Fixpoint weight_table_loop (config td ct : pyval) (yml_key default_key : pyval)
    (weight_yml : pyval) (keys : list pyval) (acc : pydict) : res pydict :=
  match keys with
  | [] => ret acc
  | key :: rest =>
      weight <- get_nested td [ct; yml_key; key; PStr "weight"] PNone ;;
      w <- (if truthy weight then ret weight
            else b <- py_contains weight_yml key ;;
                 if b then py_getitem weight_yml key else py_get config default_key (PInt 150)) ;;
      acc' <- dict_setitem acc key w ;;
      weight_table_loop config td ct yml_key default_key weight_yml rest acc'
  end.

Definition get_weight_table (config td ct : pyval) (names_key yml_key table_key default_key : pyval)
    (weight_yml_file : pyval) : res pyval :=
  names <- get_nested td [ct; names_key] (PList []) ;;
  let weight_yml := py_or_dict weight_yml_file in
  names <- py_iter names ;;
  wc <- weight_table_loop config td ct yml_key default_key weight_yml names [] ;;
  set_nested td (PDict wc) [ct; table_key].

Definition _get_weight_checkpoint (config td ct weight_yml_file : pyval) : res pyval :=
  get_weight_table config td ct (PStr "CheckpointFileNames") (PStr "dicCheckpointYml")
    (PStr "WeightCheckpoint") (PStr "CheckpointWeightDefault") weight_yml_file.

Definition _get_weight_char (config td ct weight_yml_file : pyval) : res pyval :=
  get_weight_table config td ct (PStr "CharFileNames") (PStr "dicLoraYml")
    (PStr "WeightChar") (PStr "CharWeightDefault") weight_yml_file.

(** [d.pop(k)] without a default. *)
Definition pop_key (d : pydict) (k : pyval) : res pydict :=
  match dlookup d k with Some _ => ret (dpop d k) | None => raise_ KeyError end.

(** [for k, v in list(d.items()): ...] where the body either pops the
    visited key ([None]) or rebinds it ([Some v']). *)
Fixpoint visit_items (body : pyval -> pyval -> res (option pyval))
    (snapshot : pydict) (d : pydict) : res pydict :=
  match snapshot with
  | [] => ret d
  | (k, v) :: rest =>
      o <- body k v ;;
      d' <- (match o with
             | None => pop_key d k
             | Some v' => dict_setitem d k v'
             end) ;;
      visit_items body rest d'
  end.

(** [loras_tmp] of [_clean_weight_lora]: the overlays of a candidate that
    are still among the asset names. *)
Fixpoint filter_res {A : Type} (f : A -> res bool) (l : list A) : res (list A) :=
  match l with
  | [] => ret []
  | x :: r => b <- f x ;; r' <- filter_res f r ;; ret (if b then x :: r' else r')
  end.

Definition filter_loras (lora_file_names loras : pyval) : res pyval :=
  match loras with
  | PDict d => d' <- filter_res (fun kv => py_contains lora_file_names (fst kv)) d ;;
               ret (PDict d')
  | PList l => l' <- filter_res (fun x => py_contains lora_file_names x) l ;; ret (PList l')
  | PStr _ => b <- py_contains lora_file_names loras ;; ret (if b then loras else PNone)
  | _ => ret PNone
  end.

(** The body of the inner loop, on candidate [k2] with value [v2]
    (the snapshot value is the object [dic[k2]]). *)
Definition clean_candidate (lora_file_names : pyval) (k2 v2 : pyval) : res (option pyval) :=
  weight <- py_get v2 (PStr "weight") PNone ;;
  per <- py_get v2 (PStr "per") PNone ;;
  if negb (truthy weight) && negb (truthy per) then ret None else
  loras <- py_get v2 (PStr "loras") (PDict []) ;;
  loras_tmp <- filter_loras lora_file_names loras ;;
  if negb (truthy loras_tmp) then ret None else
  v2' <- py_setitem v2 (PStr "loras") loras_tmp ;;
  ret (Some v2').

(** The body of the outer loop, on rule [k1] with value [v1]; a rule that
    is not a dict is left as it is. *)
Definition clean_rule (lora_file_names : pyval) (k1 v1 : pyval) : res (option pyval) :=
  if negb (is_dict v1) then ret (Some v1) else
  dic <- py_get v1 (PStr "dic") (PDict []) ;;
  entries <- (match dic with PDict e => ret e | _ => raise_ AttributeError end) ;;
  dic' <- visit_items (clean_candidate lora_file_names) entries entries ;;
  if negb (truthy (PDict dic')) then ret None else
  v1' <- py_setitem v1 (PStr "dic") (PDict dic') ;;
  ret (Some v1').

(** The pruning pass of [self._clean_weight_lora(ct)] on the table
    [weight_lora], against the asset-name list [lora_file_names]. *)
Definition clean_weight_lora (lora_file_names weight_lora : pyval) : res pyval :=
  if negb (truthy weight_lora) then ret weight_lora else
  match weight_lora with
  | PDict wl => wl' <- visit_items (clean_rule lora_file_names) wl wl ;; ret (PDict wl')
  | _ => raise_ AttributeError
  end.

(** [self._clean_weight_lora(ct)] on the catalog. *)
Definition _clean_weight_lora (td ct : pyval) : res pyval :=
  lora_file_names <- get_nested td [ct; PStr "LoraFileNames"] (PList []) ;;
  weight_lora <- get_nested td [ct; PStr "WeightLora"] (PDict []) ;;
  if negb (truthy weight_lora) then ret td else
  wl' <- clean_weight_lora lora_file_names weight_lora ;;
  set_nested td wl' [ct; PStr "WeightLora"].

(** [self._get_weight_lora(ct, delete)]. *)
Definition _get_weight_lora (td ct weight_lora_file : pyval) (delete : bool) : res pyval :=
  td <- set_nested td (py_or_dict weight_lora_file) [ct; PStr "WeightLora"] ;;
  if delete then _clean_weight_lora td ct else ret td.

(** [dict.update(data)] of [YAMLHandler.merge_yml_files] for a loaded
    document: a mapping, or a list of key/value pairs. *)
Definition dict_update (r : pydict) (data : pyval) : res pydict :=
  match data with
  | PDict d => ret (fold_left (fun acc kv => dset acc (fst kv) (snd kv)) d r)
  | PList l =>
      (fix go (acc : pydict) (l : list pyval) : res pydict :=
         match l with
         | [] => ret acc
         | PList [k; v] :: l' => acc' <- dict_setitem acc k v ;; go acc' l'
         | PStr (String c1 (String c2 EmptyString)) :: l' =>
             acc' <- dict_setitem acc (PStr (String c1 EmptyString))
                                      (PStr (String c2 EmptyString)) ;; go acc' l'
         | PDict [(k, _); (v, _)] :: l' => acc' <- dict_setitem acc k v ;; go acc' l'
         | (PList _ | PStr _ | PDict _) :: _ => raise_ ValueError
         | _ :: _ => raise_ TypeError
         end) r l
  | PStr _ => raise_ ValueError
  | _ => raise_ TypeError
  end.

(** [YAMLHandler.merge_yml_files(path)], given the loaded documents of
    the files [glob] finds, in that order. *)
Fixpoint merge_yml_go (docs : list pyval) (result : pydict) : res pydict :=
  match docs with
  | [] => ret result
  | data :: rest =>
      result' <- (if truthy data then dict_update result data else ret result) ;;
      merge_yml_go rest result'
  end.

Definition merge_yml_files (docs : list pyval) : res pyval :=
  r <- merge_yml_go docs [] ;; ret (PDict r).

(** What [init] reads for one category: the asset files [rglob] finds
    (relative to the configured base directory) and the loaded data files
    ([load_simple] results, [PNone] for a missing file). *)
Record CategoryFiles := mkCategoryFiles {
  checkpoint_files : list string;
  char_files : list string;
  etc_files : list string;
  setup_wildcard_global : pyval;
  setup_wildcard_type : pyval;
  setup_workflow_global : pyval;
  setup_workflow_type : pyval;
  weight_checkpoint_yml : pyval;
  weight_lora_yml : pyval;
  weight_char_yml : pyval;
  checkpoint_ymls : list pyval;
  lora_ymls : list pyval;
  workflow_api_json : pyval
}.

(** [_get_safetensors_*]: store the three views of a scan. *)
Definition set_views (td ct : pyval) (v : Views) (dics_key lists_key names_key : pyval)
  : res pyval :=
  td <- set_nested td (views_dics v) [ct; dics_key] ;;
  td <- set_nested td (views_lists v) [ct; lists_key] ;;
  set_nested td (views_names v) [ct; names_key].

(** [_get_setup_wildcard(ct)] and [_get_setup_workflow(ct)]. *)
Definition get_setup (td ct global typed key : pyval) : res pyval :=
  s <- update_dict (py_or_dict global) (py_or_dict typed) ;;
  set_nested td s [ct; key].

(** The body of [self.init()] for one category [ct]. *)
Definition init_category (config td ct : pyval) (f : CategoryFiles) (delete : bool)
  : res pyval :=
  td <- py_setitem td ct (PDict []) ;;
  let ck := get_file_dict_list (checkpoint_files f) in
  td <- set_views td ct ck (PStr "CheckpointFileDics") (PStr "CheckpointFileLists")
                           (PStr "CheckpointFileNames") ;;
  match file_dics ck, file_lists ck, file_names ck with
  | [], _, _ | _, [], _ | _, _, [] => raise_ FileNotFoundError
  | _, _, _ =>
  td <- set_views td ct (get_file_dict_list (char_files f)) (PStr "CharFileDics")
                  (PStr "CharFileLists") (PStr "CharFileNames") ;;
  td <- set_views td ct (get_file_dict_list (etc_files f)) (PStr "LoraFileDics")
                  (PStr "LoraFileLists") (PStr "LoraFileNames") ;;
  td <- get_setup td ct (setup_wildcard_global f) (setup_wildcard_type f) (PStr "setupWildcard") ;;
  td <- get_setup td ct (setup_workflow_global f) (setup_workflow_type f) (PStr "setupWorkflow") ;;
  td <- _get_weight_checkpoint config td ct (weight_checkpoint_yml f) ;;
  td <- _get_weight_lora td ct (weight_lora_yml f) delete ;;
  td <- _get_weight_char config td ct (weight_char_yml f) ;;
  dcy <- merge_yml_files (checkpoint_ymls f) ;;
  td <- set_nested td dcy [ct; PStr "dicCheckpointYml"] ;;
  dly <- merge_yml_files (lora_ymls f) ;;
  td <- set_nested td dly [ct; PStr "dicLoraYml"] ;;
  if truthy (workflow_api_json f)
  then set_nested td (workflow_api_json f) [ct; PStr "workflow_api"]
  else ret td
  end.

(** [self.init()]: every category of [CheckpointTypes], in order. *)
Fixpoint init (config td : pyval) (cats : list (pyval * CategoryFiles)) (delete : bool)
  : res pyval :=
  match cats with
  | [] => ret td
  | (ct, f) :: rest => td <- init_category config td ct f delete ;; init config td rest delete
  end.

(** ** [FileEventHandler] of [utils/file_handler.py]

    A watchdog event as the handler reads it, and the handler's one field
    [last_event_time] ([0.0] after [__init__]); [current_time] is the
    [time.time()] the handler would read while handling the event. *)
Record FsEvent := mkFsEvent { is_directory : bool; event_type : string }.

(** [self._time_check(event)]: [true] drops the event. *)
Definition _time_check (last_event_time : Q) (event : FsEvent) (current_time : Q) : bool * Q :=
  if negb (String.eqb (event_type event) "modified") then (false, last_event_time)
  else if Qlt_bool 1 (current_time - last_event_time) then (true, current_time)
  else (false, last_event_time).

(** [self.on_any_event(event)]: whether [self.callback(event)] is called,
    and the new [last_event_time]. *)
Definition on_any_event (last_event_time : Q) (event : FsEvent) (current_time : Q) : bool * Q :=
  if is_directory event then (false, last_event_time) else
  let (dropped, t) := _time_check last_event_time event current_time in
  (negb dropped, t).

(** The handler fed a sequence of timed events: the events passed to the
    callback, in order, and the final [last_event_time]. *)
Fixpoint handle_events (last_event_time : Q) (evs : list (FsEvent * Q)) : list FsEvent * Q :=
  match evs with
  | [] => ([], last_event_time)
  | (e, t) :: r =>
      let (called, last') := on_any_event last_event_time e t in
      let (out, fin) := handle_events last' r in
      ((if called then e :: out else out), fin)
  end.

(** ** A replayable generator

    A list of [random()] results and a list of [_randbelow] results; a
    recorded real outside [[0, 1)] reads as [0], a recorded integer is
    taken modulo [n], and an exhausted list reads as [0]. *)
Record Draws := mkDraws { reals : list Q; ints : list Z }.

Definition unit_clamp (u : Q) : Q := if Qle_bool 0 u && Qlt_bool u 1 then u else 0.

#[global] Instance draws_random : PyRandom Draws := {
  random d := match reals d with
              | u :: r => (unit_clamp u, mkDraws r (ints d))
              | [] => (0, d)
              end;
  randbelow n d := match ints d with
                   | j :: r => (Z.modulo j n, mkDraws (reals d) r)
                   | [] => (0%Z, d)
                   end
}.

(** The replayable generator meets the guarantees of the primitives. *)
#[global] Instance draws_valid : PyRandomValid Draws.
Proof.
  split.
  - intros [rs is]; destruct rs as [| u r]; cbn; [split; [apply Qle_refl | reflexivity] |].
    unfold unit_clamp; destruct (Qle_bool 0 u && Qlt_bool u 1) eqn:E.
    + apply andb_prop in E as [E1 E2]; split; [now apply Qle_bool_iff |].
      unfold Qlt_bool in E2; apply negb_true_iff in E2.
      apply Qnot_le_lt; intros Hle; apply Qle_bool_iff in Hle; congruence.
    + split; [apply Qle_refl | reflexivity].
  - intros n [rs is] Hn; destruct is as [| j r]; cbn; [lia |].
    apply Z.mod_pos_bound; exact Hn.
Qed.

(** An object with the given configuration, catalog and current category,
    all other fields at their [__init__] values. *)
Definition auto_with (cfg td ct : pyval) : Auto :=
  mkAuto cfg td true ct PNone PNone PNone PNone false false [] (PDict []) (PDict []).

Definition run {A : Type} (m : @M Draws A) (a : Auto) (d : Draws)
  : res (A * (Auto * Draws)) :=
  runStateT m (a, d).

(** ** Specification predicates *)

(** The paths [set_nested] can write: a non-empty path along which every
    existing value is a dict and every key is hashable. *)
Fixpoint walkable (temp : pyval) (keys : list pyval) : bool :=
  match keys with
  | [] => false
  | [k] => is_dict temp && hashable k
  | k :: keys' =>
      match temp with
      | PDict d =>
          hashable k && walkable (match dlookup d k with Some c => c | None => PDict [] end) keys'
      | _ => false
      end
  end.

(** A Python dict: hashable keys, no key equal to an earlier one. *)
Fixpoint keys_unique (d : pydict) : bool :=
  match d with
  | [] => true
  | (k, _) :: r => hashable k && forallb (fun kv => negb (py_eq (fst kv) k)) r && keys_unique r
  end.

(** The dicts [_clean_weight_lora] iterates over are Python dicts: the
    table itself and the [dic] of every rule. *)
Definition dic_wf (v1 : pyval) : bool :=
  match v1 with
  | PDict d => match dlookup d (PStr "dic") with
               | Some (PDict e) => keys_unique e
               | _ => true
               end
  | _ => true
  end.

Definition rules_wf (weight_lora : pyval) : bool :=
  match weight_lora with
  | PDict d => keys_unique d && forallb (fun kv => dic_wf (snd kv)) d
  | _ => true
  end.

(** What [visit_items] computes on a dict with unique keys: the entries
    whose body keeps them, with their new values, in order. *)
Fixpoint kept_items (body : pyval -> pyval -> res (option pyval)) (snapshot : pydict)
  : res pydict :=
  match snapshot with
  | [] => ret []
  | (k, v) :: rest =>
      o <- body k v ;;
      r <- kept_items body rest ;;
      ret (match o with None => r | Some v' => (k, v') :: r end)
  end.

(** Names pairwise distinct. *)
Fixpoint distinct_strs (l : list string) : bool :=
  match l with
  | [] => true
  | x :: r => negb (smem x r) && distinct_strs r
  end.

(** The views of one asset kind after the initial scan of [files] and a
    sequence of file-system notifications [(rpath, event_type)]. *)
Definition apply_events (files : list string) (events : list (string * string)) : Views :=
  fold_left (fun v e => update_safetensors v (fst e) (snd e)) events (get_file_dict_list files).

(** The invariant of one asset kind's views: names and map keys without
    duplicates, and the same names in both. *)
Definition views_inv (v : Views) : Prop :=
  NoDup (file_names v) /\ NoDup (map fst (file_dics v)) /\
  (forall x, In x (file_names v) <-> In x (map fst (file_dics v))).

(** The overlay rule of end-to-end scenario 2: weighted selection with
    [weightMax: [2, 2]] over three candidates of weight 1, each naming one
    overlay. *)
Definition scenario2_candidate (n : string) : pyval :=
  PDict [(PStr "weight", PInt 1); (PStr "loras", PStr n)].

Definition scenario2_rule : pyval :=
  PDict [(PStr "weight", PBool true); (PStr "weightMax", PList [PInt 2; PInt 2]);
         (PStr "dic", PDict [(PStr "c1", scenario2_candidate "la");
                             (PStr "c2", scenario2_candidate "lb");
                             (PStr "c3", scenario2_candidate "lc")])].

(** One category [X] with one base model [m1] whose AttributeRecord file
    gives it [weight: 5], and no [WeightCheckpoint.yml]. *)
Definition record_weight_files : CategoryFiles :=
  mkCategoryFiles ["X/m1.safetensors"%string] [] [] PNone PNone PNone PNone PNone PNone PNone
    [PDict [(PStr "m1", PDict [(PStr "weight", PInt 5)])]] [] PNone.

(** End-to-end scenario 1: one category [X] with one base model [m1], no
    character or auxiliary asset and no data file; the configuration gives
    [X] weight 1. *)
Definition scenario1_files : CategoryFiles :=
  mkCategoryFiles ["X/m1.safetensors"%string] [] [] PNone PNone PNone PNone PNone PNone PNone
    [] [] PNone.

Definition scenario1_config : pyval :=
  PDict [(PStr "CheckpointTypes", PDict [(PStr "X", PInt 1)])].

(** End-to-end scenario 3: a template node [N] whose input [strength] holds
    [t], and a category [X] whose [setupWorkflow] holds [setup]. *)
Definition scenario3_template (t : pyval) : pyval :=
  PDict [(PStr "N", PDict [(PStr "inputs", PDict [(PStr "strength", t)])])].

Definition scenario3_min : pydict :=
  [(PStr "workflow_min", PDict [(PStr "N", PDict [(PStr "strength", PFloat (1 # 2))])])].

Definition scenario3_override : pydict :=
  [(PStr "workflow", PDict [(PStr "N", PDict [(PStr "strength", PList [PFloat 0; PFloat 1])])])].

Definition scenario3_auto (setup : pydict) (t : pyval) : Auto :=
  upd_workflow_api (scenario3_template t)
    (auto_with (PDict []) (PDict [(PStr "X", PDict [(PStr "setupWorkflow", PDict setup)])])
       (PStr "X")).

(** A weight [random.choices] accepts without complaint: a number, not
    negative. *)
Definition nonneg_weight (w : pyval) : Prop := exists q, num_of w = Some q /\ 0 <= q.

(** Every key of the path is present, each in the value reached so far,
    which is a dict. *)
Fixpoint has_path (c : pyval) (keys : list pyval) : bool :=
  match keys with
  | [] => true
  | k :: ks =>
      match c with
      | PDict d => match dlookup d k with Some c' => has_path c' ks | None => false end
      | _ => false
      end
  end.

(** The times of the modified file events of a sequence. *)
Definition modified_times (evs : list (FsEvent * Q)) : list Q :=
  map snd (filter (fun p => negb (is_directory (fst p)) &&
                            String.eqb (event_type (fst p)) "modified") evs).

(** Each time more than one second after the one before it. *)
Fixpoint spaced (prev : Q) (ts : list Q) : Prop :=
  match ts with
  | [] => True
  | t :: r => 1 < t - prev /\ spaced t r
  end.

(** A sequence of file events: a modified file at 5 s, a created file at
    5 s, a modified directory at 6 s and a modified file at 7 s. *)
Definition fh_sample : list (FsEvent * Q) :=
  [(mkFsEvent false "modified", 5); (mkFsEvent false "created", 5);
   (mkFsEvent true "modified", 6); (mkFsEvent false "modified", 7)]%string.

(** [m] leaves the object alone: only the generator may change. *)
Section Frame.
Context {G : Type} `{PyRandom G}.
Definition keeps_self {A : Type} (m : M A) : Prop :=
  forall (st : Auto * G) (x : A) (st' : Auto * G),
    runStateT m st = inr (x, st') -> fst st' = fst st.
End Frame.

(** The asset names an overlay value mentions: the keys of a dict, the
    items of a list, or the string itself. *)
Definition lora_names (v : pyval) : list pyval :=
  match v with
  | PDict d => dkeys d
  | PList l => l
  | PStr _ => [v]
  | _ => []
  end.

(** Lookup in a map with string keys, and the last file of a given stem. *)
Fixpoint slookup (d : list (string * string)) (k : string) : option string :=
  match d with
  | [] => None
  | (k', v) :: r => if String.eqb k k' then Some v else slookup r k
  end.

Definition last_with_stem (n : string) (files : list string) : option string :=
  match rev (filter (fun f => String.eqb (path_stem f) n) files) with
  | [] => None
  | p :: _ => Some p
  end.

(** The value of key [s] after merging documents in order, and the
    documents [merge_yml_files] is specified on. *)
Definition yml_step (s : string) (acc : option pyval) (doc : pyval) : option pyval :=
  match doc with
  | PDict d => match dlookup d (PStr s) with Some v => Some v | None => acc end
  | _ => acc
  end.

Definition yml_value (docs : list pyval) (s : string) : option pyval :=
  fold_left (yml_step s) docs None.

Definition str_keys (d : pydict) : bool := forallb (fun kv => is_str (fst kv)) d.

Definition yml_doc_ok (doc : pyval) : bool :=
  negb (truthy doc) || match doc with PDict d => str_keys d && keys_unique d | _ => false end.

(** The object with its LoRA selection state ([tive_weight], [loras_set])
    erased, and the actions that change nothing else in it. *)
Definition clear_lora (a : Auto) : Auto := upd_loras_set [] (upd_tive_weight (PDict []) a).

Section LoraFrame.
Context {G : Type} `{PyRandom G}.
Definition lora_frame {A : Type} (m : @M G A) : Prop :=
  forall (st : Auto * G) (x : A) (st' : Auto * G),
    runStateT m st = inr (x, st') -> clear_lora (fst st') = clear_lora (fst st).
End LoraFrame.

(** The keys of a dict, [None] for any other value. *)
Definition dkeys_of (v : pyval) : option (list pyval) :=
  match v with PDict d => Some (dkeys d) | _ => None end.

(** The keys of [c[k]] when [c] is a dict holding a dict under [k]. *)
Definition sub_keys (c k : pyval) : option (list pyval) :=
  match c with
  | PDict d => match dlookup d k with Some x => dkeys_of x | None => None end
  | _ => None
  end.

(** The keys of [w[n]["inputs"]] when that is a dict. *)
Definition input_keys (w n : pyval) : option (list pyval) :=
  match w with
  | PDict d => match dlookup d n with Some x => sub_keys x (PStr "inputs") | None => None end
  | _ => None
  end.

(** [w'] has the nodes of [w], each node the keys it had, and each
    node's [inputs] the keys it had. *)
Definition same_shape (w w' : pyval) : Prop :=
  dkeys_of w' = dkeys_of w /\ (forall n, sub_keys w' n = sub_keys w n) /\
  (forall n, input_keys w' n = input_keys w n).

(** The dict keys of [x] and [y] agree down to depth [n]: the same keys at
    the top, and under each key either both sides miss it or both have it
    with values whose keys agree down to depth [n - 1]. *)
Fixpoint keys_kept (n : nat) (x y : pyval) : Prop :=
  dkeys_of y = dkeys_of x /\
  match n with
  | O => True
  | S n' =>
      match x, y with
      | PDict dx, PDict dy =>
          forall k, match dlookup dx k, dlookup dy k with
                    | Some a, Some b => keys_kept n' a b
                    | None, None => True
                    | _, _ => False
                    end
      | _, _ => True
      end
  end.

Section ShapeFrame.
Context {G : Type} `{PyRandom G}.
(** [m] adds or removes no key of [workflow_api] at depth 0, 1 or 2: no
    node, no key of a node, no key of a node's [inputs]. *)
Definition shape_kept {A : Type} (m : M A) : Prop :=
  forall (st : Auto * G) (x : A) (st' : Auto * G),
    runStateT m st = inr (x, st') -> keys_kept 2 (workflow_api (fst st)) (workflow_api (fst st')).
End ShapeFrame.

(** * Properties *)

(** ** Dicts and nested access *)

Lemma py_eq_refl_hashable (k : pyval) : hashable k = true -> py_eq k k = true.
Proof.
  destruct k; simpl; intros Hk; try discriminate; try reflexivity;
    try apply Qeq_bool_refl; apply String.eqb_refl.
Qed.

Lemma dlookup_dset_same (d : pydict) (k v : pyval) :
  py_eq k k = true -> dlookup (dset d k v) k = Some v.
Proof.
  intros Hk; induction d as [| [k' v'] r IH]; simpl.
  - now rewrite Hk.
  - destruct (py_eq k k') eqn:E; simpl; rewrite E; auto.
Qed.

Lemma set_walk_cons2 (d : pydict) (k k2 : pyval) (ks : list pyval) (value : pyval) :
  set_walk (PDict d) (k :: k2 :: ks) value =
  if hashable k then
    child' <- set_walk (match dlookup d k with Some c => c | None => PDict [] end)
                       (k2 :: ks) value ;;
    ret (PDict (dset d k child'))
  else raise_ TypeError.
Proof. reflexivity. Qed.

Lemma get_nested_cons2 (c : pyval) (k k2 : pyval) (ks : list pyval) (dflt : pyval) :
  get_nested c (k :: k2 :: ks) dflt =
  (nxt <- py_get c k dflt ;;
   if is_dict nxt then get_nested nxt (k2 :: ks) dflt else ret dflt).
Proof. reflexivity. Qed.

Lemma set_walk_dict (temp value : pyval) (keys : list pyval) (r : pyval) :
  is_dict temp = true -> set_walk temp keys value = inr r -> is_dict r = true.
Proof.
  destruct temp; try discriminate; intros _.
  destruct keys as [| k [| k2 ks]].
  - cbn; now intros [= <-].
  - cbn; destruct (hashable k); cbn; [now intros [= <-] | discriminate].
  - rewrite set_walk_cons2; destruct (hashable k); [| discriminate].
    destruct (set_walk _ (k2 :: ks) value); cbn; [discriminate | now intros [= <-]].
Qed.

Lemma walkable_dict (temp k : pyval) (ks : list pyval) :
  walkable temp (k :: ks) = true -> is_dict temp = true.
Proof. destruct ks, temp; simpl; easy. Qed.

Lemma set_walk_get (keys : list pyval) (temp value dflt : pyval) :
  walkable temp keys = true ->
  exists r, set_walk temp keys value = inr r /\ get_nested r keys dflt = inr value.
Proof.
  revert temp; induction keys as [| k keys IH]; intros temp Hw; [discriminate |].
  destruct keys as [| k2 ks].
  - simpl in Hw; destruct temp; try discriminate; simpl in Hw.
    eexists; simpl; rewrite Hw; split; [reflexivity |].
    cbn; rewrite Hw, dlookup_dset_same by now apply py_eq_refl_hashable.
    reflexivity.
  - destruct temp; try discriminate.
    change (hashable k && walkable (match dlookup d k with Some c => c | None => PDict [] end)
              (k2 :: ks) = true) in Hw.
    apply andb_prop in Hw as [Hk Hw].
    destruct (IH _ Hw) as [c' [Hs Hg]].
    assert (Hd : is_dict c' = true)
      by exact (set_walk_dict _ _ _ _ (walkable_dict _ _ _ Hw) Hs).
    exists (PDict (dset d k c')); split.
    + rewrite set_walk_cons2, Hk, Hs; reflexivity.
    + rewrite get_nested_cons2; cbn [py_get]; rewrite Hk, dlookup_dset_same by now apply py_eq_refl_hashable.
      cbn; rewrite Hd; exact Hg.
Qed.

(** C8 (code bug).  [get_nested] walks [current = current.get(key, default)],
    so when an intermediate key is missing it continues inside the
    caller's [default]: on the empty root, the path ["a", "b"] with the
    default [{"b": 1}] yields [1], neither the default nor a value stored
    in the root. *)
Theorem get_nested_walks_into_default :
  get_nested (PDict []) [PStr "a"; PStr "b"] (PDict [(PStr "b", PInt 1)]) = inr (PInt 1).
Proof. reflexivity. Qed.

(** C10, as stated: every non-empty path can be written on every dict root. *)
Lemma set_nested_not_total :
  ~ (forall (root value : pyval) (keys : list pyval),
        is_dict root = true -> keys <> [] ->
        exists r, set_nested root value keys = inr r /\ get_nested r keys PNone = inr value).
Proof.
  intros H.
  destruct (H (PDict [(PStr "a", PInt 1)]) (PInt 2) [PStr "a"; PStr "b"] eq_refl
              ltac:(discriminate)) as [r [Hr _]].
  discriminate Hr.
Qed.

(** C10 (corrected).  [set_nested] succeeds on every non-empty path whose
    keys are hashable and whose existing intermediate values are dicts
    (missing ones are created), and afterwards [get_nested] on that path
    returns the stored value, whatever the default. *)
Theorem set_nested_creates_path (root value dflt : pyval) (keys : list pyval)
  (Hw : walkable root keys = true) :
  exists r, set_nested root value keys = inr r /\ get_nested r keys dflt = inr value.
Proof.
  destruct keys as [| k ks]; [discriminate |].
  exact (set_walk_get (k :: ks) root value dflt Hw).
Qed.

Lemma set_nested_creates_path_witness :
  walkable (PDict [(PStr "a", PDict [])]) [PStr "a"; PStr "b"; PStr "c"] = true /\
  exists r, set_nested (PDict [(PStr "a", PDict [])]) (PInt 2) [PStr "a"; PStr "b"; PStr "c"] = inr r
            /\ get_nested r [PStr "a"; PStr "b"; PStr "c"] PNone = inr (PInt 2).
Proof.
  split; [reflexivity |].
  apply (set_nested_creates_path (PDict [(PStr "a", PDict [])]) (PInt 2) PNone
           [PStr "a"; PStr "b"; PStr "c"]).
  reflexivity.
Defined.

(** ** Comparisons, [min] and [max] *)

Lemma Qlt_bool_true (x y : Q) : Qlt_bool x y = true -> x < y.
Proof.
  unfold Qlt_bool; rewrite negb_true_iff; intros E.
  apply Qnot_le_lt; intros Hle; apply Qle_bool_iff in Hle; congruence.
Qed.

Lemma Qlt_bool_false (x y : Q) : Qlt_bool x y = false -> y <= x.
Proof.
  unfold Qlt_bool; rewrite negb_false_iff; intros E; now apply Qle_bool_iff.
Qed.

Lemma py_lt_num (a b : pyval) (x y : Q) :
  num_of a = Some x -> num_of b = Some y -> py_lt a b = inr (Qlt_bool x y).
Proof. destruct a, b; simpl; intros Ha Hb; try discriminate; congruence. Qed.

(** Comparing a number with a non-number raises. *)
Lemma py_lt_ok_same_kind (a b : pyval) (r : bool) :
  py_lt a b = inr r -> (num_of a = None <-> num_of b = None).
Proof. destruct a, b; simpl; try discriminate; intros _; split; congruence. Qed.

Lemma num_of_int (x : pyval) (z : Z) : int_of x = Some z -> num_of x = Some (inject_Z z).
Proof. destruct x; simpl; try discriminate; intros [= <-]; [destruct b |]; reflexivity. Qed.

Lemma min_go_num (l : list pyval) : forall cur qc,
  num_of cur = Some qc -> (forall x, In x l -> num_of x <> None) ->
  exists m qm, min_go cur l = inr m /\ num_of m = Some qm /\ In m (cur :: l) /\
    forall x qx, In x (cur :: l) -> num_of x = Some qx -> qm <= qx.
Proof.
  induction l as [| y r IH]; intros cur qc Hc Hl.
  - exists cur, qc; repeat split; [assumption | now left |].
    intros x qx [<- | []] Hx; rewrite Hc in Hx; injection Hx as <-; apply Qle_refl.
  - destruct (num_of y) as [qy |] eqn:Hy;
      [| exfalso; apply (Hl y); [now left | assumption]].
    cbn [min_go]; rewrite (py_lt_num y cur qy qc Hy Hc); cbn.
    destruct (Qlt_bool qy qc) eqn:E.
    + destruct (IH y qy Hy (fun x Hx => Hl x (or_intror Hx)))
        as [m [qm [Hm [Hqm [Hin Hle]]]]].
      exists m, qm; rewrite Hm; repeat split; [assumption | |].
      * destruct Hin as [<- | Hin]; [right; now left | right; now right].
      * apply Qlt_bool_true in E.
        intros x qx [<- | [<- | Hx]] Hqx.
        -- rewrite Hc in Hqx; injection Hqx as <-.
           apply Qlt_le_weak, (Qle_lt_trans _ qy); [apply (Hle y) | ]; auto; now left.
        -- eapply Hle; [now left | eassumption].
        -- apply (Hle x); [now right | assumption].
    + destruct (IH cur qc Hc (fun x Hx => Hl x (or_intror Hx)))
        as [m [qm [Hm [Hqm [Hin Hle]]]]].
      exists m, qm; rewrite Hm; repeat split; [assumption | |].
      * destruct Hin as [<- | Hin]; [now left | right; now right].
      * apply Qlt_bool_false in E.
        intros x qx [<- | [<- | Hx]] Hqx.
        -- eapply Hle; [now left | eassumption].
        -- rewrite Hy in Hqx; injection Hqx as <-.
           apply (Qle_trans _ qc); [apply (Hle cur); [now left | assumption] | assumption].
        -- apply (Hle x); [now right | assumption].
Qed.

Lemma max_go_num (l : list pyval) : forall cur qc,
  num_of cur = Some qc -> (forall x, In x l -> num_of x <> None) ->
  exists m qm, max_go cur l = inr m /\ num_of m = Some qm /\ In m (cur :: l) /\
    forall x qx, In x (cur :: l) -> num_of x = Some qx -> qx <= qm.
Proof.
  induction l as [| y r IH]; intros cur qc Hc Hl.
  - exists cur, qc; repeat split; [assumption | now left |].
    intros x qx [<- | []] Hx; rewrite Hc in Hx; injection Hx as <-; apply Qle_refl.
  - destruct (num_of y) as [qy |] eqn:Hy;
      [| exfalso; apply (Hl y); [now left | assumption]].
    cbn [max_go]; rewrite (py_lt_num cur y qc qy Hc Hy); cbn.
    destruct (Qlt_bool qc qy) eqn:E.
    + destruct (IH y qy Hy (fun x Hx => Hl x (or_intror Hx)))
        as [m [qm [Hm [Hqm [Hin Hle]]]]].
      exists m, qm; rewrite Hm; repeat split; [assumption | |].
      * destruct Hin as [<- | Hin]; [right; now left | right; now right].
      * apply Qlt_bool_true in E.
        intros x qx [<- | [<- | Hx]] Hqx.
        -- rewrite Hc in Hqx; injection Hqx as <-.
           apply Qlt_le_weak, (Qlt_le_trans _ qy); [| apply (Hle y)]; auto; now left.
        -- eapply Hle; [now left | eassumption].
        -- apply (Hle x); [now right | assumption].
    + destruct (IH cur qc Hc (fun x Hx => Hl x (or_intror Hx)))
        as [m [qm [Hm [Hqm [Hin Hle]]]]].
      exists m, qm; rewrite Hm; repeat split; [assumption | |].
      * destruct Hin as [<- | Hin]; [now left | right; now right].
      * apply Qlt_bool_false in E.
        intros x qx [<- | [<- | Hx]] Hqx.
        -- eapply Hle; [now left | eassumption].
        -- rewrite Hy in Hqx; injection Hqx as <-.
           apply (Qle_trans _ qc); [assumption | apply (Hle cur); [now left | assumption]].
        -- apply (Hle x); [now right | assumption].
Qed.

(** [min] / [max] over a list holding a number and a non-number raise:
    at the first item of the other kind, the comparison fails. *)
Lemma min_go_mixed (l : list pyval) : forall cur,
  (exists x, In x (cur :: l) /\ num_of x = None) ->
  (exists y, In y (cur :: l) /\ num_of y <> None) ->
  exists e, min_go cur l = inl e.
Proof.
  induction l as [| z r IH]; intros cur [x [Hx Nx]] [y [Hy Ny]].
  - destruct Hx as [<- | []], Hy as [<- | []]; congruence.
  - cbn [min_go]; destruct (py_lt z cur) as [e | b] eqn:E; [now exists e |].
    pose proof (py_lt_ok_same_kind _ _ _ E) as Hk; cbn.
    apply IH.
    + destruct Hx as [<- | [<- | Hx]].
      * exists (if b then z else cur); split; [now left | destruct b; tauto].
      * exists (if b then z else cur); split; [now left | destruct b; tauto].
      * exists x; split; [now right | assumption].
    + destruct Hy as [<- | [<- | Hy]].
      * exists (if b then z else cur); split; [now left | destruct b; tauto].
      * exists (if b then z else cur); split; [now left | destruct b; tauto].
      * exists y; split; [now right | assumption].
Qed.

Lemma forallb_is_int_no_float (l : list pyval) :
  forallb is_int l = true -> existsb is_float l = false.
Proof.
  induction l as [| x r IH]; [reflexivity |].
  cbn; intros H; apply andb_prop in H as [Hx Hr]; rewrite IH by exact Hr.
  destruct x; try discriminate; reflexivity.
Qed.

Lemma forallb_is_int_in (l : list pyval) (x : pyval) :
  forallb is_int l = true -> In x l -> exists z, int_of x = Some z.
Proof.
  intros Hl Hx; rewrite forallb_forall in Hl; specialize (Hl x Hx).
  destruct x; try discriminate; eexists; reflexivity.
Qed.

Lemma existsb_is_float_num (l : list pyval) :
  existsb is_float l = true -> exists y, In y l /\ num_of y <> None.
Proof.
  rewrite existsb_exists; intros [y [Hy Hf]]; exists y; split; [assumption |].
  destruct y; try discriminate; simpl; discriminate.
Qed.

Lemma forallb_is_int_false (l : list pyval) (x : pyval) :
  In x l -> num_of x = None -> forallb is_int l = false.
Proof.
  intros Hx Nx; apply not_true_iff_false; rewrite forallb_forall; intros H.
  specialize (H x Hx); destruct x; discriminate.
Qed.

Section RangeProperties.
Context {G : Type} `{PyRandomValid G}.

(** C9.  [random_min_max] returns a non-list argument unchanged without
    drawing; on a non-empty list of numbers holding a float it returns
    [uniform(lo, hi)] = [lo + (hi - lo) * random()], a float in [[lo, hi]],
    where [lo] and [hi] are the least and greatest items; on a non-empty
    list of integers it returns [randint(lo, hi)] = [lo + _randbelow(hi + 1 - lo)],
    an integer in [[lo, hi]]; and a list holding a non-number makes it
    raise (the [ValueError] of the source, or the [TypeError] of [min]
    comparing a float with a non-number). *)
Theorem random_min_max_spec (a : Auto) (g : G) :
  (forall v, is_list v = false -> runStateT (random_min_max v) (a, g) = inr (v, (a, g))) /\
  (forall l, l <> [] -> (forall x, In x l -> num_of x <> None) -> existsb is_float l = true ->
     exists lo hi qlo qhi,
       In lo l /\ In hi l /\ num_of lo = Some qlo /\ num_of hi = Some qhi /\
       (forall x qx, In x l -> num_of x = Some qx -> qlo <= qx <= qhi) /\
       runStateT (random_min_max (PList l)) (a, g) =
         inr (PFloat (qlo + (qhi - qlo) * fst (random g)), (a, snd (random g))) /\
       qlo <= qlo + (qhi - qlo) * fst (random g) <= qhi) /\
  (forall l, l <> [] -> forallb is_int l = true ->
     exists lo hi zlo zhi,
       In lo l /\ In hi l /\ int_of lo = Some zlo /\ int_of hi = Some zhi /\
       (forall x zx, In x l -> int_of x = Some zx -> (zlo <= zx <= zhi)%Z) /\
       runStateT (random_min_max (PList l)) (a, g) =
         inr (PInt (zlo + fst (randbelow (zhi + 1 - zlo) g)),
              (a, snd (randbelow (zhi + 1 - zlo) g))) /\
       (zlo <= zlo + fst (randbelow (zhi + 1 - zlo) g) <= zhi)%Z) /\
  (forall l, (exists x, In x l /\ num_of x = None) ->
     exists e, runStateT (random_min_max (PList l)) (a, g) = inl e).
Proof.
  split; [| split; [| split]].
  - intros v Hv; destruct v; try discriminate; reflexivity.
  - intros [| x r] Hne Hnum Hf; [congruence |].
    destruct (num_of x) as [qx |] eqn:Hx; [| exfalso; apply (Hnum x); [now left | assumption]].
    destruct (min_go_num r x qx Hx (fun y Hy => Hnum y (or_intror Hy)))
      as [lo [qlo [Hlo [Nlo [Ilo Mlo]]]]].
    destruct (max_go_num r x qx Hx (fun y Hy => Hnum y (or_intror Hy)))
      as [hi [qhi [Hhi [Nhi [Ihi Mhi]]]]].
    assert (Hb : forall y qy, In y (x :: r) -> num_of y = Some qy -> qlo <= qy <= qhi)
      by (intros y qy Hy Ny; split; [apply (Mlo y) | apply (Mhi y)]; assumption).
    exists lo, hi, qlo, qhi.
    refine (conj Ilo (conj Ihi (conj Nlo (conj Nhi (conj Hb (conj _ (conj _ _))))))).
    + unfold random_min_max; cbv beta iota; rewrite Hf; cbn [py_min py_max].
      cbn; rewrite Hlo; cbn; rewrite Hhi; cbn; rewrite Nlo, Nhi; cbn.
      destruct (random g) as [u g']; reflexivity.
    + destruct (random_range g) as [Hu0 _].
      rewrite <- (Qplus_0_r qlo) at 1; apply Qplus_le_r.
      apply Qmult_le_0_compat; [| assumption].
      pose proof (Hb lo qlo Ilo Nlo) as [_ Hlh]; exact (proj1 (Qle_minus_iff qlo qhi) Hlh).
    + destruct (random_range g) as [_ Hu1].
      pose proof (Hb lo qlo Ilo Nlo) as [_ Hlh].
      assert (Hd : (qhi - qlo) * fst (random g) <= qhi - qlo).
      { rewrite <- (Qmult_1_r (qhi - qlo)) at 2.
        pose proof (proj1 (Qle_minus_iff qlo qhi) Hlh) as Hd0.
        apply Qmult_le_compat_nonneg; split; try assumption; try apply Qle_refl.
        - destruct (random_range g); assumption.
        - apply Qlt_le_weak; assumption. }
      apply (proj2 (Qplus_le_r _ _ qlo)) in Hd.
      setoid_replace (qlo + (qhi - qlo)) with qhi in Hd by ring; exact Hd.
  - intros [| x r] Hne Hint; [congruence |].
    assert (Hnum : forall y, In y (x :: r) -> num_of y <> None).
    { intros y Hy; destruct (forallb_is_int_in _ y Hint Hy) as [z Hz];
      rewrite (num_of_int _ _ Hz); discriminate. }
    destruct (forallb_is_int_in _ x Hint (or_introl eq_refl)) as [zx Hzx].
    pose proof (num_of_int _ _ Hzx) as Hx.
    destruct (min_go_num r x _ Hx (fun y Hy => Hnum y (or_intror Hy)))
      as [lo [qlo [Hlo [Nlo [Ilo Mlo]]]]].
    destruct (max_go_num r x _ Hx (fun y Hy => Hnum y (or_intror Hy)))
      as [hi [qhi [Hhi [Nhi [Ihi Mhi]]]]].
    destruct (forallb_is_int_in _ lo Hint Ilo) as [zlo Zlo].
    destruct (forallb_is_int_in _ hi Hint Ihi) as [zhi Zhi].
    rewrite (num_of_int _ _ Zlo) in Nlo; injection Nlo as <-.
    rewrite (num_of_int _ _ Zhi) in Nhi; injection Nhi as <-.
    assert (Hb : forall y zy, In y (x :: r) -> int_of y = Some zy -> (zlo <= zy <= zhi)%Z).
    { intros y zy Hy Zy; pose proof (num_of_int _ _ Zy) as Ny.
      split; rewrite Zle_Qle; [apply (Mlo y) | apply (Mhi y)]; assumption. }
    assert (Hlh : (zlo <= zhi)%Z) by (apply (Hb lo); assumption).
    pose proof (randbelow_range (zhi + 1 - zlo) g ltac:(lia)) as Hj.
    exists lo, hi, zlo, zhi.
    refine (conj Ilo (conj Ihi (conj Zlo (conj Zhi (conj Hb (conj _ (conj _ _))))))); [| lia | lia].
    unfold random_min_max; cbv beta iota; rewrite (forallb_is_int_no_float _ Hint), Hint.
    cbn [py_min py_max]; cbn; rewrite Hlo; cbn; rewrite Hhi; cbn; rewrite Zlo, Zhi.
    unfold randint; cbn -[Z.add Z.sub Z.leb].
    replace ((zhi + 1 - zlo <=? 0)%Z) with false by lia.
    cbn; destruct (randbelow (zhi + 1 - zlo) g) as [j g']; reflexivity.
  - intros l [x [Hx Nx]].
    unfold random_min_max; destruct (existsb is_float l) eqn:Hf.
    + destruct l as [| y r]; [destruct Hx |].
      destruct (existsb_is_float_num _ Hf) as [z [Hz Nz]].
      destruct (min_go_mixed r y (ex_intro _ x (conj Hx Nx)) (ex_intro _ z (conj Hz Nz)))
        as [e He].
      exists e; cbn [py_min]; cbn; rewrite He; reflexivity.
    + rewrite (forallb_is_int_false l x Hx Nx); exists ValueError; reflexivity.
Qed.

End RangeProperties.

Lemma random_min_max_spec_witness :
  runStateT (random_min_max (PInt 3))
    (auto_with (PDict []) (PDict []) PNone, mkDraws [1#2] [0%Z]) =
    inr (PInt 3, (auto_with (PDict []) (PDict []) PNone, mkDraws [1#2] [0%Z])) /\
  exists e, runStateT (random_min_max (PList [PFloat 0; PStr "a"]))
              (auto_with (PDict []) (PDict []) PNone, mkDraws [1#2] [0%Z]) = inl e.
Proof.
  destruct (random_min_max_spec (G := Draws) (auto_with (PDict []) (PDict []) PNone)
              (mkDraws [1#2] [0%Z])) as [H1 [_ [_ H4]]].
  split.
  - apply H1; reflexivity.
  - apply H4; exists (PStr "a"); split; [right; left; reflexivity | reflexivity].
Defined.

(** ** The snapshot loop of [_clean_weight_lora] *)

Lemma bind_ret_res {A B : Type} (x : A) (f : A -> res B) : bind (ret x) f = f x.
Proof. reflexivity. Qed.

Lemma bind_inr_res {A B : Type} (x : A) (f : A -> res B) : bind (inr x : res A) f = f x.
Proof. reflexivity. Qed.

Lemma bind_inl_res {A B : Type} (e : exn) (f : A -> res B) : bind (inl e : res A) f = inl e.
Proof. reflexivity. Qed.

Lemma py_eq_str_l (s : string) (x : pyval) : py_eq (PStr s) x = true -> x = PStr s.
Proof.
  destruct x; simpl; try discriminate; intros E; apply String.eqb_eq in E; now subst.
Qed.

Lemma dlookup_dset_str_other (d : pydict) (s t : string) (v : pyval) :
  String.eqb t s = false -> dlookup (dset d (PStr s) v) (PStr t) = dlookup d (PStr t).
Proof.
  intros Hts; induction d as [| [k' v'] r IH]; cbn [dset dlookup].
  - change (py_eq (PStr t) (PStr s)) with (String.eqb t s); now rewrite Hts.
  - destruct (py_eq (PStr s) k') eqn:E.
    + apply py_eq_str_l in E; subst k'; cbn [dlookup].
      change (py_eq (PStr t) (PStr s)) with (String.eqb t s); now rewrite Hts.
    + cbn [dlookup]; destruct (py_eq (PStr t) k'); [reflexivity | exact IH].
Qed.

Lemma dset_dset_same (d : pydict) (k v : pyval) :
  py_eq k k = true -> dset (dset d k v) k v = dset d k v.
Proof.
  intros Hk; induction d as [| [k' v'] r IH]; cbn [dset].
  - now rewrite Hk.
  - destruct (py_eq k k') eqn:E; cbn [dset]; rewrite E; [reflexivity | now rewrite IH].
Qed.

Lemma dlookup_app_skip (out l : pydict) (k : pyval) :
  (forall k', In k' (map fst out) -> py_eq k k' = false) -> dlookup (out ++ l) k = dlookup l k.
Proof.
  induction out as [| [k' v'] r IH]; intros Hout; [reflexivity |].
  cbn [app dlookup]; rewrite (Hout k' (or_introl eq_refl)).
  apply IH; intros k'' Hk''; apply Hout; now right.
Qed.

Lemma dpop_app_skip (out l : pydict) (k : pyval) :
  (forall k', In k' (map fst out) -> py_eq k k' = false) -> dpop (out ++ l) k = out ++ dpop l k.
Proof.
  induction out as [| [k' v'] r IH]; intros Hout; [reflexivity |].
  cbn [app dpop]; rewrite (Hout k' (or_introl eq_refl)).
  f_equal; apply IH; intros k'' Hk''; apply Hout; now right.
Qed.

Lemma dset_app_skip (out l : pydict) (k v : pyval) :
  (forall k', In k' (map fst out) -> py_eq k k' = false) -> dset (out ++ l) k v = out ++ dset l k v.
Proof.
  induction out as [| [k' v'] r IH]; intros Hout; [reflexivity |].
  cbn [app dset]; rewrite (Hout k' (or_introl eq_refl)).
  f_equal; apply IH; intros k'' Hk''; apply Hout; now right.
Qed.

(** On a dict with unique keys, visiting a snapshot while popping or
    rebinding the visited key keeps exactly the entries the body keeps. *)
Lemma visit_items_kept (body : pyval -> pyval -> res (option pyval)) (snap : pydict) :
  forall out, keys_unique snap = true ->
  (forall k' k, In k' (map fst out) -> In k (map fst snap) -> py_eq k k' = false) ->
  visit_items body snap (out ++ snap) =
  match kept_items body snap with inl e => inl e | inr fm => inr (out ++ fm) end.
Proof.
  induction snap as [| [k v] rest IH]; intros out Hu Hout.
  - cbn; now rewrite app_nil_r.
  - cbn [keys_unique] in Hu; apply andb_prop in Hu as [Hu Hr]; apply andb_prop in Hu as [Hh Hf].
    assert (Hk : forall k', In k' (map fst out) -> py_eq k k' = false)
      by (intros k' Hk'; apply (Hout k' k Hk'); now left).
    assert (Hrest : forall k' k0, In k' (map fst out) -> In k0 (map fst rest) -> py_eq k0 k' = false)
      by (intros k' k0 Hk' Hk0; apply (Hout k' k0 Hk'); now right).
    cbn [visit_items kept_items].
    destruct (body k v) as [e | [v' |]]; [reflexivity | |].
    + change (bind (inr (Some v')) ?f) with (f (Some v')); cbv beta iota.
      unfold dict_setitem; rewrite Hh.
      change (bind (inr (dset (out ++ (k, v) :: rest) k v')) ?f)
        with (f (dset (out ++ (k, v) :: rest) k v')); cbv beta.
      rewrite dset_app_skip by exact Hk; cbn [dset]; rewrite (py_eq_refl_hashable k Hh).
      replace (out ++ (k, v') :: rest) with ((out ++ [(k, v')]) ++ rest)
        by now rewrite <- app_assoc.
      rewrite bind_ret_res, IH; [| exact Hr |].
      * destruct (kept_items body rest) as [e | fm]; [reflexivity |].
        cbn; now rewrite <- app_assoc.
      * intros k' k0 Hk' Hk0; rewrite map_app, in_app_iff in Hk'.
        destruct Hk' as [Hk' | [<- | []]]; [now apply Hrest |].
        rewrite forallb_forall in Hf; apply in_map_iff in Hk0 as [[k1 v1] [<- Hin]].
        specialize (Hf _ Hin); cbn in Hf; now apply negb_true_iff in Hf.
    + change (bind (inr None) ?f) with (f None); cbv beta iota.
      unfold pop_key; rewrite dlookup_app_skip by exact Hk; cbn [dlookup].
      rewrite (py_eq_refl_hashable k Hh).
      change (bind (inr (dpop (out ++ (k, v) :: rest) k)) ?f)
        with (f (dpop (out ++ (k, v) :: rest) k)); cbv beta.
      rewrite dpop_app_skip by exact Hk; cbn [dpop]; rewrite (py_eq_refl_hashable k Hh).
      rewrite bind_ret_res, (IH out) by assumption.
      destruct (kept_items body rest) as [e | fm]; reflexivity.
Qed.
Lemma filter_res_idem {A : Type} (f : A -> res bool) (l l' : list A) :
  filter_res f l = inr l' -> filter_res f l' = inr l'.
Proof.
  revert l'; induction l as [| x r IH]; intros l'; cbn [filter_res].
  - intros H; injection H as <-; reflexivity.
  - destruct (f x) as [e | b] eqn:Hx; [discriminate |]; rewrite bind_inr_res.
    destruct (filter_res f r) as [e | r'] eqn:Hr; [discriminate |]; rewrite bind_inr_res.
    intros H; injection H as <-.
    destruct b; cbn [filter_res]; [rewrite Hx, bind_inr_res |]; rewrite (IH r' eq_refl);
      reflexivity.
Qed.

Lemma filter_loras_idem (names loras lt : pyval) :
  filter_loras names loras = inr lt -> filter_loras names lt = inr lt.
Proof.
  destruct loras as [| | | | s | l | d]; cbn [filter_loras];
    try (intros H; injection H as <-; reflexivity).
  - destruct (py_contains names (PStr s)) as [e | b] eqn:Hc; [discriminate |].
    rewrite bind_inr_res; intros H; injection H as <-.
    destruct b; cbn [filter_loras]; [rewrite Hc |]; reflexivity.
  - destruct (filter_res _ l) as [e | l'] eqn:Hl; [discriminate |].
    rewrite bind_inr_res; intros H; injection H as <-; cbn [filter_loras].
    now rewrite (filter_res_idem _ _ _ Hl).
  - destruct (filter_res _ d) as [e | d'] eqn:Hd; [discriminate |].
    rewrite bind_inr_res; intros H; injection H as <-; cbn [filter_loras].
    now rewrite (filter_res_idem _ _ _ Hd).
Qed.

Lemma clean_candidate_stable (names k2 v2 v2' : pyval) :
  clean_candidate names k2 v2 = inr (Some v2') -> clean_candidate names k2 v2' = inr (Some v2').
Proof.
  unfold clean_candidate.
  destruct v2 as [| | | | | | d]; try discriminate.
  cbn [py_get hashable]; rewrite ?bind_ret_res.
  set (w := match dlookup d (PStr "weight") with Some v => v | None => PNone end).
  set (p := match dlookup d (PStr "per") with Some v => v | None => PNone end).
  destruct (negb (truthy w) && negb (truthy p)) eqn:Hwp; [discriminate |].
  cbv beta iota.
  destruct (filter_loras names _) as [e | lt] eqn:Hf; [discriminate |].
  rewrite bind_inr_res.
  destruct (negb (truthy lt)) eqn:Ht; [discriminate |].
  cbv beta iota; cbn [py_setitem hashable]; rewrite ?bind_ret_res; intros H; injection H as <-.
  cbn [py_get hashable]; rewrite ?bind_ret_res.
  rewrite !dlookup_dset_str_other by reflexivity; fold w p; rewrite Hwp; cbv beta iota; rewrite ?bind_ret_res.
  rewrite dlookup_dset_same by reflexivity.
  rewrite (filter_loras_idem _ _ _ Hf), bind_inr_res, Ht; cbv beta iota.
  cbn [py_setitem hashable]; rewrite ?bind_ret_res, dset_dset_same by reflexivity.
  reflexivity.
Qed.
Lemma kept_items_keys (body : pyval -> pyval -> res (option pyval)) (snap fm : pydict) :
  kept_items body snap = inr fm -> forall k, In k (map fst fm) -> In k (map fst snap).
Proof.
  revert fm; induction snap as [| [k v] rest IH]; intros fm; cbn [kept_items].
  - intros H; injection H as <-; intros k [].
  - destruct (body k v) as [e | o]; [discriminate |]; rewrite bind_inr_res.
    destruct (kept_items body rest) as [e | r] eqn:Hr; [discriminate |]; rewrite bind_inr_res.
    intros H; injection H as <-; intros k0 Hk0.
    destruct o as [v' |]; [destruct Hk0 as [<- | Hk0]; [now left |] |];
      right; exact (IH r eq_refl k0 Hk0).
Qed.

Lemma kept_items_unique (body : pyval -> pyval -> res (option pyval)) (snap fm : pydict) :
  kept_items body snap = inr fm -> keys_unique snap = true -> keys_unique fm = true.
Proof.
  revert fm; induction snap as [| [k v] rest IH]; intros fm; cbn [kept_items].
  - intros H; injection H as <-; reflexivity.
  - destruct (body k v) as [e | o]; [discriminate |]; rewrite bind_inr_res.
    destruct (kept_items body rest) as [e | r] eqn:Hr; [discriminate |]; rewrite bind_inr_res.
    intros H; injection H as <-; cbn [keys_unique].
    intros Hu; apply andb_prop in Hu as [Hu Hru]; apply andb_prop in Hu as [Hh Hf].
    destruct o as [v' |]; [| exact (IH r eq_refl Hru)].
    cbn [keys_unique]; rewrite Hh, (IH r eq_refl Hru); cbn.
    rewrite andb_true_r; rewrite forallb_forall in Hf |- *.
    intros [k0 v0] Hin; cbn.
    assert (Hk0 : In k0 (map fst rest))
      by (apply (kept_items_keys body rest r Hr); apply in_map_iff; now exists (k0, v0)).
    apply in_map_iff in Hk0 as [[k1 v1] [Heq Hin1]]; cbn in Heq; subst k1.
    exact (Hf _ Hin1).
Qed.

(** A body that keeps its own output, on values satisfying [P], makes
    the kept entries a fixed point. *)
Lemma kept_items_stable (P : pyval -> Prop) (body : pyval -> pyval -> res (option pyval))
    (Hstable : forall k v v', P v -> body k v = inr (Some v') -> P v' /\ body k v' = inr (Some v'))
    (snap fm : pydict) :
  (forall kv, In kv snap -> P (snd kv)) -> kept_items body snap = inr fm ->
  (forall kv, In kv fm -> P (snd kv)) /\ kept_items body fm = inr fm.
Proof.
  revert fm; induction snap as [| [k v] rest IH]; intros fm HP; cbn [kept_items].
  - intros H; injection H as <-; split; [intros kv [] | reflexivity].
  - destruct (body k v) as [e | o] eqn:Hb; [discriminate |]; rewrite bind_inr_res.
    destruct (kept_items body rest) as [e | r] eqn:Hr; [discriminate |]; rewrite bind_inr_res.
    intros H; injection H as <-.
    destruct (IH r (fun kv Hkv => HP kv (or_intror Hkv)) eq_refl) as [HPr Hfix].
    destruct o as [v' |]; [| now split].
    destruct (Hstable k v v' (HP (k, v) (or_introl eq_refl)) Hb) as [HPv' Hb'].
    split.
    + intros kv [<- | Hkv]; [exact HPv' | exact (HPr kv Hkv)].
    + cbn [kept_items]; rewrite Hb', bind_inr_res, Hfix, bind_inr_res; reflexivity.
Qed.

Lemma visit_items_kept_all (body : pyval -> pyval -> res (option pyval)) (snap : pydict) :
  keys_unique snap = true ->
  visit_items body snap snap = kept_items body snap.
Proof.
  intros Hu; change (visit_items body snap snap) with (visit_items body snap ([] ++ snap)).
  rewrite (visit_items_kept body snap [] Hu) by (intros k' k []).
  now destruct (kept_items body snap).
Qed.

Lemma clean_rule_stable (names k1 v1 v1' : pyval) :
  dic_wf v1 = true -> clean_rule names k1 v1 = inr (Some v1') ->
  dic_wf v1' = true /\ clean_rule names k1 v1' = inr (Some v1').
Proof.
  destruct v1 as [| | | | | | d];
    try (cbn; intros HP H; injection H as <-; split; [exact HP | reflexivity]).
  intros HP; unfold clean_rule; cbn [is_dict negb py_get hashable]; cbv beta iota.
  rewrite ?bind_ret_res; cbn [dic_wf] in HP.
  destruct (dlookup d (PStr "dic")) as [[| | | | | | e] |] eqn:Hdic; try discriminate.
  rewrite ?bind_ret_res, (visit_items_kept_all _ _ HP).
  destruct (kept_items (clean_candidate names) e) as [err | fm] eqn:Hk; [discriminate |].
  rewrite bind_inr_res.
  destruct (negb (truthy (PDict fm))) eqn:Ht; [discriminate |].
  cbv beta iota; cbn [py_setitem hashable]; rewrite ?bind_ret_res.
  intros H; injection H as <-.
  assert (Hfm : keys_unique fm = true) by exact (kept_items_unique _ _ _ Hk HP).
  assert (Hfix : kept_items (clean_candidate names) fm = inr fm).
  { refine (proj2 (kept_items_stable (fun _ => True) (clean_candidate names) _ e fm _ Hk)).
    - intros k v v' _ Hb; split; [exact I | exact (clean_candidate_stable _ _ _ _ Hb)].
    - intros; exact I. }
  split.
  + cbn [dic_wf]; rewrite dlookup_dset_same by reflexivity; exact Hfm.
  + cbn [is_dict negb py_get hashable]; cbv beta iota; rewrite ?bind_ret_res.
    rewrite dlookup_dset_same by reflexivity; rewrite ?bind_ret_res.
    rewrite (visit_items_kept_all _ _ Hfm), Hfix, bind_inr_res, Ht; cbv beta iota.
    cbn [py_setitem hashable]; rewrite ?bind_ret_res, dset_dset_same by reflexivity.
    reflexivity.
Qed.

(** C7.  The pruning pass of [_clean_weight_lora] is idempotent: on a
    [WeightLora] table whose dicts are Python dicts (unique keys), when
    the pass succeeds, running it again on its output with the same
    asset-name list returns that output unchanged. *)
Theorem clean_weight_lora_idempotent (lora_file_names weight_lora weight_lora' : pyval)
  (Hwf : rules_wf weight_lora = true)
  (Hc : clean_weight_lora lora_file_names weight_lora = inr weight_lora') :
  clean_weight_lora lora_file_names weight_lora' = inr weight_lora'.
Proof.
  unfold clean_weight_lora in *.
  destruct (truthy weight_lora) eqn:Htw; cbn [negb] in Hc; cbv beta iota in Hc.
  - destruct weight_lora as [| | | | | | d]; try discriminate.
    cbn [rules_wf] in Hwf; apply andb_prop in Hwf as [Hu Hall].
    rewrite (visit_items_kept_all _ _ Hu) in Hc.
    destruct (kept_items (clean_rule lora_file_names) d) as [e | fm] eqn:Hk; [discriminate |].
    rewrite bind_inr_res in Hc; injection Hc as <-.
    destruct (truthy (PDict fm)) eqn:Ht; cbn [negb]; cbv beta iota; [| reflexivity].
    assert (Hfm : keys_unique fm = true) by exact (kept_items_unique _ _ _ Hk Hu).
    rewrite (visit_items_kept_all _ _ Hfm).
    refine (f_equal (fun r => bind r (fun wl' => ret (PDict wl')))
              (proj2 (kept_items_stable (fun v => dic_wf v = true)
                        (clean_rule lora_file_names) _ d fm _ Hk))).
    + intros k v v' HP Hb; exact (clean_rule_stable _ _ _ _ HP Hb).
    + rewrite forallb_forall in Hall; intros kv Hkv; exact (Hall kv Hkv).
  - injection Hc as <-; rewrite Htw; reflexivity.
Qed.

Lemma clean_weight_lora_idempotent_witness :
  rules_wf (PDict [(PStr "r", PDict [(PStr "dic", PDict
     [(PStr "c1", PDict [(PStr "weight", PInt 1);
                         (PStr "loras", PDict [(PStr "la", PInt 1); (PStr "zz", PInt 1)])]);
      (PStr "c2", PDict [(PStr "per", PInt 0)])])])]) = true /\
  clean_weight_lora (PList [PStr "la"])
    (PDict [(PStr "r", PDict [(PStr "dic", PDict
       [(PStr "c1", PDict [(PStr "weight", PInt 1); (PStr "loras", PDict [(PStr "la", PInt 1)])])])])])
  = inr (PDict [(PStr "r", PDict [(PStr "dic", PDict
       [(PStr "c1", PDict [(PStr "weight", PInt 1); (PStr "loras", PDict [(PStr "la", PInt 1)])])])])]).
Proof.
  split; [reflexivity |].
  apply (clean_weight_lora_idempotent (PList [PStr "la"])
           (PDict [(PStr "r", PDict [(PStr "dic", PDict
              [(PStr "c1", PDict [(PStr "weight", PInt 1);
                                  (PStr "loras", PDict [(PStr "la", PInt 1); (PStr "zz", PInt 1)])]);
               (PStr "c2", PDict [(PStr "per", PInt 0)])])])])); reflexivity.
Defined.

(** *** Catalog views *)

Lemma smem_In (x : string) (l : list string) : smem x l = true <-> In x l.
Proof.
  unfold smem; rewrite existsb_exists; split.
  - intros [y [Hy Hxy]]; apply String.eqb_eq in Hxy; subst; exact Hy.
  - intros Hx; exists x; split; [exact Hx | apply String.eqb_refl].
Qed.

Lemma smem_false_count (x : string) (l : list string) :
  smem x l = false -> (count_occ string_dec l x = 0)%nat.
Proof.
  intros H; apply count_occ_not_In; intros Hin; apply smem_In in Hin; congruence.
Qed.

Lemma count_occ_app_one (x : string) (l : list string) :
  (count_occ string_dec l x = 0 -> count_occ string_dec (l ++ [x]) x = 1)%nat.
Proof.
  intros H; rewrite count_occ_app, H; cbn; destruct (string_dec x x); [reflexivity | congruence].
Qed.

Lemma map_fst_sset (d : list (string * string)) (k v : string) :
  map fst (sset d k v) = if smem k (map fst d) then map fst d else map fst d ++ [k].
Proof.
  induction d as [| [k' v'] r IH]; cbn; [reflexivity |].
  unfold smem in *; cbn.
  destruct (String.eqb k k') eqn:E; cbn; [reflexivity |].
  rewrite IH; destruct (existsb (String.eqb k) (map fst r)); reflexivity.
Qed.

Lemma sset_In (d : list (string * string)) (k v : string) : In (k, v) (sset d k v).
Proof.
  induction d as [| [k' v'] r IH]; cbn; [left; reflexivity |].
  destruct (String.eqb k k') eqn:E; [apply String.eqb_eq in E; subst; left; reflexivity |].
  right; exact IH.
Qed.

Lemma sset_sset (d : list (string * string)) (k v : string) : sset (sset d k v) k v = sset d k v.
Proof.
  induction d as [| [k' v'] r IH]; cbn.
  - rewrite String.eqb_refl; reflexivity.
  - destruct (String.eqb k k') eqn:E; cbn; rewrite E; [reflexivity | rewrite IH; reflexivity].
Qed.

Lemma smem_app_self (x : string) (l : list string) : smem x (l ++ [x]) = true.
Proof. apply smem_In, in_or_app; right; left; reflexivity. Qed.

Lemma count_after_upsert (x : string) (l : list string) :
  (count_occ string_dec l x <= 1)%nat ->
  (count_occ string_dec (if smem x l then l else l ++ [x]) x = 1)%nat.
Proof.
  intros H; destruct (smem x l) eqn:E.
  - apply smem_In, (count_occ_In string_dec) in E; lia.
  - apply count_occ_app_one, smem_false_count, E.
Qed.

Lemma smem_upsert (x : string) (l : list string) :
  smem x (if smem x l then l else l ++ [x]) = true.
Proof. destruct (smem x l) eqn:E; [exact E | apply smem_app_self]. Qed.

(** Re-applying the same [created] event is a no-op: the second
    [update_safetensors] returns the views of the first.  After it the map
    binds the asset's name to its path, and the path and the name are in
    their lists; each occurs exactly once in a view where it occurred at
    most once before the event. *)
Theorem update_safetensors_created_idempotent (v : Views) (rpath : string) :
  let v1 := update_safetensors v rpath "created"%string in
  update_safetensors v1 rpath "created"%string = v1 /\
  In (path_stem rpath, rpath) (file_dics v1) /\
  In rpath (file_lists v1) /\ In (path_stem rpath) (file_names v1) /\
  (count_occ string_dec (map fst (file_dics v)) (path_stem rpath) <= 1 ->
   count_occ string_dec (map fst (file_dics v1)) (path_stem rpath) = 1)%nat /\
  (count_occ string_dec (file_lists v) rpath <= 1 ->
   count_occ string_dec (file_lists v1) rpath = 1)%nat /\
  (count_occ string_dec (file_names v) (path_stem rpath) <= 1 ->
   count_occ string_dec (file_names v1) (path_stem rpath) = 1)%nat.
Proof.
  destruct v as [d l n]; unfold update_safetensors; cbn zeta.
  change (smem "created" ["deleted"; "modified"]%string) with false.
  change (smem "created" ["created"; "modified"]%string) with true.
  cbv beta iota; cbn [file_dics file_lists file_names].
  rewrite !smem_upsert, sset_sset.
  refine (conj eq_refl (conj (sset_In _ _ _) (conj _ (conj _ (conj _ (conj _ _)))))).
  - apply smem_In, smem_upsert.
  - apply smem_In, smem_upsert.
  - rewrite map_fst_sset; apply count_after_upsert.
  - apply count_after_upsert.
  - apply count_after_upsert.
Qed.

Lemma update_safetensors_created_idempotent_witness :
  let v1 := update_safetensors (get_file_dict_list ["X/a/m.safetensors"]%string)
              "X/m.safetensors" "created" in
  update_safetensors v1 "X/m.safetensors" "created" = v1.
Proof.
  exact (proj1 (update_safetensors_created_idempotent
                  (get_file_dict_list ["X/a/m.safetensors"]%string) "X/m.safetensors")).
Defined.

(** C5.  After a scan of type folder [X] that found [X/a/m.safetensors]
    and [X/b/m.safetensors] ([rglob] is recursive), applying the
    [created] event of [X/m.safetensors] twice leaves the name list with
    [m] twice: the [not in] guard of [update_safetensors] keeps it from
    adding a third copy but cannot remove the duplicate the scan put
    there. *)
Lemma update_safetensors_created_twice_dup_scan :
  let v0 := get_file_dict_list ["X/a/m.safetensors"; "X/b/m.safetensors"]%string in
  let v1 := update_safetensors v0 "X/m.safetensors" "created" in
  let v2 := update_safetensors v1 "X/m.safetensors" "created" in
  v2 = v1 /\ file_names v2 = ["m"; "m"]%string /\
  count_occ string_dec (file_names v2) "m"%string = 2%nat /\
  file_dics v2 = [("m", "X/m.safetensors")]%string.
Proof. vm_compute. repeat split. Qed.

Lemma map_fst_spop (d : list (string * string)) (k : string) :
  map fst (spop d k) = list_remove (map fst d) k.
Proof.
  induction d as [| [k' v'] r IH]; cbn; [reflexivity |].
  destruct (String.eqb k k'); cbn; [reflexivity | rewrite IH; reflexivity].
Qed.

Lemma list_remove_In (l : list string) (x y : string) :
  NoDup l -> In y (list_remove l x) <-> In y l /\ y <> x.
Proof.
  induction l as [| z r IH]; cbn; intros Hn; [tauto |].
  inversion Hn as [| ? ? Hz Hr]; subst.
  destruct (String.eqb x z) eqn:E.
  - apply String.eqb_eq in E; subst; split.
    + intros Hy; split; [right; exact Hy | intros ->; exact (Hz Hy)].
    + intros [[-> | Hy] Hne]; [congruence | exact Hy].
  - apply String.eqb_neq in E; cbn; rewrite (IH Hr); split.
    + intros [-> | [Hy Hne]]; [split; [left; reflexivity | congruence] | tauto].
    + intros [[-> | Hy] Hne]; [left; reflexivity | right; tauto].
Qed.

Lemma list_remove_NoDup (l : list string) (x : string) : NoDup l -> NoDup (list_remove l x).
Proof.
  induction l as [| z r IH]; cbn; intros Hn; [constructor |].
  inversion Hn as [| ? ? Hz Hr]; subst.
  destruct (String.eqb x z); [exact Hr |].
  constructor; [rewrite (list_remove_In _ _ _ Hr); tauto | exact (IH Hr)].
Qed.

Lemma upsert_NoDup (l : list string) (x : string) :
  NoDup l -> NoDup (if smem x l then l else l ++ [x]).
Proof.
  intros Hn; destruct (smem x l) eqn:E; [exact Hn |].
  apply NoDup_app; [exact Hn | constructor; [intros [] | constructor] |].
  intros y Hy [<- | []]; apply smem_In in Hy; congruence.
Qed.

Lemma upsert_In (l : list string) (x y : string) :
  In y (if smem x l then l else l ++ [x]) <-> In y l \/ y = x.
Proof.
  destruct (smem x l) eqn:E.
  - apply smem_In in E; split; [tauto | intros [H | ->]; [exact H | exact E]].
  - rewrite in_app_iff; cbn; split; intros [H | H]; try tauto.
    + destruct H as [-> | []]; tauto.
    + right; left; symmetry; exact H.
Qed.

Lemma remove_if_present (l : list string) (x : string) :
  (if smem x l then list_remove l x else l) = list_remove l x.
Proof.
  destruct (smem x l) eqn:E; [reflexivity |].
  induction l as [| z r IH]; cbn; [reflexivity |].
  unfold smem in E; cbn in E; apply orb_false_iff in E as [E1 E2].
  rewrite E1; f_equal; apply IH; exact E2.
Qed.

Lemma update_safetensors_inv (v : Views) (rpath event_type : string) :
  views_inv v -> views_inv (update_safetensors v rpath event_type).
Proof.
  intros Hv; unfold update_safetensors; cbn zeta.
  set (name := path_stem rpath).
  assert (Hdel : views_inv (if smem event_type ["deleted"; "modified"]%string
          then mkViews (spop (file_dics v) name)
                 (if smem rpath (file_lists v) then list_remove (file_lists v) rpath
                  else file_lists v)
                 (if smem name (file_names v) then list_remove (file_names v) name
                  else file_names v)
          else v)).
  { destruct (smem event_type _); [| exact Hv].
    destruct Hv as (Hn & Hk & Heq); unfold views_inv; cbn [file_names file_dics].
    rewrite remove_if_present, map_fst_spop.
    refine (conj (list_remove_NoDup _ _ Hn) (conj (list_remove_NoDup _ _ Hk) _)).
    intros x; rewrite (list_remove_In _ _ _ Hn), (list_remove_In _ _ _ Hk), Heq; tauto. }
  destruct (smem event_type ["created"; "modified"]%string); [| exact Hdel].
  destruct (if smem event_type _ then _ else v) as [d l n]; destruct Hdel as (Hn & Hk & Heq).
  unfold views_inv; cbn [file_names file_dics] in *.
  rewrite map_fst_sset.
  refine (conj (upsert_NoDup _ _ Hn) (conj (upsert_NoDup _ _ Hk) _)).
  intros x; rewrite !upsert_In, Heq; tauto.
Qed.

Lemma distinct_strs_NoDup (l : list string) : distinct_strs l = true -> NoDup l.
Proof.
  induction l as [| x r IH]; cbn; intros H; [constructor |].
  apply andb_prop in H as [Hx Hr]; constructor; [| exact (IH Hr)].
  intros Hin; apply smem_In in Hin; rewrite Hin in Hx; discriminate.
Qed.

Lemma map_fst_combine_map (f : string -> string) (l : list string) :
  map fst (combine (map f l) l) = map f l.
Proof. induction l as [| x r IH]; cbn; [reflexivity | rewrite IH; reflexivity]. Qed.

Lemma fold_sset_keys (ps acc : list (string * string)) :
  NoDup (map fst acc ++ map fst ps) ->
  map fst (fold_left (fun d np => sset d (fst np) (snd np)) ps acc) = map fst acc ++ map fst ps.
Proof.
  revert acc; induction ps as [| [k v] ps IH]; intros acc Hn; cbn [fold_left map fst snd].
  - rewrite app_nil_r; reflexivity.
  - assert (Hk : smem k (map fst acc) = false).
    { destruct (smem k (map fst acc)) eqn:E; [| reflexivity].
      apply smem_In in E; apply NoDup_remove_2 in Hn; exfalso; apply Hn, in_or_app; left; exact E. }
    assert (Hs : map fst (sset acc k v) = map fst acc ++ [k]) by (rewrite map_fst_sset, Hk; reflexivity).
    rewrite IH; rewrite Hs; [rewrite <- app_assoc; reflexivity |].
    rewrite <- app_assoc; exact Hn.
Qed.

Lemma get_file_dict_list_inv (files : list string) :
  distinct_strs (map path_stem files) = true -> views_inv (get_file_dict_list files).
Proof.
  intros Hd; apply distinct_strs_NoDup in Hd.
  unfold views_inv, get_file_dict_list; cbn [file_names file_dics].
  rewrite fold_sset_keys; cbn [map app]; rewrite map_fst_combine_map; [| exact Hd].
  refine (conj Hd (conj Hd _)); tauto.
Qed.

(** [update_safetensors] keeps the views' invariant: when the initial
    scan finds files with pairwise distinct stems, then after it and after
    any sequence of created/modified/deleted notifications, the flat name
    list and the keys of the name-to-path map hold no duplicate and hold
    the same names. *)
Theorem apply_events_names_unique (files : list string) (events : list (string * string))
  (Hd : distinct_strs (map path_stem files) = true) :
  let v := apply_events files events in
  NoDup (file_names v) /\ NoDup (map fst (file_dics v)) /\
  (forall x, In x (file_names v) <-> In x (map fst (file_dics v))).
Proof.
  cbn zeta; unfold apply_events.
  generalize (get_file_dict_list_inv files Hd).
  generalize (get_file_dict_list files); induction events as [| e evs IH]; intros v Hv; cbn [fold_left].
  - exact Hv.
  - apply IH, update_safetensors_inv, Hv.
Qed.

Lemma apply_events_names_unique_witness :
  distinct_strs (map path_stem ["X/a/m.safetensors"; "X/b/n.safetensors"]%string) = true /\
  NoDup (file_names (apply_events ["X/a/m.safetensors"; "X/b/n.safetensors"]%string
           [("X/c/m.safetensors", "created"); ("X/a/m.safetensors", "deleted")]%string)).
Proof.
  split; [vm_compute; reflexivity |].
  refine (proj1 (apply_events_names_unique ["X/a/m.safetensors"; "X/b/n.safetensors"]%string
           [("X/c/m.safetensors", "created"); ("X/a/m.safetensors", "deleted")]%string _)).
  vm_compute; reflexivity.
Defined.

(** C6.  [get_file_dict_list] on a type folder [X] holding
    [X/a/m.safetensors] and [X/b/m.safetensors]: the name list holds [m]
    twice, while [dict(zip(names, paths))] keeps one key bound to the last
    path, so [X/a/m.safetensors] is listed but cannot be reached by name. *)
Lemma scan_same_stem_views_disagree :
  let v := get_file_dict_list ["X/a/m.safetensors"; "X/b/m.safetensors"]%string in
  file_names v = ["m"; "m"]%string /\
  file_lists v = ["X/a/m.safetensors"; "X/b/m.safetensors"]%string /\
  file_dics v = [("m", "X/b/m.safetensors")]%string /\
  ~ NoDup (file_names v).
Proof.
  cbn zeta. split; [vm_compute; reflexivity |]. split; [reflexivity |].
  split; [vm_compute; reflexivity |].
  intros Hn. vm_compute in Hn. inversion Hn as [| ? ? Hm]. apply Hm; left; reflexivity.
Qed.

(** ** Overlay selection *)

Section WeightRule.
Context {G : Type} `{PyRandomValid G}.

(** C1 (as amended).  For every generator whose primitives stay in range,
    processing the scenario-2 rule succeeds and selects one or two distinct
    overlay names among [la], [lb], [lc]: [random.choices] draws the two
    candidates with replacement, so both draws may hit the same one. *)
Theorem weight_rule_selects_one_or_two (a : Auto) (g : G) :
  exists l st, runStateT (lora_rule scenario2_rule) (a, g) = inr (l, st) /\
    (length l = 1 \/ length l = 2)%nat /\ NoDup l /\
    incl l [PStr "la"; PStr "lb"; PStr "lc"].
Proof.
  unfold lora_rule; cbn.
  pose proof (randbelow_range 1 g ltac:(lia)) as Hj.
  destruct (randbelow 1 g) as [j g1]; cbn in Hj; assert (j = 0%Z) as -> by lia; cbn.
  change (PosDef.Pos.to_nat 2) with (S (S O)); cbn.
  repeat (match goal with
          | |- context [random ?g0] => destruct (random g0)
          | |- context [Qlt_bool ?x ?y] => destruct (Qlt_bool x y)
          end; cbn).
  all: eexists _, _; split; [reflexivity |].
  all: split; [cbn; lia |]; split;
       [repeat (constructor; [cbn; intuition discriminate |]); constructor
       | intros x Hx; cbn in Hx |- *; tauto].
Qed.

End WeightRule.

Lemma weight_rule_selects_one_or_two_witness :
  exists l st,
    runStateT (@lora_rule Draws _ scenario2_rule)
      (auto_with (PDict []) (PDict []) PNone, mkDraws [0; 9 # 10] []) = inr (l, st) /\
    (length l = 1 \/ length l = 2)%nat /\ NoDup l /\
    incl l [PStr "la"; PStr "lb"; PStr "lc"].
Proof.
  exact (weight_rule_selects_one_or_two (auto_with (PDict []) (PDict []) PNone)
           (mkDraws [0; 9 # 10] [])).
Defined.

(** C1.  Exactly two names are not guaranteed: when both draws of
    [random.choices] fall on the first candidate, the rule selects only
    [la]. *)
Lemma weight_rule_may_select_one :
  ~ (forall (g : Draws) (a : Auto) l st,
       run (lora_rule scenario2_rule) a g = inr (l, st) -> length l = 2%nat).
Proof.
  intros Hall.
  specialize (Hall (mkDraws [0; 0] []) (auto_with (PDict []) (PDict []) PNone)).
  specialize (Hall _ _ eq_refl); vm_compute in Hall; discriminate Hall.
Qed.

(** ** Weight tables at initialization *)

(** C2.  At initialization the base-model weight table is built before the
    AttributeRecords are merged: [init] calls [_get_weight_checkpoint]
    before [_get_dic_checkpoint_yml].  So the record's [weight: 5] for [m1]
    is not seen, and the table gets the default 150, although the merged
    record stored by the same [init] holds weight 5. *)
Theorem init_weight_table_skips_record_weight :
  exists td,
    init_category (PDict []) (PDict []) (PStr "X") record_weight_files true = inr td /\
    get_nested td [PStr "X"; PStr "WeightCheckpoint"; PStr "m1"] PNone = inr (PInt 150) /\
    get_nested td [PStr "X"; PStr "dicCheckpointYml"; PStr "m1"; PStr "weight"] PNone
      = inr (PInt 5).
Proof.
  eexists; split; [vm_compute; reflexivity |].
  split; vm_compute; reflexivity.
Qed.

(** ** End-to-end scenario 1 *)

Section Scenario1.
Context {G : Type} `{PyRandomValid G}.

Lemma run_seq_unit (m k : M unit) (s s' : Auto * G) :
  runStateT m s = inr (tt, s') -> runStateT (m ;; k) s = runStateT k s'.
Proof. intros Hm; cbn; rewrite Hm; reflexivity. Qed.

Ltac run_draws :=
  repeat (match goal with
          | |- context [randbelow 1 ?g0] =>
              let Hr := fresh "Hr" in let j := fresh "j" in
              pose proof (randbelow_range 1 g0 ltac:(lia)) as Hr;
              destruct (randbelow 1 g0) as [j ?]; cbn [fst] in Hr;
              assert (j = 0%Z) by lia; subst j
          | |- context [PosDef.Pos.to_nat ?p] =>
              let n := eval vm_compute in (PosDef.Pos.to_nat p) in
              change (PosDef.Pos.to_nat p) with n
          | |- context [random ?g0] => destruct (random g0)
          | |- context [Qlt_bool ?x ?y] => destruct (Qlt_bool x y)
          end; cbn).

Lemma scenario1_checkpoint (td : pyval)
  (Hinit : init scenario1_config (PDict []) [(PStr "X", scenario1_files)] true = inr td)
  (g : G) :
  exists g', runStateT checkpoint_change (auto_with scenario1_config td PNone, g) =
    inr (tt, (upd_checkpoint_path (PStr "X/m1.safetensors")
               (upd_checkpoint_name (PStr "m1")
                 (upd_checkpoint_type (PStr "X")
                   (upd_is_first false (auto_with scenario1_config td PNone)))), g')).
Proof.
  vm_compute in Hinit; injection Hinit as <-; cbn; run_draws.
  all: eexists; reflexivity.
Qed.

Lemma scenario1_char (td : pyval)
  (Hinit : init scenario1_config (PDict []) [(PStr "X", scenario1_files)] true = inr td)
  (a : Auto) (Ha : config a = scenario1_config) (Ht : type_dics a = td)
  (Hc : checkpoint_type a = PStr "X") (g : G) :
  exists g' nc nm, runStateT char_change (a, g) =
    inr (tt, (upd_char_path PNone (upd_char_name nm (upd_no_char nc a)), g')) /\
    ((nc = true /\ nm = PStr "noChar") \/ (nc = false /\ nm = PNone)).
Proof.
  vm_compute in Hinit; injection Hinit as <-.
  destruct a; cbn in Ha, Ht, Hc; subst; cbn; run_draws.
  all: eexists _, _, _; split; [reflexivity |].
  all: first [left; split; reflexivity | right; split; reflexivity].
Qed.

Lemma scenario1_lora (td : pyval)
  (Hinit : init scenario1_config (PDict []) [(PStr "X", scenario1_files)] true = inr td)
  (a : Auto) (Ha : config a = scenario1_config) (Ht : type_dics a = td)
  (Hc : checkpoint_type a = PStr "X") (g : G) :
  exists g' nl, runStateT lora_change (a, g) =
    inr (tt, (upd_no_lora nl (upd_loras_set [] (upd_tive_weight (PDict []) a)), g')).
Proof.
  vm_compute in Hinit; injection Hinit as <-.
  destruct a; cbn in Ha, Ht, Hc; subst; cbn; run_draws.
  all: eexists _, _; reflexivity.
Qed.

(** C3 (as amended).  In scenario 1, for every generator whose primitives
    stay in range, one iteration of selection succeeds and yields base model
    [m1], no character file ([char_path] is [None]) and an empty overlay
    set.  The character name is the sentinel ["noChar"] when the
    no-character draw succeeds ([no_char] is true), and [None] otherwise. *)
Theorem scenario1_selection (td : pyval)
  (Hinit : init scenario1_config (PDict []) [(PStr "X", scenario1_files)] true = inr td)
  (g : G) :
  exists st, runStateT selection (auto_with scenario1_config td PNone, g) = inr (tt, st) /\
    checkpoint_name (fst st) = PStr "m1" /\ loras_set (fst st) = [] /\
    char_path (fst st) = PNone /\
    ((no_char (fst st) = true /\ char_name (fst st) = PStr "noChar") \/
     (no_char (fst st) = false /\ char_name (fst st) = PNone)).
Proof.
  destruct (scenario1_checkpoint td Hinit g) as [g1 H1].
  unfold selection; rewrite (run_seq_unit _ _ _ _ H1).
  match goal with |- context [(?a1, g1)] =>
    destruct (scenario1_char td Hinit a1 eq_refl eq_refl eq_refl g1) as (g2 & nc & nm & H2 & Hn)
  end.
  rewrite (run_seq_unit _ _ _ _ H2).
  match goal with |- context [(?a2, g2)] =>
    destruct (scenario1_lora td Hinit a2 eq_refl eq_refl eq_refl g2) as (g3 & nl & H3)
  end.
  rewrite H3; eexists; split; [reflexivity |]; cbn.
  split; [reflexivity |]; split; [reflexivity |]; split; [reflexivity |].
  destruct Hn as [[-> ->] | [-> ->]]; [left | right]; split; reflexivity.
Qed.
End Scenario1.

Lemma scenario1_selection_witness :
  exists td st,
    init scenario1_config (PDict []) [(PStr "X", scenario1_files)] true = inr td /\
    runStateT (@selection Draws _) (auto_with scenario1_config td PNone, mkDraws [] []) =
      inr (tt, st) /\ checkpoint_name (fst st) = PStr "m1".
Proof.
  destruct (init scenario1_config (PDict []) [(PStr "X", scenario1_files)] true)
    as [e | td] eqn:Hi; [vm_compute in Hi; discriminate |].
  destruct (scenario1_selection td Hi (mkDraws [] [])) as (st & Hst & Hm & _).
  exists td, st; split; [reflexivity | split; [exact Hst | exact Hm]].
Defined.

(** C3.  The character is not always the sentinel ["noChar"]: when the
    draw against [noCharPer] fails, [char_change] takes the other branch
    and, with no character file, sets the character name to [None]. *)
Lemma scenario1_char_not_sentinel :
  ~ (forall (g : Draws) td,
       init scenario1_config (PDict []) [(PStr "X", scenario1_files)] true = inr td ->
       exists st, run selection (auto_with scenario1_config td PNone) g = inr (tt, st) /\
         char_name (fst st) = PStr "noChar").
Proof.
  intros Hall.
  destruct (init scenario1_config (PDict []) [(PStr "X", scenario1_files)] true)
    as [e | td] eqn:Hi; [vm_compute in Hi; discriminate |].
  destruct (Hall (mkDraws [9 # 10; 9 # 10; 9 # 10; 9 # 10; 9 # 10] []) td eq_refl) as (st & Hr & Hn).
  vm_compute in Hi; injection Hi as <-.
  vm_compute in Hr; injection Hr as <-; vm_compute in Hn; discriminate Hn.
Qed.

(** ** End-to-end scenario 3 *)

Section Scenario3.
Context {G : Type} `{PyRandomValid G}.
(** C4 (as amended).  When the template value of [N.strength] is a number
    and [setupWorkflow] overrides it with the range [[0.0, 1.0]] under
    [workflow], with [workflow_min] 0.5 and no scale or max, then for every
    generator whose primitives stay in range, [set_setup_workflow_to_workflow_api]
    succeeds and stores a float in [[0.5, 1.0]]: the range is drawn first,
    then the minimum is applied. *)
Theorem scenario3_min_respected (g : G) (t : pyval) (Ht : is_number_value t = true) :
  exists st q,
    runStateT set_setup_workflow_to_workflow_api
      (scenario3_auto (scenario3_override ++ scenario3_min) t, g) = inr (tt, st) /\
    get_nested (workflow_api (fst st)) [PStr "N"; PStr "inputs"; PStr "strength"] PNone
      = inr (PFloat q) /\ 1 # 2 <= q <= 1.
Proof.
  destruct t; try discriminate; cbn.
  all: destruct (randbelow _ g) as [j g1]; cbn.
  all: pose proof (random_range g1) as Hu; destruct (random g1) as [u g2]; cbn in Hu |- *.
  all: match goal with |- context [Qlt_bool ?x ?y] => destruct (Qlt_bool x y) eqn:E end; cbn.
  all: eexists _, _; split; [reflexivity |]; split; [reflexivity |].
  all: assert (Hq : 0 + (1 - 0) * u == u) by ring.
  all: first [split; [apply Qle_refl | apply Qle_bool_iff; reflexivity]
             | unfold Qlt_bool in E; apply negb_false_iff, Qle_bool_iff in E;
               split; [exact E | rewrite Hq; apply Qlt_le_weak, Hu]].
Qed.
End Scenario3.

Lemma scenario3_min_respected_witness :
  is_number_value (PFloat 0) = true /\
  exists st q,
    runStateT (@set_setup_workflow_to_workflow_api Draws _)
      (scenario3_auto (scenario3_override ++ scenario3_min) (PFloat 0), mkDraws [1 # 4] [])
      = inr (tt, st) /\
    get_nested (workflow_api (fst st)) [PStr "N"; PStr "inputs"; PStr "strength"] PNone
      = inr (PFloat q) /\ 1 # 2 <= q <= 1.
Proof.
  split; [reflexivity |].
  apply (scenario3_min_respected (mkDraws [1 # 4] []) (PFloat 0)); reflexivity.
Defined.

(** C4.  A range [[0.0, 1.0]] stored in the template itself is never
    resolved: [get_type_list] keeps only int and float inputs, so
    [strength] is skipped, its minimum is never applied, and the parameter
    keeps the list [[0.0, 1.0]]. *)
Lemma scenario3_template_range_kept :
  ~ (forall g : Draws, exists st q,
       run set_setup_workflow_to_workflow_api
         (scenario3_auto scenario3_min (PList [PFloat 0; PFloat 1])) g = inr (tt, st) /\
       get_nested (workflow_api (fst st)) [PStr "N"; PStr "inputs"; PStr "strength"] PNone
         = inr (PFloat q) /\ 1 # 2 <= q).
Proof.
  intros Hall; destruct (Hall (mkDraws [] [])) as (st & q & Hr & Hg & _).
  vm_compute in Hr; injection Hr as <-; vm_compute in Hg; discriminate Hg.
Qed.

(** ** Extra properties *)

(** *** Catalog round trip *)
Lemma spop_sset_absent (d : list (string * string)) (k v : string) :
  ~ In k (map fst d) -> spop (sset d k v) k = d.
Proof.
  induction d as [| [k' v'] r IH]; intros Hn; simpl.
  - rewrite String.eqb_refl; reflexivity.
  - simpl in Hn. destruct (String.eqb_spec k k') as [-> | Hne].
    + exfalso; apply Hn; left; reflexivity.
    + simpl. destruct (String.eqb_spec k k') as [E | _]; [contradiction |].
      rewrite IH; [reflexivity | intros Hi; apply Hn; right; exact Hi].
Qed.

Lemma list_remove_app_absent (l : list string) (x : string) :
  smem x l = false -> list_remove (l ++ [x]) x = l.
Proof.
  induction l as [| y r IH]; intros Hn; simpl.
  - rewrite String.eqb_refl; reflexivity.
  - unfold smem in Hn; simpl in Hn. apply orb_false_iff in Hn as [E1 E2].
    rewrite E1; f_equal; apply IH; exact E2.
Qed.

(** The [created] and [deleted] events of [update_safetensors] undo each
    other: creating a file the views do not list and deleting it again
    gives back the views as they were. *)
Theorem update_safetensors_created_deleted (v : Views) (rpath : string)
  (Hd : ~ In (path_stem rpath) (map fst (file_dics v)))
  (Hl : smem rpath (file_lists v) = false)
  (Hn : smem (path_stem rpath) (file_names v) = false) :
  update_safetensors (update_safetensors v rpath "created") rpath "deleted" = v.
Proof.
  destruct v as [d l n]; simpl in *.
  unfold update_safetensors; simpl.
  rewrite Hl, Hn; simpl.
  rewrite !smem_app_self.
  rewrite spop_sset_absent by exact Hd.
  rewrite !list_remove_app_absent by assumption.
  reflexivity.
Qed.

Lemma update_safetensors_created_deleted_witness :
  update_safetensors (update_safetensors (mkViews [("a", "a.safetensors")%string]
     ["a.safetensors"%string] ["a"%string]) "b.safetensors" "created") "b.safetensors" "deleted"
  = mkViews [("a", "a.safetensors")%string] ["a.safetensors"%string] ["a"%string].
Proof.
  apply update_safetensors_created_deleted; [vm_compute; intros [H | []]; discriminate H | reflexivity | reflexivity].
Defined.

(** *** [FileEventHandler] *)
Lemma Qlt_bool_complete (x y : Q) : x < y -> Qlt_bool x y = true.
Proof.
  intros H. unfold Qlt_bool. apply negb_true_iff.
  destruct (Qle_bool y x) eqn:E; [| reflexivity].
  apply Qle_bool_iff in E. exfalso; apply (Qlt_not_le x y H E).
Qed.

Lemma Qlt_bool_false_complete (x y : Q) : y <= x -> Qlt_bool x y = false.
Proof.
  intros H. unfold Qlt_bool. apply negb_false_iff. apply Qle_bool_iff; exact H.
Qed.

(** Only modified events are throttled: a directory event never reaches
    the callback, any other file event that is not [modified] always does,
    and neither touches [last_event_time]. *)
Theorem on_any_event_throttles_only_modified (last_event_time : Q) (e : FsEvent) (t : Q) :
  (is_directory e = true -> on_any_event last_event_time e t = (false, last_event_time)) /\
  (is_directory e = false -> event_type e <> "modified"%string ->
   on_any_event last_event_time e t = (true, last_event_time)).
Proof.
  unfold on_any_event, _time_check. split; intros Hd; rewrite Hd; [reflexivity |].
  intros Hm. destruct (String.eqb_spec (event_type e) "modified"); [contradiction | reflexivity].
Qed.

(** Modified events more than one second apart (and more than one second
    after [last_event_time]) never reach the callback: each one is taken
    as the start of a new burst and dropped. *)
Theorem handle_events_isolated_modified_dropped (evs : list (FsEvent * Q)) (last_event_time : Q)
  (Hsp : spaced last_event_time (modified_times evs)) :
  forall e, In e (fst (handle_events last_event_time evs)) -> event_type e <> "modified"%string.
Proof.
  revert last_event_time Hsp.
  induction evs as [| [e t] r IH]; intros last Hsp e' Hin; simpl in Hin; [contradiction |].
  unfold modified_times in Hsp; simpl in Hsp.
  unfold on_any_event, _time_check in Hin.
  destruct (is_directory e) eqn:Hd; simpl in Hsp.
  - destruct (handle_events last r) as [out fin] eqn:Eh. simpl in Hin.
    apply (IH last); [exact Hsp |]. rewrite Eh; exact Hin.
  - destruct (String.eqb_spec (event_type e) "modified") as [Hm | Hm]; simpl in Hsp, Hin.
    + destruct Hsp as [Hlt Hsp]. rewrite (Qlt_bool_complete _ _ Hlt) in Hin. simpl in Hin.
      destruct (handle_events t r) as [out fin] eqn:Eh. simpl in Hin.
      apply (IH t); [exact Hsp |]. rewrite Eh; exact Hin.
    + destruct (handle_events last r) as [out fin] eqn:Eh. simpl in Hin.
      destruct Hin as [<- | Hin]; [exact Hm |].
      apply (IH last); [exact Hsp |]. rewrite Eh; exact Hin.
Qed.

(** A burst: the first modified event, more than one second after
    [last_event_time], is dropped and restarts the clock; every later file
    event within one second of it reaches the callback. *)
Theorem handle_events_burst (last_event_time t0 : Q) (e0 : FsEvent) (rest : list (FsEvent * Q))
  (Hd0 : is_directory e0 = false) (Hm0 : event_type e0 = "modified"%string)
  (Hgap : 1 < t0 - last_event_time)
  (Hrest : Forall (fun p => is_directory (fst p) = false /\ snd p - t0 <= 1) rest) :
  handle_events last_event_time ((e0, t0) :: rest) = (map fst rest, t0).
Proof.
  simpl. unfold on_any_event, _time_check. rewrite Hd0, Hm0. simpl.
  rewrite (Qlt_bool_complete _ _ Hgap). simpl.
  assert (Hr : handle_events t0 rest = (map fst rest, t0)).
  { induction Hrest as [| [e t] r [Hd Ht] Hr IH]; [reflexivity |].
    simpl in Hd, Ht |- *. unfold on_any_event, _time_check. rewrite Hd.
    destruct (String.eqb (event_type e) "modified"); simpl.
    - rewrite (Qlt_bool_false_complete _ _ Ht). simpl. rewrite IH. reflexivity.
    - rewrite IH. reflexivity. }
  rewrite Hr. reflexivity.
Qed.

Lemma on_any_event_throttles_only_modified_witness :
  on_any_event 3 (mkFsEvent false "created") 10 = (true, 3) /\
  on_any_event 3 (mkFsEvent true "modified") 10 = (false, 3).
Proof.
  split.
  - apply (proj2 (on_any_event_throttles_only_modified 3 (mkFsEvent false "created") 10));
      [reflexivity | discriminate].
  - apply (proj1 (on_any_event_throttles_only_modified 3 (mkFsEvent true "modified") 10));
      reflexivity.
Defined.

Lemma handle_events_isolated_modified_dropped_witness :
  spaced 0 (modified_times fh_sample) /\
  forall e, In e (fst (handle_events 0 fh_sample)) -> event_type e <> "modified"%string.
Proof.
  assert (H : spaced 0 (modified_times fh_sample)) by (vm_compute; repeat split).
  exact (conj H (handle_events_isolated_modified_dropped fh_sample 0 H)).
Defined.

Lemma handle_events_burst_witness :
  handle_events 0 ((mkFsEvent false "modified", 10) ::
                   [(mkFsEvent false "modified", 21#2); (mkFsEvent false "created", 11)])%string
  = ([mkFsEvent false "modified"; mkFsEvent false "created"]%string, 10).
Proof.
  apply handle_events_burst; [reflexivity | reflexivity | vm_compute; reflexivity |].
  repeat constructor; vm_compute; try reflexivity; discriminate.
Defined.

(** *** [pop_nested] and [set_exists] *)

Lemma dset_lookup_id (d : pydict) (k w : pyval) :
  dlookup d k = Some w -> dset d k w = d.
Proof.
  induction d as [| [k' v'] r IH]; simpl; [discriminate |].
  destruct (py_eq k k'); [intros [= ->]; reflexivity | intros H; rewrite IH; auto].
Qed.

Lemma dset_dset_overwrite (d : pydict) (k v w : pyval) :
  py_eq k k = true -> dset (dset d k v) k w = dset d k w.
Proof.
  intros Hk; induction d as [| [k' v'] r IH]; cbn [dset].
  - now rewrite Hk.
  - destruct (py_eq k k') eqn:E; cbn [dset]; rewrite E; [reflexivity | now rewrite IH].
Qed.

Lemma dpop_dset_absent (d : pydict) (k v : pyval) :
  py_eq k k = true -> dlookup d k = None -> dpop (dset d k v) k = d.
Proof.
  intros Hk; induction d as [| [k' v'] r IH]; simpl.
  - rewrite Hk; reflexivity.
  - destruct (py_eq k k') eqn:E; [discriminate |]. intros H; simpl; rewrite E, IH; auto.
Qed.

Lemma pop_nested_app (d : pyval) (prefix : list pyval) (k2 k1 dflt : pyval) :
  pop_nested d (prefix ++ [k2; k1]) dflt = pop_walk d prefix k2 k1 dflt.
Proof.
  unfold pop_nested. rewrite rev_app_distr. simpl. rewrite rev_involutive. reflexivity.
Qed.

Lemma set_pop_walk (prefix : list pyval) (root value dflt : pyval) (k2 k1 : pyval) (e : pydict) :
  walkable root (prefix ++ [k2; k1]) = true ->
  get_nested root (prefix ++ [k2]) PNone = inr (PDict e) ->
  dlookup e k1 = None ->
  exists r, set_walk root (prefix ++ [k2; k1]) value = inr r /\
            pop_walk r prefix k2 k1 dflt = inr (value, root).
Proof.
  revert root; induction prefix as [| k ks IH]; intros root Hw Hg He; cbn [app] in *.
  - destruct root as [| | | | | | d]; try discriminate.
    cbn [walkable] in Hw.
    apply andb_prop in Hw as [Hk2 Hw]. apply andb_prop in Hw as [_ Hk1].
    unfold get_nested, py_contains, py_getitem in Hg. rewrite Hk2 in Hg.
    destruct (dlookup d k2) as [c |] eqn:Ec; cbn in Hg; [| discriminate].
    injection Hg as ->.
    eexists; split.
    + rewrite set_walk_cons2, Hk2, Ec. cbn. rewrite Hk1. reflexivity.
    + cbn. rewrite Hk2, dlookup_dset_same by (apply py_eq_refl_hashable; exact Hk2). cbn.
      rewrite Hk1, dlookup_dset_same by (apply py_eq_refl_hashable; exact Hk1). cbn.
      rewrite dpop_dset_absent by (try apply py_eq_refl_hashable; assumption).
      rewrite dset_dset_overwrite, dset_lookup_id by (try apply py_eq_refl_hashable; assumption).
      reflexivity.
  - destruct root as [| | | | | | d]; try (destruct ks; discriminate).
    assert (Hw' : hashable k && walkable (match dlookup d k with Some c => c | None => PDict [] end)
                  (ks ++ [k2; k1]) = true) by (destruct ks; exact Hw).
    apply andb_prop in Hw' as [Hk Hw'].
    assert (Hg' : (nxt <- py_get (PDict d) k PNone ;;
                   if is_dict nxt then get_nested nxt (ks ++ [k2]) PNone else ret PNone)
                  = inr (PDict e)) by (destruct ks; exact Hg).
    cbn [py_get] in Hg'. rewrite Hk in Hg'.
    destruct (dlookup d k) as [c |] eqn:Ec; cbn in Hg'; [| discriminate].
    destruct (is_dict c) eqn:Hc; [| discriminate].
    destruct (IH c Hw' Hg' He) as [rc [Hs Hp]].
    assert (Hrc : is_dict rc = true) by exact (set_walk_dict _ _ _ _ Hc Hs).
    exists (PDict (dset d k rc)); split.
    + destruct ks as [| a l]; cbn [app] in Hs |- *;
        rewrite set_walk_cons2, Hk, Ec, Hs; reflexivity.
    + cbn [pop_walk py_get]. rewrite Hk, dlookup_dset_same by (apply py_eq_refl_hashable; exact Hk).
      cbn. rewrite Hrc, Hp. cbn. rewrite Hk.
      rewrite dset_dset_overwrite, dset_lookup_id by (try apply py_eq_refl_hashable; assumption).
      reflexivity.
Qed.

(** [pop_nested] undoes [set_nested] on a path whose parent dict exists
    and lacks the last key: it returns the stored value and gives back the
    dict as it was before the write. *)
Theorem set_nested_pop_nested (root value dflt k2 k1 : pyval) (prefix : list pyval) (e : pydict)
  (Hw : walkable root (prefix ++ [k2; k1]) = true)
  (Hg : get_nested root (prefix ++ [k2]) PNone = inr (PDict e))
  (He : dlookup e k1 = None) :
  exists r, set_nested root value (prefix ++ [k2; k1]) = inr r /\
            pop_nested r (prefix ++ [k2; k1]) dflt = inr (value, root).
Proof.
  destruct (set_pop_walk prefix root value dflt k2 k1 e Hw Hg He) as [r [Hs Hp]].
  exists r; split.
  - unfold set_nested. destruct prefix; exact Hs.
  - rewrite pop_nested_app. exact Hp.
Qed.

Lemma set_nested_pop_nested_witness :
  exists r, set_nested (PDict [(PStr "SaveImage1", PDict [(PStr "inputs", PDict [])])])
              (PList [PStr "8"; PInt 0]) [PStr "SaveImage1"; PStr "inputs"; PStr "images"] = inr r /\
            pop_nested r [PStr "SaveImage1"; PStr "inputs"; PStr "images"] PNone
            = inr (PList [PStr "8"; PInt 0],
                   PDict [(PStr "SaveImage1", PDict [(PStr "inputs", PDict [])])]).
Proof.
  apply (set_nested_pop_nested _ _ _ (PStr "inputs") (PStr "images") [PStr "SaveImage1"] []);
    reflexivity.
Defined.

Lemma set_exists_walk_cons2 (d : pydict) (k k' : pyval) (ks : list pyval) (value : pyval) :
  hashable k = true ->
  set_exists_walk (PDict d) (k :: k' :: ks) value =
  let nxt := match dlookup d k with Some c => c | None => PNone end in
  if is_dict nxt then
    match set_exists_walk nxt (k' :: ks) value with
    | inl ex => inl ex
    | inr (nxt', true) => inr (PDict (dset d k nxt'), true)
    | inr (_, false) => inr (PDict d, false)
    end
  else inr (PDict d, false).
Proof.
  intros Hk. cbn [set_exists_walk py_get]. rewrite Hk. cbn.
  destruct (dlookup d k) as [c |]; [| reflexivity].
  destruct (is_dict c); [| reflexivity].
  destruct (set_exists_walk c (k' :: ks) value) as [ex | [c' []]]; cbn; try rewrite Hk; reflexivity.
Qed.

(** [set_exists] never creates a key: on a dict root it either leaves the
    dict unchanged and reports no write, or the whole path already existed
    and the result is what [set_nested] gives, from which [get_nested]
    reads the value back.  It writes whenever the path exists through
    dicts with hashable keys. *)
Theorem set_exists_walk_existing_only (root value dflt r : pyval) (keys : list pyval) (b : bool)
  (Hroot : is_dict root = true)
  (H : set_exists_walk root keys value = inr (r, b)) :
  ((b = false /\ r = root) \/
   (b = true /\ has_path root keys = true /\ set_nested root value keys = inr r /\
    get_nested r keys dflt = inr value)) /\
  (has_path root keys && walkable root keys = true -> b = true).
Proof.
  revert root r b Hroot H; induction keys as [| k ks IH]; intros root r b Hroot H.
  - cbn in H. injection H as <- <-. split; [left; split; reflexivity | discriminate].
  - destruct root as [| | | | | | d]; try discriminate. destruct ks as [| k' ks].
    + cbn in H. destruct (hashable k) eqn:Hk; [| discriminate]. cbn in H.
      destruct (dlookup d k) as [c |] eqn:Ec; cbn in H.
      * injection H as <- <-. split; [right | intros _; reflexivity].
        split; [reflexivity |]. split; [cbn; rewrite Ec; reflexivity |].
        split; [cbn; rewrite Hk; reflexivity |].
        cbn. rewrite Hk, dlookup_dset_same by (apply py_eq_refl_hashable; exact Hk).
        reflexivity.
      * injection H as <- <-. split; [left; split; reflexivity |].
        cbn. rewrite Ec. discriminate.
    + destruct (hashable k) eqn:Hk; [| cbn in H; rewrite Hk in H; discriminate].
      rewrite (set_exists_walk_cons2 d k k' ks value Hk) in H. cbv zeta in H.
      destruct (dlookup d k) as [c |] eqn:Ec.
      * destruct (is_dict c) eqn:Hc.
        -- destruct (set_exists_walk c (k' :: ks) value) as [ex | [c' w]] eqn:Es; [discriminate |].
           destruct (IH c c' w Hc Es) as [[[-> ->] | [-> [Hp [Hs Hget]]]] Hconv].
           ++ injection H as <- <-. split; [left; split; reflexivity |].
              intros Hpw. apply Hconv.
              change ((match dlookup d k with Some c' => has_path c' (k' :: ks) | None => false end)
                      && (hashable k && walkable (match dlookup d k with Some c => c | None => PDict [] end)
                                                 (k' :: ks)) = true) in Hpw.
              rewrite Ec in Hpw.
              apply andb_prop in Hpw as [Hp Hw]. apply andb_prop in Hw as [_ Hw].
              rewrite Hp, Hw. reflexivity.
           ++ injection H as <- <-. split; [right | intros _; reflexivity].
              assert (Hd : is_dict c' = true) by (exact (set_walk_dict _ _ _ _ Hc Hs)).
              split; [reflexivity |]. split; [cbn; rewrite Ec; exact Hp |].
              split.
              ** unfold set_nested. rewrite set_walk_cons2, Hk, Ec.
                 change (set_nested c value (k' :: ks)) with (set_walk c (k' :: ks) value) in Hs.
                 rewrite Hs. reflexivity.
              ** rewrite get_nested_cons2. cbn [py_get].
                 rewrite Hk, dlookup_dset_same by (apply py_eq_refl_hashable; exact Hk).
                 cbn. rewrite Hd. exact Hget.
        -- cbn in H. injection H as <- <-. split; [left; split; reflexivity |].
           cbn. rewrite Ec. intros Hpw. apply andb_prop in Hpw as [_ Hw].
           apply andb_prop in Hw as [_ Hw]. destruct c, ks; discriminate.
      * cbn in H. injection H as <- <-. split; [left; split; reflexivity |].
        cbn. rewrite Ec. discriminate.
Qed.

Lemma set_exists_walk_existing_only_witness :
  set_exists_walk (PDict [(PStr "3", PDict [(PStr "inputs", PDict [(PStr "seed", PInt 0)])])])
    [PStr "3"; PStr "inputs"; PStr "seed"] (PInt 7)
  = inr (PDict [(PStr "3", PDict [(PStr "inputs", PDict [(PStr "seed", PInt 7)])])], true) /\
  get_nested (PDict [(PStr "3", PDict [(PStr "inputs", PDict [(PStr "seed", PInt 7)])])])
    [PStr "3"; PStr "inputs"; PStr "seed"] PNone = inr (PInt 7).
Proof.
  assert (H : set_exists_walk (PDict [(PStr "3", PDict [(PStr "inputs", PDict [(PStr "seed", PInt 0)])])])
    [PStr "3"; PStr "inputs"; PStr "seed"] (PInt 7)
    = inr (PDict [(PStr "3", PDict [(PStr "inputs", PDict [(PStr "seed", PInt 7)])])], true))
    by reflexivity.
  split; [exact H |].
  pose proof (fun Hr => set_exists_walk_existing_only _ _ PNone _ _ _ Hr H) as K.
  destruct (K eq_refl) as [[[E _] | [_ [_ [_ Hg]]]] _]; [discriminate E | exact Hg].
Defined.

(** *** [random.choices] and its callers *)

Lemma bisect_go_bound (fuel : nat) (a : list Q) (x : Q) (lo hi : nat) :
  (lo <= hi)%nat -> (bisect_go fuel a x lo hi <= hi)%nat.
Proof.
  revert lo hi; induction fuel as [| f IH]; intros lo hi Hle; cbn [bisect_go]; [exact Hle |].
  destruct (Nat.ltb_spec lo hi) as [Hlt | Hge]; [| exact Hle].
  pose proof (Nat.div_mod_eq (lo + hi) 2) as Hdm.
  pose proof (Nat.mod_upper_bound (lo + hi) 2 ltac:(lia)) as Hmb.
  assert (Hm1 : (lo <= Nat.div (lo + hi) 2)%nat) by lia.
  assert (Hm2 : (Nat.div (lo + hi) 2 < hi)%nat) by lia.
  destruct (Qlt_bool x _).
  - specialize (IH lo (Nat.div (lo + hi) 2) Hm1). lia.
  - apply IH. lia.
Qed.


Lemma last_cons_default {A : Type} (a d : A) (l : list A) : last (a :: l) d = last l a.
Proof.
  revert a d; induction l as [| b l IH]; intros a d; [reflexivity |].
  change (last (b :: l) d = last (b :: l) a). rewrite !IH. reflexivity.
Qed.

Lemma accumulate_last_ge (ws : list pyval) : forall (acc : Q) (cum : list Q),
  accumulate acc ws = inr cum -> Forall nonneg_weight ws -> acc <= last cum acc.
Proof.
  induction ws as [| w r IH]; intros acc cum Ha Hn; simpl in Ha.
  - injection Ha as <-. apply Qle_refl.
  - inversion Hn as [| ? ? [q [Hq Hq0]] Hr]; subst. rewrite Hq in Ha.
    destruct (accumulate (acc + q) r) as [ex | rest] eqn:Er; cbn in Ha; [discriminate |].
    injection Ha as <-. rewrite last_cons_default.
    apply Qle_trans with (acc + q); [| exact (IH _ _ Er Hr)].
    rewrite <- (Qplus_0_r acc) at 1. apply Qplus_le_compat; [apply Qle_refl | exact Hq0].
Qed.

Lemma accumulate_last_pos (ws : list pyval) : forall (acc : Q) (cum : list Q),
  accumulate acc ws = inr cum -> Forall nonneg_weight ws -> 0 <= acc ->
  (exists w q, In w ws /\ num_of w = Some q /\ 0 < q) -> 0 < last cum acc.
Proof.
  induction ws as [| w r IH]; intros acc cum Ha Hn Hacc [w' [q' [Hin [Hq' Hpos]]]]; simpl in Ha.
  - destruct Hin.
  - inversion Hn as [| ? ? [q [Hq Hq0]] Hr]; subst. rewrite Hq in Ha.
    destruct (accumulate (acc + q) r) as [ex | rest] eqn:Er; cbn in Ha; [discriminate |].
    injection Ha as <-. rewrite last_cons_default.
    assert (Hacc' : 0 <= acc + q) by (rewrite <- (Qplus_0_r 0); apply Qplus_le_compat; assumption).
    destruct Hin as [<- | Hin].
    + rewrite Hq in Hq'. injection Hq' as <-.
      apply Qlt_le_trans with (acc + q); [| exact (accumulate_last_ge _ _ _ Er Hr)].
      rewrite <- (Qplus_0_l 0), (Qplus_comm acc). apply Qplus_lt_le_compat; assumption.
    + apply (IH _ _ Er Hr Hacc'). exists w', q'. auto.
Qed.

Lemma accumulate_length (ws : list pyval) : forall (acc : Q) (cum : list Q),
  accumulate acc ws = inr cum -> length cum = length ws.
Proof.
  induction ws as [| w r IH]; intros acc cum Ha; simpl in Ha.
  - injection Ha as <-. reflexivity.
  - destruct (num_of w) as [q |]; [| discriminate].
    destruct (accumulate (acc + q) r) as [ex | rest] eqn:Er; cbn in Ha; [discriminate |].
    injection Ha as <-. simpl. f_equal. exact (IH _ _ Er).
Qed.

Lemma accumulate_total (ws : list pyval) :
  Forall nonneg_weight ws -> exists cum, accumulate 0 ws = inr cum.
Proof.
  generalize 0. induction ws as [| w r IH]; intros acc Hn; [exists []; reflexivity |].
  inversion Hn as [| ? ? [q [Hq _]] Hr]; subst. simpl. rewrite Hq.
  destruct (IH (acc + q) Hr) as [rest Er]. rewrite Er. eexists; reflexivity.
Qed.

Section Choices.
Context {G : Type} `{PyRandom G}.

Lemma choices_draws (pop ws : list pyval) (n : nat) (st : Auto * G)
  (Hlen : length ws = length pop) (Hn : Forall nonneg_weight ws)
  (Hp : exists w q, In w ws /\ num_of w = Some q /\ 0 < q) :
  exists l st', runStateT (choices pop ws (PInt (Z.of_nat n))) st = inr (l, st') /\
                length l = n /\ incl l pop.
Proof.
  destruct (accumulate_total ws Hn) as [cum Ecum].
  pose proof (accumulate_length _ _ _ Ecum) as Lc.
  pose proof (accumulate_last_pos _ _ _ Ecum Hn (Qle_refl 0) Hp) as Pos.
  unfold choices. cbn -[bisect_right]. rewrite Ecum. cbn -[bisect_right].
  rewrite Lc, Hlen, Nat.eqb_refl. cbn -[bisect_right].
  destruct (rev cum) as [| total rc] eqn:Er.
  { destruct cum; [| apply (f_equal (@length Q)) in Er; rewrite length_rev in Er; discriminate].
    destruct ws; [destruct Hp as [? [? [[] _]]] | discriminate]. }
  assert (Hlast : last cum 0 = total).
  { rewrite <- (rev_involutive cum), Er. cbn [rev]. rewrite last_last. reflexivity. }
  rewrite Hlast in Pos.
  assert (Hq : Qle_bool total 0 = false).
  { destruct (Qle_bool total 0) eqn:E; [| reflexivity].
    apply Qle_bool_iff in E. exfalso; apply (Qlt_not_le _ _ Pos E). }
  rewrite Hq. cbn -[bisect_right]. rewrite Nat2Z.id.
  assert (Hne : (0 < length pop)%nat).
  { rewrite <- Hlen, <- Lc, <- length_rev, Er. simpl. lia. }
  revert st. induction n as [| n IH]; intros st.
  - exists [], st. split; [reflexivity | split; [reflexivity | intros x []]].
  - cbn [runStateT]. destruct (random (snd st)) as [u g']. cbn [runStateT].
    destruct (nth_error pop (bisect_right cum (u * total) 0 (pred (length pop)))) as [p |] eqn:Ep.
    + cbn [runStateT]. destruct (IH (fst st, g')) as [l [st' [E [Ln Il]]]].
      rewrite E. exists (p :: l), st'. split; [reflexivity |]. split; [simpl; lia |].
      intros x [<- | Hx]; [exact (nth_error_In _ _ Ep) | exact (Il x Hx)].
    + exfalso. apply nth_error_None in Ep.
      pose proof (bisect_go_bound (S (length cum)) cum (u * total) 0 (pred (length pop))
                    ltac:(lia)) as Hb.
      unfold bisect_right in Ep. lia.
Qed.
End Choices.

Lemma forallb_num_nonneg (e : pydict) :
  Forall nonneg_weight (map snd e) ->
  forallb (fun kv => match num_of (snd kv) with Some _ => true | None => false end) e = true.
Proof.
  induction e as [| [k v] r IH]; intros Hn; [reflexivity |].
  inversion Hn as [| ? ? [q [Hq _]] Hr]; subst. simpl. rewrite Hq. exact (IH Hr).
Qed.

Lemma length_map_snd_fst {A B : Type} (l : list (A * B)) : length (map snd l) = length (map fst l).
Proof. rewrite !length_map. reflexivity. Qed.

Section RandomUtils.
Context {G : Type} `{PyRandom G}.

(** [random_weight_count] on a dict whose weights are non-negative
    numbers, one of them positive, draws exactly [count] keys of the dict
    (with replacement); a weight that is not a number raises [TypeError]
    before anything is drawn. *)
Theorem random_weight_count_draws (e : pydict) (n : nat) (st : Auto * G)
  (Hn : Forall nonneg_weight (map snd e))
  (Hp : exists w q, In w (map snd e) /\ num_of w = Some q /\ 0 < q) :
  (exists l st', runStateT (random_weight_count (PDict e) (PInt (Z.of_nat n))) st = inr (l, st') /\
                 length l = n /\ incl l (dkeys e)) /\
  (forall count (e' : pydict), (exists kv, In kv e' /\ num_of (snd kv) = None) ->
     runStateT (random_weight_count (PDict e') count) st = inl TypeError).
Proof.
  split.
  - unfold random_weight_count. rewrite forallb_num_nonneg by exact Hn.
    apply choices_draws; [apply length_map_snd_fst | exact Hn | exact Hp].
  - intros count e' [kv [Hin Hnone]]. unfold random_weight_count.
    destruct (forallb _ e') eqn:Ef; [| reflexivity].
    rewrite forallb_forall in Ef. specialize (Ef kv Hin). rewrite Hnone in Ef. discriminate.
Qed.

End RandomUtils.

Section RandomValid.
Context {G : Type} `{PyRandomValid G}.

Lemma choice_member (l : list pyval) (st : Auto * G) :
  l <> [] -> exists x st', runStateT (choice l) st = inr (x, st') /\ In x l.
Proof.
  intros Hne. destruct l as [| y r]; [congruence |].
  pose proof (randbelow_range (Z.of_nat (length (y :: r))) (snd st) ltac:(simpl; lia)) as Hr.
  change (Z.of_nat (length (y :: r))) with (Z.pos (Pos.of_succ_nat (length r))) in Hr.
  unfold choice. cbn.
  destruct (randbelow (Z.pos (Pos.of_succ_nat (length r))) (snd st)) as [j g'] eqn:Ej.
  simpl in Hr. cbn.
  destruct (nth_error (y :: r) (Z.to_nat j)) as [x |] eqn:Ex.
  - exists x, (fst st, g'). split; [reflexivity |]. exact (nth_error_In _ _ Ex).
  - exfalso. apply nth_error_None in Ex. simpl in Ex. rewrite Zpos_P_of_succ_nat in Hr. lia.
Qed.

End RandomValid.

Section RandomValid2.
Context {G : Type} `{PyRandomValid G}.

Lemma runStateT_bind {A B : Type} (m : M A) (k : A -> M B) (st : Auto * G) :
  runStateT (bind m k) st =
  match runStateT m st with inl e => inl e | inr (a, s') => runStateT (k a) s' end.
Proof. reflexivity. Qed.

(** [random_weight] picks from what it is given: a string comes back as
    it is, a non-empty list gives one of its elements and the empty list
    raises [IndexError], and a dict with non-negative numeric weights, one
    of them positive, gives one of its keys. *)
Theorem random_weight_member (st : Auto * G) :
  (forall s, runStateT (random_weight (PStr s)) st = inr (PStr s, st)) /\
  (forall l, l <> [] -> exists x st', runStateT (random_weight (PList l)) st = inr (x, st') /\ In x l) /\
  runStateT (random_weight (PList [])) st = inl IndexError /\
  (forall e, Forall nonneg_weight (map snd e) ->
     (exists w q, In w (map snd e) /\ num_of w = Some q /\ 0 < q) ->
     exists x st', runStateT (random_weight (PDict e)) st = inr (x, st') /\ In x (dkeys e)).
Proof.
  split; [reflexivity |]. split; [intros l Hl; exact (choice_member l st Hl) |]. split; [reflexivity |].
  intros e Hn Hp. unfold random_weight. rewrite runStateT_bind.
  destruct (choices_draws (dkeys e) (map snd e) 1 st (length_map_snd_fst e) Hn Hp)
    as [l [st' [E [Ln Il]]]].
  change (PInt (Z.of_nat 1)) with (PInt 1) in E. rewrite E.
  destruct l as [| x [| ? ?]]; try discriminate.
  exists x, st'. split; [reflexivity | apply Il; left; reflexivity].
Qed.

(** [seed_int()] draws an integer in [0, 0xffffffffffffffff]. *)
Theorem seed_int_range (st : Auto * G) :
  exists z st', runStateT seed_int st = inr (z, st') /\ (0 <= z <= 2 ^ 64 - 1)%Z.
Proof.
  pose proof (randbelow_range (2 ^ 64 - 1 + 1 - 0) (snd st) ltac:(lia)) as Hr.
  unfold seed_int, randint. cbn.
  destruct (randbelow _ (snd st)) as [j g'] eqn:Ej.
  simpl in Hr. exists (0 + j)%Z, (fst st, g'). split; [reflexivity | lia].
Qed.

End RandomValid2.

Lemma weight_entries_sound (e : pydict) (wk : pyval) : forall wd,
  weight_entries e wk = inr wd ->
  forall k w, In (k, w) wd -> exists v, In (k, v) e /\ py_contains v wk = inr true /\
                                      py_getitem v wk = inr w.
Proof.
  induction e as [| [k0 v0] r IH]; intros wd Hw k w Hin; cbn [weight_entries] in Hw.
  - injection Hw as <-. destruct Hin.
  - destruct (py_contains v0 wk) as [ex | b] eqn:Ec; [discriminate |]. cbn in Hw.
    destruct (weight_entries r wk) as [ex | rest] eqn:Er; [discriminate |]. cbn in Hw.
    destruct b.
    + destruct (py_getitem v0 wk) as [ex | w0] eqn:Eg; [discriminate |].
      injection Hw as <-. destruct Hin as [E | Hin].
      * injection E as <- <-. exists v0. split; [left; reflexivity | split; assumption].
      * destruct (IH rest eq_refl k w Hin) as [v [Hv Hc]]. exists v. split; [right; exact Hv | exact Hc].
    + injection Hw as <-. destruct (IH rest eq_refl k w Hin) as [v [Hv Hc]].
      exists v. split; [right; exact Hv | exact Hc].
Qed.

Section DictWeight.
Context {G : Type} `{PyRandom G}.

(** [random_dict_weight] only draws keys whose value holds [weight_key]:
    when the comprehension [{k: v[weight_key] ...}] is empty it returns
    [[]] without drawing, and when its weights are non-negative numbers,
    one of them positive, it returns exactly [count] such keys. *)
Theorem random_dict_weight_draws (e wd : pydict) (wk : pyval) (n : nat) (st : Auto * G)
  (Hw : weight_entries e wk = inr wd) :
  (wd = [] -> runStateT (random_dict_weight (PDict e) wk (PInt (Z.of_nat n))) st = inr ([], st)) /\
  (Forall nonneg_weight (map snd wd) ->
   (exists w q, In w (map snd wd) /\ num_of w = Some q /\ 0 < q) ->
   exists l st', runStateT (random_dict_weight (PDict e) wk (PInt (Z.of_nat n))) st = inr (l, st') /\
     length l = n /\
     forall k, In k l -> exists v, In (k, v) e /\ py_contains v wk = inr true).
Proof.
  unfold random_dict_weight. cbn [runStateT bind Monad_stateT lift]. rewrite Hw.
  split.
  - intros ->. reflexivity.
  - intros Hn Hp. destruct wd as [| kw wd'] eqn:Ewd; [destruct Hp as [? [? [[] _]]] |].
    rewrite <- Ewd in *.
    destruct (choices_draws (dkeys wd) (map snd wd) n st (length_map_snd_fst wd) Hn Hp)
      as [l [st' [E [Ln Il]]]].
    exists l, st'. split.
    + subst wd. cbn [runStateT]. exact E.
    + split; [exact Ln |]. intros k Hk.
      apply Il in Hk. unfold dkeys in Hk. apply in_map_iff in Hk as [[k' w] [<- Hin]].
      destruct (weight_entries_sound e wk wd Hw k' w Hin) as [v [Hv [Hc _]]].
      exists v. split; assumption.
Qed.

End DictWeight.

(** *** [random.sample]'s pool and [random_items_count] *)

Lemma firstn_app_len {A : Type} (l1 l2 : list A) (k : nat) :
  firstn (length l1 + k) (l1 ++ l2) = l1 ++ firstn k l2.
Proof. rewrite firstn_app, firstn_all2 by lia. f_equal. f_equal. lia. Qed.

Lemma pool_step {A : Type} (pool : list A) (m jn : nat) (d p : A) :
  (m <= length pool)%nat -> (jn < m)%nat -> nth_error pool jn = Some p ->
  Permutation (firstn (m - 1) (firstn jn pool ++ nth (m - 1) pool d :: skipn (S jn) pool) ++ [p])
              (firstn m pool).
Proof.
  intros Hm Hj Hp.
  destruct (nth_error_split pool jn Hp) as [A1 [B [-> HA1]]].
  subst jn.
  replace (firstn (length A1) (A1 ++ p :: B)) with A1
    by (rewrite firstn_app, Nat.sub_diag, firstn_O, app_nil_r, firstn_all; reflexivity).
  replace (skipn (S (length A1)) (A1 ++ p :: B)) with B
    by (rewrite skipn_app, skipn_all2 by lia; replace (S (length A1) - length A1)%nat with 1%nat by lia;
        reflexivity).
  rewrite length_app in Hm; simpl in Hm.
  destruct (Nat.eq_dec m (S (length A1))) as [Em | Em].
  - subst m. replace (S (length A1) - 1)%nat with (length A1 + 0)%nat by lia.
    rewrite firstn_app_len, firstn_O, app_nil_r.
    replace (S (length A1)) with (length A1 + 1)%nat by lia. rewrite firstn_app_len.
    apply Permutation_refl.
  - assert (Hk : (m - length A1 - 2 < length B)%nat) by lia.
    destruct (nth_error B (m - length A1 - 2)) as [z |] eqn:Ez;
      [| apply nth_error_None in Ez; lia].
    destruct (nth_error_split B _ Ez) as [B1 [B2 [-> HB1]]].
    assert (Hz : nth (m - 1) (A1 ++ p :: B1 ++ z :: B2) d = z).
    { rewrite app_nth2 by lia. replace (m - 1 - length A1)%nat with (S (length B1)) by lia.
      cbn [nth]. rewrite nth_middle. reflexivity. }
    rewrite Hz.
    replace (m - 1)%nat with (length A1 + S (length B1 + 0))%nat by lia.
    rewrite firstn_app_len. cbn [firstn]. rewrite firstn_app_len, firstn_O, app_nil_r.
    replace m with (length A1 + S (length B1 + 1))%nat by lia.
    rewrite firstn_app_len. cbn [firstn]. rewrite firstn_app_len. cbn [firstn].
    rewrite <- app_assoc. apply Permutation_app_head. cbn [app].
    change (z :: B1 ++ [p]) with ([z] ++ B1 ++ [p]).
    change (p :: B1 ++ [z]) with ([p] ++ B1 ++ [z]).
    rewrite (Permutation_app_comm B1 [p]), (Permutation_app_comm B1 [z]).
    cbn [app]. apply perm_swap.
Qed.

Section Sample.
Context {G : Type} `{PyRandomValid G}.

Lemma sample_pool (population : list pyval) (c : nat) (st : Auto * G) :
  (c <= length population)%nat ->
  exists out st', runStateT (sample population (PInt (Z.of_nat c))) st = inr (out, st') /\
    length out = c /\ incl out population /\ (NoDup population -> NoDup out).
Proof.
  intros Hc. unfold sample. cbn [num_of int_of].
  replace (Qle_bool 0 (inject_Z (Z.of_nat c)) && Qle_bool (inject_Z (Z.of_nat c)) (inject_Z (Z.of_nat (length population))))
    with true.
  2:{ symmetry. apply andb_true_iff. split; apply Qle_bool_iff;
        [change 0 with (inject_Z 0) |]; rewrite <- Zle_Qle; lia. }
  cbn [negb]. rewrite Nat2Z.id.
  set (N := length population) in *.
  match goal with
  | |- exists out st', runStateT (?F O c population) st = inr (out, st') /\ _ =>
    assert (Hgo : forall fuel i pool st, length pool = N -> (i + fuel <= N)%nat ->
      exists out st', runStateT (F i fuel pool) st = inr (out, st') /\
        length out = fuel /\ incl out (firstn (N - i) pool) /\
        (NoDup (firstn (N - i) pool) -> NoDup out))
  end.
  { induction fuel as [| f IH]; intros i pool st0 Hl Hi.
    - exists [], st0. split; [reflexivity |]. split; [reflexivity |].
      split; [intros x [] | intros _; constructor].
    - pose proof (randbelow_range (Z.of_nat (N - i)) (snd st0) ltac:(lia)) as Hr.
      destruct (randbelow (Z.of_nat (N - i)) (snd st0)) as [j g'] eqn:Ej. simpl in Hr.
      cbn -[nth firstn skipn N]. rewrite Ej. cbn -[nth firstn skipn N].
      assert (Hj : (Z.to_nat j < N - i)%nat) by lia.
      destruct (nth_error pool (Z.to_nat j)) as [p |] eqn:Ep;
        [| exfalso; apply nth_error_None in Ep; lia].
      cbn -[nth firstn skipn N].
      pose proof (pool_step pool (N - i) (Z.to_nat j) PNone p ltac:(lia) Hj Ep) as Hperm.
      match goal with
      | |- context [runStateT (?Gf (S i) f ?pl) ?s] =>
        assert (Hpl : length pl = N)
          by (rewrite length_app, length_firstn; cbn [length]; rewrite length_skipn; lia);
        destruct (IH (S i) pl s Hpl ltac:(lia)) as [out [st' [E [Lo [Io No]]]]];
        assert (E' : runStateT (Gf (S i) f pl) s = inr (out, st')) by exact E;
        rewrite E';
        replace (N - S i)%nat with (N - i - 1)%nat in Io, No by lia
      end.
      exists (p :: out), st'. split; [reflexivity |]. split; [simpl; lia |].
      split.
      + intros x [<- | Hx].
        * apply (Permutation_in _ Hperm). apply in_or_app; right; left; reflexivity.
        * apply (Permutation_in _ Hperm). apply in_or_app; left. exact (Io x Hx).
      + intros Hnd. apply (Permutation_NoDup (Permutation_sym Hperm)) in Hnd.
        apply NoDup_app_remove_r in Hnd as Hnd1. pose proof Hnd as Hnd2.
        apply NoDup_remove_2 in Hnd2. rewrite app_nil_r in Hnd2.
        constructor; [intros Hin; apply Hnd2; apply Io; exact Hin | apply No; exact Hnd1]. }
  destruct (Hgo c O population st eq_refl ltac:(lia)) as [out [st' [E [Lo [Io No]]]]].
  replace (firstn (N - 0) population) with population in Io, No
    by (rewrite Nat.sub_0_r; symmetry; apply firstn_all).
  exists out, st'. split; [exact E |]. split; [exact Lo |]. split; assumption.
Qed.
End Sample.

Lemma Qlt_bool_inject_Z (a b : Z) : Qlt_bool (inject_Z a) (inject_Z b) = (a <? b)%Z.
Proof.
  unfold Qlt_bool, Qle_bool. cbn [Qnum Qden inject_Z]. rewrite !Z.mul_1_r.
  rewrite Z.ltb_antisym. reflexivity.
Qed.

Section ItemsCount.
Context {G : Type} `{PyRandomValid G}.

(** [random_items_count(items, count)] on a list, or on a dict through
    its keys: when [count] is at least the number of items it returns them
    all, in order, without drawing; otherwise, when there are at most 21
    items (so that [random.sample] takes its pool method), it returns
    [count] of them, pairwise distinct when the items are.  Anything else
    raises [ValueError]. *)
Theorem random_items_count_spec (items : pyval) (l : list pyval) (c : nat) (st : Auto * G)
  (Hl : items = PList l \/ exists d, items = PDict d /\ l = dkeys d) :
  ((length l <= c)%nat ->
   runStateT (random_items_count items (PInt (Z.of_nat c))) st = inr (l, st)) /\
  ((c < length l)%nat -> (length l <= 21)%nat ->
   exists out st', runStateT (random_items_count items (PInt (Z.of_nat c))) st = inr (out, st') /\
     length out = c /\ incl out l /\ (NoDup l -> NoDup out)) /\
  (forall v count, is_list v = false -> is_dict v = false ->
   runStateT (random_items_count v count) st = inl ValueError).
Proof.
  assert (Hit : runStateT (random_items_count items (PInt (Z.of_nat c))) st =
                runStateT (random_items_count (PList l) (PInt (Z.of_nat c))) st).
  { destruct Hl as [-> | [d [-> ->]]]; reflexivity. }
  rewrite Hit. unfold random_items_count. cbn [runStateT bind Monad_stateT lift py_lt num_of].
  rewrite Qlt_bool_inject_Z.
  split; [| split].
  - intros Hle. replace (Z.of_nat c <? Z.of_nat (length l))%Z with false by (symmetry; apply Z.ltb_ge; lia).
    reflexivity.
  - intros Hlt _. replace (Z.of_nat c <? Z.of_nat (length l))%Z with true by (symmetry; apply Z.ltb_lt; lia).
    exact (sample_pool l c st (Nat.lt_le_incl _ _ Hlt)).
  - intros v count Hv Hd. destruct v; try discriminate; reflexivity.
Qed.

End ItemsCount.

Lemma random_weight_count_draws_witness :
  exists l st', runStateT (random_weight_count (PDict [(PStr "a", PInt 1); (PStr "b", PInt 0)])
                             (PInt (Z.of_nat 2)))
                  (auto_with (PDict []) (PDict []) PNone, mkDraws [1 # 2; 0] []) = inr (l, st') /\
                length l = 2%nat /\ incl l (dkeys [(PStr "a", PInt 1); (PStr "b", PInt 0)]).
Proof.
  refine (proj1 (random_weight_count_draws _ 2 _ _ _)).
  - repeat constructor; eexists; (split; [reflexivity | vm_compute; discriminate]).
  - exists (PInt 1), 1. split; [left; reflexivity | split; reflexivity].
Defined.

Lemma random_weight_member_witness :
  exists x st', runStateT (random_weight (PList [PStr "x"; PStr "y"]))
                  (auto_with (PDict []) (PDict []) PNone, mkDraws [] [1%Z]) = inr (x, st') /\
                In x [PStr "x"; PStr "y"].
Proof.
  exact (proj1 (proj2 (random_weight_member (auto_with (PDict []) (PDict []) PNone, mkDraws [] [1%Z])))
           [PStr "x"; PStr "y"] ltac:(discriminate)).
Defined.

Lemma seed_int_range_witness :
  exists z st', runStateT seed_int (auto_with (PDict []) (PDict []) PNone, mkDraws [] [42%Z])
                = inr (z, st') /\ (0 <= z <= 2 ^ 64 - 1)%Z.
Proof.
  exact (seed_int_range (auto_with (PDict []) (PDict []) PNone, mkDraws [] [42%Z])).
Defined.

Lemma random_dict_weight_draws_witness :
  exists l st', runStateT (random_dict_weight
                             (PDict [(PStr "a", PDict [(PStr "weight", PInt 2)]); (PStr "b", PDict [])])
                             (PStr "weight") (PInt (Z.of_nat 1)))
                  (auto_with (PDict []) (PDict []) PNone, mkDraws [1 # 3] []) = inr (l, st') /\
    length l = 1%nat /\
    forall k, In k l -> exists v, In (k, v) [(PStr "a", PDict [(PStr "weight", PInt 2)]); (PStr "b", PDict [])] /\
                            py_contains v (PStr "weight") = inr true.
Proof.
  refine (proj2 (random_dict_weight_draws _ [(PStr "a", PInt 2)] _ 1 _ _) _ _).
  - reflexivity.
  - repeat constructor; eexists; (split; [reflexivity | vm_compute; discriminate]).
  - exists (PInt 2), 2. split; [left; reflexivity | split; reflexivity].
Defined.

Lemma random_items_count_spec_witness :
  exists out st', runStateT (random_items_count (PList [PStr "a"; PStr "b"; PStr "c"]) (PInt (Z.of_nat 2)))
                    (auto_with (PDict []) (PDict []) PNone, mkDraws [] [2%Z; 0%Z]) = inr (out, st') /\
    length out = 2%nat /\ incl out [PStr "a"; PStr "b"; PStr "c"] /\
    (NoDup [PStr "a"; PStr "b"; PStr "c"] -> NoDup out).
Proof.
  refine (proj1 (proj2 (random_items_count_spec _ [PStr "a"; PStr "b"; PStr "c"] 2 _ _)) _ _).
  - left; reflexivity.
  - simpl; lia.
  - simpl; lia.
Defined.
Section FrameLemmas.
Context {G : Type} `{PyRandom G}.

Lemma run_bind_inv {A B : Type} (m : @M G A) (k : A -> @M G B) (st : Auto * G) (y : B) (st' : Auto * G) :
  runStateT (bind m k) st = inr (y, st') ->
  exists x st1, runStateT m st = inr (x, st1) /\ runStateT (k x) st1 = inr (y, st').
Proof. cbn. destruct (runStateT m st) as [e | [x st1]]; intros E; [discriminate | eauto]. Qed.

Lemma keeps_ret {A : Type} (x : A) : keeps_self (G:=G) (ret x).
Proof. intros st y st' E. cbn in E. injection E as _ <-. reflexivity. Qed.

Lemma keeps_lift {A : Type} (r : res A) : keeps_self (G:=G) (lift r).
Proof. intros st y st' E. cbn in E. destruct r; [discriminate |]. injection E as _ <-. reflexivity. Qed.

Lemma keeps_bind {A B : Type} (m : @M G A) (k : A -> @M G B) :
  keeps_self m -> (forall x, keeps_self (G:=G) (k x)) -> keeps_self (bind m k).
Proof.
  intros Hm Hk st y st' E. apply run_bind_inv in E as (x & st1 & E1 & E2).
  rewrite (Hk x _ _ _ E2). exact (Hm _ _ _ E1).
Qed.

Lemma keeps_rnd : keeps_self (G:=G) rnd.
Proof.
  intros [a g] y st' E. cbn in E. destruct (random g) as [u g1]. injection E as _ <-. reflexivity.
Qed.

Lemma keeps_rbelow (n : Z) : keeps_self (G:=G) (rbelow n).
Proof.
  intros [a g] y st' E. cbn in E. destruct (randbelow n g) as [j g1]. injection E as _ <-. reflexivity.
Qed.

Lemma keeps_throw {A : Type} (e : exn) : keeps_self (G:=G) (A:=A) (throw e).
Proof. apply keeps_lift. Qed.

End FrameLemmas.

Create HintDb keeps.
#[export] Hint Resolve keeps_ret keeps_lift keeps_rnd keeps_rbelow keeps_throw : keeps.

Ltac solve_keeps :=
  match goal with
  | |- keeps_self (bind _ _) => apply keeps_bind; [solve_keeps | intro; solve_keeps]
  | |- keeps_self (if ?b then _ else _) => destruct b; solve_keeps
  | |- keeps_self (match ?x with _ => _ end) => destruct x; solve_keeps
  | |- keeps_self (let (_, _) := ?x in _) => destruct x; solve_keeps
  | _ => solve [eauto with keeps]
  end.

Section FrameLemmas2.
Context {G : Type} `{PyRandom G}.

Lemma keeps_choice (l : list pyval) : keeps_self (G:=G) (choice l).
Proof. unfold choice. solve_keeps. Qed.

Lemma keeps_choices (pop ws : list pyval) (k : pyval) : keeps_self (G:=G) (choices pop ws k).
Proof.
  unfold choices. apply keeps_bind; [solve_keeps | intro cum].
  destruct (negb _); [solve_keeps |].
  destruct (rev cum) as [| total ?]; [solve_keeps |].
  destruct (Qle_bool total 0); [solve_keeps |].
  destruct (int_of k) as [kz |]; [| solve_keeps].
  generalize (Z.to_nat kz) as n. induction n as [| n IH]; [solve_keeps |].
  apply keeps_bind; [solve_keeps | intro u].
  destruct (nth_error _ _); [| solve_keeps].
  apply keeps_bind; [exact IH | intro; solve_keeps].
Qed.

Lemma keeps_random_weight_count (d c : pyval) : keeps_self (G:=G) (random_weight_count d c).
Proof. unfold random_weight_count. destruct d; try solve_keeps. destruct (forallb _ _); [apply keeps_choices | solve_keeps]. Qed.

Lemma keeps_choice_v (v : pyval) : keeps_self (G:=G) (choice_v v).
Proof. unfold choice_v. destruct v; try solve_keeps. apply keeps_choice. Qed.

Lemma keeps_first_of (l : list pyval) : keeps_self (G:=G) (first_of l).
Proof. unfold first_of. solve_keeps. Qed.

End FrameLemmas2.

#[export] Hint Resolve keeps_choice keeps_choices keeps_random_weight_count keeps_choice_v keeps_first_of : keeps.

Ltac keeps_frame E :=
  match type of E with
  | runStateT ?m _ = inr _ =>
      let K := fresh "K" in
      assert (K : keeps_self m) by solve_keeps; apply K in E; clear K
  end.

Section CharChange.
Context {G : Type} `{PyRandomValid G}.

Lemma gt_random_num (v : pyval) (q r : Q) : num_of v = Some q ->
  py_lt (PFloat r) v = inr (Qlt_bool r q).
Proof. intros Hq. exact (py_lt_num (PFloat r) v r q eq_refl Hq). Qed.

Ltac binv H := apply run_bind_inv in H as (? & ? & ? & H); cbv beta in H.

(** [char_change] with [noCharPer] a number [q]: when [q >= 1] every
    successful run sets [no_char] and names the character ["noChar"]; when
    [q <= 0] every successful run clears [no_char]. *)
Theorem char_change_no_char_per (a : Auto) (g : G) (v : pyval) (q : Q)
  (Hv : get_config a (PStr "noCharPer") (PFloat (1 # 2)) = inr v) (Hq : num_of v = Some q) :
  (1 <= q -> forall a' g', runStateT char_change (a, g) = inr (tt, (a', g')) ->
     no_char a' = true /\ char_name a' = PStr "noChar") /\
  (q <= 0 -> forall a' g', runStateT char_change (a, g) = inr (tt, (a', g')) ->
     no_char a' = false).
Proof.
  pose proof (random_range g) as Hr.
  destruct (random g) as [r g1] eqn:Eg. simpl in Hr. destruct Hr as [Hr0 Hr1].
  split; intros Hq1 a' g' Hrun; unfold char_change in Hrun.
  all: apply run_bind_inv in Hrun as (x1 & s1 & E1 & Hrun); cbv beta in Hrun;
    cbn in E1; injection E1 as <- <-.
  all: apply run_bind_inv in Hrun as (x2 & s2 & E2 & Hrun); cbv beta in Hrun;
    cbn -[get_config] in E2; rewrite Hv in E2; injection E2 as <- <-.
  all: apply run_bind_inv in Hrun as (x3 & s3 & E3 & Hrun); cbv beta in Hrun;
    cbn in E3; rewrite Eg in E3; injection E3 as <- <-.
  all: apply run_bind_inv in Hrun as (x4 & s4 & E4 & Hrun); cbv beta in Hrun;
    cbn -[py_lt] in E4; rewrite (gt_random_num v q r Hq) in E4; injection E4 as <- <-.
  all: apply run_bind_inv in Hrun as (x5 & s5 & E5 & Hrun); cbv beta in Hrun;
    cbn in E5; injection E5 as _ <-.
  all: apply run_bind_inv in Hrun as (x6 & s6 & E6 & Hrun); cbv beta in Hrun;
    cbn -[get_now] in E6; match type of E6 with context [get_now ?x ?y ?z] => destruct (get_now x y z) end; [discriminate |]; injection E6 as <- <-.
  all: apply run_bind_inv in Hrun as (x7 & s7 & E7 & Hrun); cbv beta in Hrun;
    cbn -[get_now] in E7; match type of E7 with context [get_now ?x ?y ?z] => destruct (get_now x y z) end; [discriminate |]; injection E7 as <- <-.
  - assert (Hlt : r < q) by (apply Qlt_le_trans with 1; assumption).
    rewrite (Qlt_bool_complete _ _ Hlt) in Hrun.
    apply run_bind_inv in Hrun as (x8 & s8 & E8 & Hrun); cbv beta in Hrun;
      cbn in E8; injection E8 as _ <-.
    apply run_bind_inv in Hrun as (x9 & s9 & E9 & Hrun); cbv beta in Hrun;
      cbn -[get_now] in E9; match type of E9 with context [get_now ?x ?y ?z] => destruct (get_now x y z) end; [discriminate |]; injection E9 as <- <-.
    apply run_bind_inv in Hrun as (x10 & s10 & E10 & Hrun); cbv beta in Hrun.
    keeps_frame E10. destruct s10 as [a10 g10]; cbn in E10; subst a10.
    cbn in Hrun. injection Hrun as <- <-. split; reflexivity.
  - assert (Hle : q <= r) by (apply Qle_trans with 0; assumption).
    rewrite (Qlt_bool_false_complete _ _ Hle) in Hrun.
    apply run_bind_inv in Hrun as (x8 & s8 & E8 & Hrun); cbv beta in Hrun;
      cbn -[get_config] in E8; match type of E8 with context [get_config ?x ?y ?z] => destruct (get_config x y z) end; [discriminate |]; injection E8 as <- <-.
    apply run_bind_inv in Hrun as (x9 & s9 & E9 & Hrun); cbv beta in Hrun; keeps_frame E9.
    apply run_bind_inv in Hrun as (x10 & s10 & E10 & Hrun); cbv beta in Hrun; keeps_frame E10.
    apply run_bind_inv in Hrun as (x11 & s11 & E11 & Hrun); cbv beta in Hrun; keeps_frame E11.
    apply run_bind_inv in Hrun as (x12 & s12 & E12 & Hrun); cbv beta in Hrun;
      cbn in E12; injection E12 as _ <-.
    apply run_bind_inv in Hrun as (x13 & s13 & E13 & Hrun); cbv beta in Hrun;
      cbn -[get_now] in E13; match type of E13 with context [get_now ?x ?y ?z] => destruct (get_now x y z) end; [discriminate |]; injection E13 as <- <-.
    cbn in Hrun. injection Hrun as <- <-. cbn. rewrite E11, E10, E9. reflexivity.
Qed.
End CharChange.

Section LoraChange.
Context {G : Type} `{PyRandomValid G}.

(** [lora_change] with [noLoraPer] a number [q >= 1] succeeds, empties the
    overlay set and [tive_weight], sets [no_lora], and changes nothing else
    in the object. *)
Theorem lora_change_no_lora_per (a : Auto) (g : G) (v : pyval) (q : Q)
  (Hv : get_config a (PStr "noLoraPer") (PFloat (1 # 2)) = inr v) (Hq : num_of v = Some q)
  (H1 : 1 <= q) :
  exists g', runStateT lora_change (a, g) =
    inr (tt, (upd_no_lora true (upd_loras_set [] (upd_tive_weight (PDict []) a)), g')).
Proof.
  pose proof (random_range g) as Hr.
  destruct (random g) as [r g1] eqn:Eg. simpl in Hr. destruct Hr as [Hr0 Hr1].
  assert (Hlt : r < q) by (apply Qlt_le_trans with 1; assumption).
  exists g1. unfold lora_change, get_config in *. cbn -[py_get py_lt]. rewrite Hv. cbn -[py_lt].
  rewrite Eg. cbn -[py_lt]. rewrite (gt_random_num v q r Hq), (Qlt_bool_complete _ _ Hlt).
  reflexivity.
Qed.
End LoraChange.

Lemma char_change_no_char_per_witness :
  exists a' g', runStateT char_change
      (auto_with (PDict [(PStr "noCharPer", PInt 1)]) (PDict []) PNone, mkDraws [1 # 2] []) =
      inr (tt, (a', g')) /\ no_char a' = true /\ char_name a' = PStr "noChar".
Proof.
  match goal with |- exists a' g', runStateT ?m ?s = _ /\ _ =>
    destruct (runStateT m s) as [e | [[] [a' g']]] eqn:E end;
    [vm_compute in E; discriminate |].
  exists a', g'. split; [reflexivity |].
  exact (proj1 (char_change_no_char_per
    (auto_with (PDict [(PStr "noCharPer", PInt 1)]) (PDict []) PNone) (mkDraws [1 # 2] [])
    (PInt 1) 1 eq_refl eq_refl) (Qle_refl 1) a' g' E).
Defined.

Lemma lora_change_no_lora_per_witness :
  exists g', runStateT lora_change
      (auto_with (PDict [(PStr "noLoraPer", PInt 1)]) (PDict []) PNone, mkDraws [1 # 2] []) =
    inr (tt, (upd_no_lora true (upd_loras_set [] (upd_tive_weight (PDict [])
      (auto_with (PDict [(PStr "noLoraPer", PInt 1)]) (PDict []) PNone))), g')).
Proof.
  exact (lora_change_no_lora_per
    (auto_with (PDict [(PStr "noLoraPer", PInt 1)]) (PDict []) PNone) (mkDraws [1 # 2] [])
    (PInt 1) 1 eq_refl eq_refl (Qle_refl 1)).
Defined.

Lemma update_dict_cons (d : pyval) (k v : pyval) (r : pydict) :
  update_dict d (PDict ((k, v) :: r)) =
  d' <- (if is_dict v then
           child <- py_get d k (PDict []) ;;
           child' <- update_dict child v ;;
           py_setitem d k child'
         else py_setitem d k v) ;;
  update_dict d' (PDict r).
Proof. reflexivity. Qed.

Lemma dlookup_dset_str_same (d : pydict) (s : string) (v : pyval) :
  dlookup (dset d (PStr s) v) (PStr s) = Some v.
Proof. apply dlookup_dset_same. apply String.eqb_refl. Qed.

(** [update_dict(d, u)] with a dict [u] whose keys are distinct strings:
    when it succeeds the result is a dict; a key [u] does not mention keeps
    its value from [d]; a key of [u] with a non-dict value gets that value;
    a key of [u] with a dict value gets [update_dict] of the old entry (or
    of an empty dict) with it. *)
Theorem update_dict_str_keys (e d : pydict) (r : pyval)
  (Hstr : Forall (fun kv => is_str (fst kv) = true) e) (Hnd : NoDup (dkeys e))
  (Hu : update_dict (PDict d) (PDict e) = inr r) :
  exists r', r = PDict r' /\
    (forall s : string, ~ In (PStr s) (dkeys e) -> dlookup r' (PStr s) = dlookup d (PStr s)) /\
    (forall (s : string) v, In (PStr s, v) e ->
       if is_dict v then
         exists c, update_dict (match dlookup d (PStr s) with Some x => x | None => PDict [] end) v = inr c /\
                   dlookup r' (PStr s) = Some c
       else dlookup r' (PStr s) = Some v).
Proof.
  revert d Hu. induction e as [| [k v] e IH]; intros d Hu.
  - cbn in Hu. injection Hu as <-. exists d. split; [reflexivity |]. split; [reflexivity |].
    intros s v [].
  - inversion Hstr as [| ? ? Hk Hstr']; subst. cbn [fst is_str] in Hk.
    destruct k as [| | | | s0 | |]; try discriminate. clear Hk.
    inversion Hnd as [| ? ? Hnin Hnd']; subst.
    rewrite update_dict_cons in Hu.
    assert (Hstep : exists w, (is_dict v = true ->
               update_dict (match dlookup d (PStr s0) with Some x => x | None => PDict [] end) v = inr w) /\
             (is_dict v = false -> w = v) /\
             update_dict (PDict (dset d (PStr s0) w)) (PDict e) = inr r).
    { destruct (is_dict v) eqn:Hv.
      - cbn in Hu.
        destruct (update_dict (match dlookup d (PStr s0) with Some x => x | None => PDict [] end) v)
          as [ex | w] eqn:Ew; [discriminate |].
        exists w. split; [reflexivity |]. split; [discriminate | exact Hu].
      - cbn in Hu. exists v. split; [discriminate |]. split; [reflexivity | exact Hu]. }
    destruct Hstep as (w & Hw1 & Hw2 & Hrest).
    destruct (IH Hstr' Hnd' _ Hrest) as (r' & -> & Hout & Hin).
    exists r'. split; [reflexivity |]. split.
    + intros s Hs. cbn [dkeys map fst] in Hs.
      rewrite Hout by (intros H'; apply Hs; right; exact H').
      apply dlookup_dset_str_other. apply String.eqb_neq. intros ->. apply Hs. left. reflexivity.
    + intros s v' [Hh | Ht].
      * injection Hh as <- <-.
        rewrite (Hout s0 Hnin), dlookup_dset_str_same.
        destruct (is_dict v) eqn:Hv; [exists w; split; [apply Hw1 | ]; reflexivity | rewrite Hw2; reflexivity].
      * assert (Hne : String.eqb s s0 = false).
        { apply String.eqb_neq. intros ->. apply Hnin. apply (in_map fst) in Ht. exact Ht. }
        specialize (Hin s v' Ht). rewrite (dlookup_dset_str_other d s0 s w Hne) in Hin. exact Hin.
Qed.

Lemma update_dict_str_keys_witness :
  exists r r', update_dict (PDict [(PStr "a", PInt 1); (PStr "b", PDict [(PStr "x", PInt 2)])])
                           (PDict [(PStr "b", PDict [(PStr "y", PInt 3)])]) = inr r /\ r = PDict r' /\
    dlookup r' (PStr "a") = Some (PInt 1).
Proof.
  match goal with |- exists r r', update_dict (PDict ?d) (PDict ?e) = _ /\ _ =>
    destruct (update_dict (PDict d) (PDict e)) as [ex | r] eqn:E;
    [vm_compute in E; discriminate |];
    destruct (update_dict_str_keys e d r
                ltac:(repeat constructor) ltac:(repeat constructor; cbn; intuition discriminate) E)
      as (r' & Hr & Hout & _)
  end.
  exists r, r'. split; [reflexivity | split; [exact Hr |]].
  rewrite Hout; [reflexivity |]. cbn. intuition discriminate.
Defined.
Lemma kept_items_origin (body : pyval -> pyval -> res (option pyval)) (snap fm : pydict) :
  kept_items body snap = inr fm ->
  forall k v', In (k, v') fm -> exists v, In (k, v) snap /\ body k v = inr (Some v').
Proof.
  revert fm; induction snap as [| [k v] rest IH]; intros fm; cbn [kept_items].
  - intros H; injection H as <-; intros ? ? [].
  - destruct (body k v) as [e | o] eqn:Hb; [discriminate |]; rewrite bind_inr_res.
    destruct (kept_items body rest) as [e | r] eqn:Hr; [discriminate |]; rewrite bind_inr_res.
    intros H; injection H as <-. intros k0 v0 Hin.
    destruct o as [v' |]; [destruct Hin as [Hh | Hin] |].
    + injection Hh as <- <-. exists v. split; [left; reflexivity | exact Hb].
    + destruct (IH r eq_refl k0 v0 Hin) as (w & Hw & Hbw). exists w. split; [right; exact Hw | exact Hbw].
    + destruct (IH r eq_refl k0 v0 Hin) as (w & Hw & Hbw). exists w. split; [right; exact Hw | exact Hbw].
Qed.

Lemma filter_res_sound {A : Type} (f : A -> res bool) (l l' : list A) :
  filter_res f l = inr l' -> forall x, In x l' -> In x l /\ f x = inr true.
Proof.
  revert l'; induction l as [| y r IH]; intros l'; cbn [filter_res].
  - intros H; injection H as <-; intros x [].
  - destruct (f y) as [e | b] eqn:Hf; [discriminate |]; rewrite bind_inr_res.
    destruct (filter_res f r) as [e | r'] eqn:Hr; [discriminate |]; rewrite bind_inr_res.
    intros H; injection H as <-. intros x Hx.
    destruct b; [destruct Hx as [<- | Hx] |].
    + split; [left; reflexivity | exact Hf].
    + destruct (IH r' eq_refl x Hx) as [Hi Hx']. split; [right; exact Hi | exact Hx'].
    + destruct (IH r' eq_refl x Hx) as [Hi Hx']. split; [right; exact Hi | exact Hx'].
Qed.

Lemma filter_loras_sound (names loras r : pyval) :
  filter_loras names loras = inr r -> forall x, In x (lora_names r) -> py_contains names x = inr true.
Proof.
  destruct loras as [| | | | s | l | d]; cbn [filter_loras].
  1-4: intros H; injection H as <-; intros x [].
  - destruct (py_contains names (PStr s)) as [e | b] eqn:Hb; [discriminate |].
    rewrite bind_inr_res. intros H; injection H as <-. destruct b; [| intros x []].
    intros x [<- | []]. exact Hb.
  - destruct (filter_res (fun x => py_contains names x) l) as [e | l'] eqn:Hf; [discriminate |].
    rewrite bind_inr_res. intros H; injection H as <-. intros x Hx.
    exact (proj2 (filter_res_sound _ _ _ Hf x Hx)).
  - destruct (filter_res (fun kv => py_contains names (fst kv)) d) as [e | d'] eqn:Hf; [discriminate |].
    rewrite bind_inr_res. intros H; injection H as <-. intros x Hx.
    cbn [lora_names dkeys] in Hx. apply in_map_iff in Hx as ([k v] & <- & Hkv).
    exact (proj2 (filter_res_sound _ _ _ Hf _ Hkv)).
Qed.

Lemma clean_candidate_sound (names k2 v2 v2' : pyval) :
  clean_candidate names k2 v2 = inr (Some v2') ->
  exists d2 loras, v2' = PDict d2 /\ dlookup d2 (PStr "loras") = Some loras /\ truthy loras = true /\
    forall x, In x (lora_names loras) -> py_contains names x = inr true.
Proof.
  unfold clean_candidate.
  destruct v2 as [| | | | | | d]; try (cbn; discriminate).
  cbn [py_get hashable]; rewrite ?bind_ret_res.
  destruct (negb _ && negb _); [cbn; discriminate |]. cbv beta iota.
  destruct (filter_loras names _) as [e | lt] eqn:Hf; [discriminate |]. rewrite bind_inr_res.
  destruct (truthy lt) eqn:Ht; cbn [negb]; cbv beta iota; [| discriminate].
  cbn [py_setitem hashable]. rewrite bind_ret_res. intros H; injection H as <-.
  exists (dset d (PStr "loras") lt), lt. split; [reflexivity |].
  split; [apply dlookup_dset_same; reflexivity |]. split; [exact Ht |].
  exact (filter_loras_sound _ _ _ Hf).
Qed.

Lemma clean_rule_sound (names k1 v1 v1' : pyval) :
  dic_wf v1 = true -> clean_rule names k1 v1 = inr (Some v1') ->
  forall d1, v1' = PDict d1 ->
  exists dic', dlookup d1 (PStr "dic") = Some (PDict dic') /\ dic' <> [] /\
    forall k2 v2, In (k2, v2) dic' ->
      exists d2 loras, v2 = PDict d2 /\ dlookup d2 (PStr "loras") = Some loras /\ truthy loras = true /\
        forall x, In x (lora_names loras) -> py_contains names x = inr true.
Proof.
  destruct v1 as [| | | | | | d]; try (cbn; intros _ H; injection H as <-; discriminate).
  intros HP; unfold clean_rule; cbn [is_dict negb py_get hashable]; cbv beta iota.
  rewrite ?bind_ret_res; cbn [dic_wf] in HP.
  destruct (dlookup d (PStr "dic")) as [[| | | | | | e] |] eqn:Hdic; try discriminate.
  - rewrite ?bind_ret_res, (visit_items_kept_all _ _ HP).
    destruct (kept_items (clean_candidate names) e) as [err | fm] eqn:Hk; [discriminate |].
    rewrite bind_inr_res.
    destruct (truthy (PDict fm)) eqn:Ht; cbn [negb]; cbv beta iota; [| discriminate].
    cbn [py_setitem hashable]; rewrite ?bind_ret_res.
    intros H d1 Hd1; injection H as <-; injection Hd1 as <-.
    exists fm. split; [apply dlookup_dset_same; reflexivity |]. split.
    + intros ->. discriminate.
    + intros k2 v2 Hin. destruct (kept_items_origin _ _ _ Hk k2 v2 Hin) as (v & _ & Hb).
      exact (clean_candidate_sound _ _ _ _ Hb).
Qed.

(** After [_clean_weight_lora]'s pruning pass succeeds, every rule left
    that is a dict has a non-empty [dic], and every candidate in it is a
    dict whose [loras] entry is non-empty and names only assets of
    [lora_file_names]. *)
Theorem clean_weight_lora_sound (lora_file_names weight_lora weight_lora' : pyval)
  (Hwf : rules_wf weight_lora = true)
  (Hc : clean_weight_lora lora_file_names weight_lora = inr weight_lora') :
  forall wl' k1 d1, weight_lora' = PDict wl' -> In (k1, PDict d1) wl' ->
  exists dic', dlookup d1 (PStr "dic") = Some (PDict dic') /\ dic' <> [] /\
    forall k2 v2, In (k2, v2) dic' ->
      exists d2 loras, v2 = PDict d2 /\ dlookup d2 (PStr "loras") = Some loras /\ truthy loras = true /\
        forall x, In x (lora_names loras) -> py_contains lora_file_names x = inr true.
Proof.
  intros wl' k1 d1 Hw Hin. unfold clean_weight_lora in Hc.
  destruct (truthy weight_lora) eqn:Htw; cbn [negb] in Hc; cbv beta iota in Hc.
  - destruct weight_lora as [| | | | | | d]; try discriminate.
    cbn [rules_wf] in Hwf; apply andb_prop in Hwf as [Hu Hall].
    rewrite (visit_items_kept_all _ _ Hu) in Hc.
    destruct (kept_items (clean_rule lora_file_names) d) as [e | fm] eqn:Hk; [discriminate |].
    rewrite bind_inr_res in Hc; injection Hc as <-. injection Hw as <-.
    destruct (kept_items_origin _ _ _ Hk k1 (PDict d1) Hin) as (v & Hv & Hb).
    rewrite forallb_forall in Hall.
    exact (clean_rule_sound _ _ _ _ (Hall (k1, v) Hv) Hb d1 eq_refl).
  - injection Hc as <-. subst weight_lora. cbn in Htw. destruct wl'; [destruct Hin | discriminate].
Qed.

Lemma clean_weight_lora_sound_witness :
  exists r, clean_weight_lora (PList [PStr "la"])
    (PDict [(PStr "r", PDict [(PStr "dic", PDict
       [(PStr "c1", PDict [(PStr "weight", PInt 1);
                           (PStr "loras", PDict [(PStr "la", PInt 1); (PStr "zz", PInt 1)])]);
        (PStr "c2", PDict [(PStr "per", PInt 0)])])])]) = inr r /\
    exists dic', In (PStr "r", PDict [(PStr "dic", PDict dic')]) (match r with PDict w => w | _ => [] end) /\
                 dic' <> [].
Proof.
  match goal with |- exists r, clean_weight_lora ?n ?w = _ /\ _ =>
    destruct (clean_weight_lora n w) as [e | r] eqn:E; [vm_compute in E; discriminate |];
    pose proof (clean_weight_lora_sound n w r eq_refl E) as S
  end.
  exists r. split; [reflexivity |].
  vm_compute in E. injection E as <-.
  destruct (S _ _ _ eq_refl (or_introl eq_refl)) as (dic' & Hd & Hne & _).
  exists dic'. split; [| exact Hne].
  cbn in Hd. injection Hd as <-. left; reflexivity.
Defined.

Lemma slookup_sset (d : list (string * string)) (k v n : string) :
  slookup (sset d k v) n = if String.eqb n k then Some v else slookup d n.
Proof.
  induction d as [| [k' v'] r IH]; cbn [sset slookup]; [reflexivity |].
  destruct (String.eqb k k') eqn:E.
  - apply String.eqb_eq in E; subst k'. cbn [slookup]. destruct (String.eqb n k); reflexivity.
  - cbn [slookup]. rewrite IH. destruct (String.eqb n k') eqn:E1; [| reflexivity].
    apply String.eqb_eq in E1; subst n. rewrite String.eqb_sym, E. reflexivity.
Qed.

Lemma sset_keys_nodup (d : list (string * string)) (k v : string) :
  NoDup (map fst d) -> NoDup (map fst (sset d k v)).
Proof.
  induction d as [| [k' v'] r IH]; cbn [sset map fst]; intros Hnd.
  - constructor; [intros [] | constructor].
  - inversion Hnd as [| ? ? Hn Hr]; subst.
    destruct (String.eqb k k') eqn:E; cbn [map fst]; constructor; auto.
    intros Hin. apply Hn. clear -Hin E.
    induction r as [| [k2 v2] r IH]; cbn [sset map fst] in *.
    + destruct Hin as [-> | []]. rewrite String.eqb_refl in E. discriminate.
    + destruct (String.eqb k k2); cbn [map fst] in Hin; destruct Hin as [-> | Hin]; auto.
  all: cbn [In]; tauto.
Qed.

Lemma last_with_stem_cons (n f : string) (fs : list string) :
  last_with_stem n (f :: fs) =
  match last_with_stem n fs with
  | Some p => Some p
  | None => if String.eqb (path_stem f) n then Some f else None
  end.
Proof.
  unfold last_with_stem; cbn [filter].
  destruct (String.eqb (path_stem f) n); cbn [rev];
    destruct (rev (filter (fun f => String.eqb (path_stem f) n) fs)); reflexivity.
Qed.

Lemma fold_sset_lookup (files : list string) (d : list (string * string)) (n : string) :
  slookup (fold_left (fun d np => sset d (fst np) (snd np)) (combine (map path_stem files) files) d) n =
  match last_with_stem n files with Some p => Some p | None => slookup d n end.
Proof.
  revert d. induction files as [| f fs IH]; intros d; [reflexivity |].
  cbn [map combine fold_left fst snd]. rewrite IH, slookup_sset, last_with_stem_cons.
  destruct (last_with_stem n fs); [reflexivity |].
  rewrite String.eqb_sym. destruct (String.eqb (path_stem f) n); reflexivity.
Qed.

(** [get_file_dict_list]: the name-to-path dict has no repeated name, and
    looking up a name gives the last file of that stem in [rglob] order
    ([None] for a name no file has); the name and path lists keep every file. *)
Theorem get_file_dict_list_spec (files : list string) :
  NoDup (map fst (file_dics (get_file_dict_list files))) /\
  (forall n, slookup (file_dics (get_file_dict_list files)) n = last_with_stem n files) /\
  file_lists (get_file_dict_list files) = files /\
  file_names (get_file_dict_list files) = map path_stem files.
Proof.
  split; [| split; [| split; reflexivity]].
  - cbn [get_file_dict_list file_dics].
    assert (H : forall l (d : list (string * string)), NoDup (map fst d) ->
              NoDup (map fst (fold_left (fun d np => sset d (fst np) (snd np)) l d))).
    { induction l as [| np l IH]; intros d Hd; [exact Hd |]. cbn [fold_left].
      apply IH, sset_keys_nodup, Hd. }
    apply H. constructor.
  - intros n. cbn [get_file_dict_list file_dics]. rewrite fold_sset_lookup.
    destruct (last_with_stem n files); reflexivity.
Qed.

Lemma dlookup_str_absent (r : pydict) (t : string) :
  str_keys r = true -> forallb (fun kv => negb (py_eq (fst kv) (PStr t))) r = true ->
  dlookup r (PStr t) = None.
Proof.
  induction r as [| [k v] r IH]; [reflexivity |]; cbn [str_keys forallb fst] in *.
  intros Hs Hn. apply andb_prop in Hs as [Hk Hs]. apply andb_prop in Hn as [Hkn Hn].
  destruct k as [| | | | u | |]; try discriminate. cbn [dlookup].
  change (py_eq (PStr t) (PStr u)) with (String.eqb t u).
  change (py_eq (PStr u) (PStr t)) with (String.eqb u t) in Hkn.
  apply negb_true_iff in Hkn. rewrite String.eqb_sym, Hkn. exact (IH Hs Hn).
Qed.

Lemma fold_dset_lookup_str (d r : pydict) (s : string) :
  str_keys d = true -> keys_unique d = true ->
  dlookup (fold_left (fun acc kv => dset acc (fst kv) (snd kv)) d r) (PStr s) =
  match dlookup d (PStr s) with Some v => Some v | None => dlookup r (PStr s) end.
Proof.
  revert r. induction d as [| [k v] d IH]; intros r Hs Hu; [reflexivity |].
  cbn [str_keys forallb fst keys_unique fold_left snd] in *.
  apply andb_prop in Hs as [Hk Hs]. apply andb_prop in Hu as [Hu1 Hu]. apply andb_prop in Hu1 as [_ Hn].
  destruct k as [| | | | t | |]; try discriminate.
  rewrite (IH _ Hs Hu). cbn [dlookup].
  change (py_eq (PStr s) (PStr t)) with (String.eqb s t).
  destruct (String.eqb s t) eqn:E.
  - apply String.eqb_eq in E; subst t.
    rewrite (dlookup_str_absent d s Hs Hn). apply dlookup_dset_str_same.
  - destruct (dlookup d (PStr s)); [reflexivity |].
    apply dlookup_dset_str_other. exact E.
Qed.

(** [YAMLHandler.merge_yml_files] on loaded documents that are each empty
    ([None] for a missing file) or a dict with string keys: the merge
    succeeds, and a key's value is the one of the last document that has it. *)
Theorem merge_yml_files_lookup (docs : list pyval) (Hok : forallb yml_doc_ok docs = true) :
  exists r, merge_yml_files docs = inr (PDict r) /\
    forall s : string, dlookup r (PStr s) = yml_value docs s.
Proof.
  assert (G : forall result, exists r, merge_yml_go docs result = inr r /\
            forall s : string, dlookup r (PStr s) = fold_left (yml_step s) docs (dlookup result (PStr s))).
  { induction docs as [| doc docs IH]; intros result.
    - exists result. split; reflexivity.
    - cbn [forallb] in Hok. apply andb_prop in Hok as [Hd Hok].
      cbn [merge_yml_go fold_left].
      unfold yml_doc_ok in Hd. destruct (truthy doc) eqn:Ht; cbn [negb orb] in Hd.
      + destruct doc as [| | | | | | d]; try discriminate. apply andb_prop in Hd as [Hs Hu].
        cbn [dict_update]. rewrite bind_ret_res.
        destruct (IH Hok (fold_left (fun acc kv => dset acc (fst kv) (snd kv)) d result)) as (r & Hr & Hl).
        exists r. split; [exact Hr |]. intros s. rewrite Hl, fold_dset_lookup_str by assumption.
        reflexivity.
      + rewrite bind_ret_res. destruct (IH Hok result) as (r & Hr & Hl).
        exists r. split; [exact Hr |]. intros s. rewrite Hl. f_equal.
        destruct doc as [| | | | | | d]; try reflexivity.
        destruct d; [reflexivity | discriminate]. }
  destruct (G []) as (r & Hr & Hl). exists r. unfold merge_yml_files. rewrite Hr. split; [reflexivity |].
  exact Hl.
Qed.

Lemma merge_yml_files_lookup_witness :
  exists r, merge_yml_files [PDict [(PStr "a", PInt 1); (PStr "b", PInt 2)]; PNone;
                             PDict [(PStr "b", PInt 3)]] = inr (PDict r) /\
    dlookup r (PStr "b") = Some (PInt 3).
Proof.
  destruct (merge_yml_files_lookup [PDict [(PStr "a", PInt 1); (PStr "b", PInt 2)]; PNone;
                                    PDict [(PStr "b", PInt 3)]] eq_refl) as (r & Hr & Hl).
  exists r. split; [exact Hr | rewrite Hl; reflexivity].
Defined.

Ltac run_step H v E :=
  apply run_bind_inv in H as (v & ? & E & H); cbv beta in H.

Ltac keep_name Ev :=
  lazymatch type of Ev with
  | ?t = ?v => first [is_var t; subst t | subst v]
  end.

Ltac pure_inv E :=
  cbn -[get_now get_config get_nested py_contains py_len not_weighted] in E;
  lazymatch type of E with
  | match ?r with inl _ => _ | inr _ => _ end = inr _ =>
      let Hr := fresh "Hr" in let Ev := fresh "Ev" in
      destruct r eqn:Hr; [discriminate |]; injection E as Ev <-; keep_name Ev
  | inr _ = inr _ => let Ev := fresh "Ev" in injection E as Ev <-; keep_name Ev
  end.

Section CheckpointChange.
Context {G : Type} `{PyRandom G}.

Lemma checkpoint_start_true (cts : pyval) (a a1 : Auto) (g g1 : G) :
  runStateT (checkpoint_start cts) (a, g) = inr (true, (a1, g1)) ->
  truthy (checkpoint_path a1) = true /\
  get_now a1 [PStr "CheckpointFileDics"; checkpoint_name a1] PNone = inr (checkpoint_path a1).
Proof.
  intros Hrun. unfold checkpoint_start in Hrun.
  run_step Hrun v1 E1. pure_inv E1.
  destruct (is_first v1); [| cbn in Hrun; discriminate].
  run_step Hrun v2 E2. pure_inv E2.
  run_step Hrun v3 E3. pure_inv E3.
  destruct (truthy v3) eqn:Ht; [| cbn in Hrun; discriminate].
  destruct v3 as [| | | | p | |]; try (cbn in Hrun; discriminate).
  run_step Hrun v4 E4. destruct (map PStr (path_parts p)) as [| part0 ?] eqn:Hp; [cbn in E4; discriminate |].
  pure_inv E4.
  run_step Hrun v5 E5. pure_inv E5.
  run_step Hrun v6 E6.
  destruct (Nat.eqb _ 2).
  - run_step E6 v7 E7. pure_inv E7. pure_inv E6.
    destruct (v7 && truthy v5) eqn:Hok; [| cbn in Hrun; discriminate].
    apply andb_prop in Hok as [_ Hck].
    run_step Hrun v8 E8. pure_inv E8.
    run_step Hrun v9 E9. pure_inv E9.
    run_step Hrun v10 E10. pure_inv E10.
    run_step Hrun v11 E11. cbn -[get_nested] in E11. unfold get_now in E11. cbn -[get_nested] in E11.
    rewrite Hr0 in E11. injection E11 as <- <-.
    run_step Hrun v12 E12. pure_inv E12. cbn in Hrun. injection Hrun as <- <-.
    split; [exact Hck |]. unfold get_now. cbn -[get_nested]. rewrite Hr0. reflexivity.
  - pure_inv E6. cbn in Hrun. discriminate.
Qed.
(** After [checkpoint_change] succeeds, [checkpoint_path] is truthy and is
    the [CheckpointFileDics] entry of the chosen name under the chosen type,
    whether it came from [safetensorsStart] or from the random draw. *)
Theorem checkpoint_change_path (a a' : Auto) (g g' : G)
  (Hrun : runStateT checkpoint_change (a, g) = inr (tt, (a', g'))) :
  truthy (checkpoint_path a') = true /\
  get_now a' [PStr "CheckpointFileDics"; checkpoint_name a'] PNone = inr (checkpoint_path a').
Proof.
  unfold checkpoint_change in Hrun.
  run_step Hrun v1 E1. pure_inv E1.
  run_step Hrun v2 E2. pure_inv E2.
  run_step Hrun v3 E3. destruct v3.
  { cbn in Hrun. injection Hrun as ->. exact (checkpoint_start_true _ _ _ _ _ E3). }
  destruct x as [a3 g3].
  run_step Hrun v4 E4. keeps_frame E4. destruct x as [a4 g4]; cbn in E4; subst a4.
  run_step Hrun v5 E5. keeps_frame E5. destruct x as [a5 g5]; cbn in E5; subst a5.
  run_step Hrun v6 E6. pure_inv E6.
  run_step Hrun v7 E7. pure_inv E7.
  run_step Hrun v8 E8. keeps_frame E8. destruct x as [a8 g8]; cbn in E8; subst a8.
  run_step Hrun v9 E9. pure_inv E9.
  run_step Hrun v10 E10. pure_inv E10.
  run_step Hrun v11 E11. pure_inv E11.
  run_step Hrun v12 E12. pure_inv E12.
  destruct (negb (truthy v12)); [cbn in Hrun; discriminate |].
  run_step Hrun v13 E13. keeps_frame E13. destruct x as [a13 g13]; cbn in E13; subst a13.
  run_step Hrun v14 E14. pure_inv E14.
  run_step Hrun v15 E15. pure_inv E15.
  run_step Hrun v16 E16. cbn -[get_now] in E16.
  destruct (get_now _ [PStr "CheckpointFileDics"; v13] PNone) as [e | path] eqn:Hpath; [discriminate |].
  injection E16 as <- <-.
  run_step Hrun v17 E17. pure_inv E17.
  destruct (truthy path) eqn:Ht; cbn in Hrun; [| discriminate].
  injection Hrun as <- <-. split; [exact Ht |]. exact Hpath.
Qed.
End CheckpointChange.

Lemma checkpoint_change_path_witness :
  exists a' g', runStateT checkpoint_change
    (auto_with (PDict [(PStr "CheckpointTypes", PDict [(PStr "X", PInt 1)])])
       (PDict [(PStr "X", PDict [(PStr "CheckpointFileNames", PList [PStr "m1"]);
                                  (PStr "CheckpointFileDics", PDict [(PStr "m1", PStr "X/m1.safetensors")])])])
       PNone, mkDraws [1 # 2; 1 # 2] [0%Z]) = inr (tt, (a', g')) /\
    truthy (checkpoint_path a') = true.
Proof.
  match goal with |- exists a' g', runStateT ?m ?s = _ /\ _ =>
    destruct (runStateT m s) as [e | [[] [a' g']]] eqn:E end;
    [vm_compute in E; discriminate |].
  exists a', g'. split; [reflexivity |].
  exact (proj1 (checkpoint_change_path _ a' _ g' E)).
Defined.

Section KeepsMore.
Context {G : Type} `{PyRandom G}.

Lemma keeps_uniform (a b : Q) : keeps_self (G:=G) (uniform a b).
Proof. unfold uniform. solve_keeps. Qed.

Lemma keeps_randint (a b : Z) : keeps_self (G:=G) (randint a b).
Proof. unfold randint. solve_keeps. Qed.

End KeepsMore.

#[export] Hint Resolve keeps_uniform keeps_randint : keeps.

Section KeepsMore2.
Context {G : Type} `{PyRandom G}.

Lemma keeps_random_min_max (v : pyval) : keeps_self (G:=G) (random_min_max v).
Proof. unfold random_min_max. solve_keeps. Qed.

Lemma keeps_random_weight (i : pyval) : keeps_self (G:=G) (random_weight i).
Proof. unfold random_weight. destruct i; solve_keeps. Qed.

Lemma keeps_random_dict_weight (d wk c : pyval) : keeps_self (G:=G) (random_dict_weight d wk c).
Proof. unfold random_dict_weight. solve_keeps. Qed.

Lemma keeps_sample (population : list pyval) (k : pyval) : keeps_self (G:=G) (sample population k).
Proof.
  unfold sample. destruct (num_of k); [| solve_keeps].
  destruct (negb _); [solve_keeps |]. destruct (int_of k) as [kz |]; [| solve_keeps].
  match goal with |- keeps_self (?F O (Z.to_nat kz) population) =>
    assert (K : forall fuel i pool, keeps_self (F i fuel pool)); [| apply K] end.
  induction fuel as [| f IH]; intros i pool; [solve_keeps |].
  apply keeps_bind; [solve_keeps | intro j].
  destruct (nth_error pool (Z.to_nat j)); [| solve_keeps].
  apply keeps_bind; [apply IH | intro; solve_keeps].
Qed.
End KeepsMore2.

#[export] Hint Resolve keeps_random_min_max keeps_random_weight keeps_random_dict_weight keeps_sample : keeps.

Section KeepsMore3.
Context {G : Type} `{PyRandom G}.

Lemma keeps_random_items_count (items c : pyval) : keeps_self (G:=G) (random_items_count items c).
Proof. unfold random_items_count. solve_keeps. Qed.

Lemma keeps_per_loop (entries : pydict) (pf pm : pyval) (cnt : Z) (tmp : pydict) :
  keeps_self (G:=G) (per_loop entries pf pm cnt tmp).
Proof.
  revert cnt tmp. induction entries as [| [k2 v2] rest IH]; intros cnt tmp; cbn [per_loop]; [solve_keeps |].
  apply keeps_bind; [solve_keeps | intro stop]. destruct stop; [solve_keeps |].
  apply keeps_bind; [solve_keeps | intro pv]. apply keeps_bind; [solve_keeps | intro r].
  apply keeps_bind; [solve_keeps | intro hit]. destruct hit; [| apply IH].
  apply keeps_bind; [solve_keeps | intro l]. apply keeps_bind; [solve_keeps | intro lr].
  apply keeps_bind; [solve_keeps | intro tmp']. apply IH.
Qed.

Lemma keeps_weight_loop (dic : pyval) (keys : list pyval) (tmp : pydict) :
  keeps_self (G:=G) (weight_loop dic keys tmp).
Proof.
  revert tmp. induction keys as [| k2 rest IH]; intros tmp; cbn [weight_loop]; [solve_keeps |].
  apply keeps_bind; [solve_keeps | intro v2]. apply keeps_bind; [solve_keeps | intro l].
  apply keeps_bind; [solve_keeps | intro lr]. apply keeps_bind; [solve_keeps | intro tmp']. apply IH.
Qed.
End KeepsMore3.

#[export] Hint Resolve keeps_random_items_count keeps_per_loop keeps_weight_loop : keeps.

Section LoraFrameLemmas.
Context {G : Type} `{PyRandom G}.

Lemma keeps_get_self : keeps_self (G:=G) get_self.
Proof. intros st x st' E. cbn in E. injection E as _ <-. reflexivity. Qed.

Lemma lora_frame_keeps {A : Type} (m : @M G A) : keeps_self m -> lora_frame m.
Proof. intros K st x st' E. rewrite (K _ _ _ E). reflexivity. Qed.

Lemma lora_frame_bind {A B : Type} (m : @M G A) (k : A -> @M G B) :
  lora_frame m -> (forall x, lora_frame (k x)) -> lora_frame (bind m k).
Proof.
  intros Hm Hk st y st' E. apply run_bind_inv in E as (x & st1 & E1 & E2).
  rewrite (Hk x _ _ _ E2). exact (Hm _ _ _ E1).
Qed.

Lemma lora_frame_tive (tw : pyval) : lora_frame (G:=G) (modify_self (upd_tive_weight tw)).
Proof. intros st x st' E. cbn in E. injection E as _ <-. reflexivity. Qed.

Lemma lora_frame_loras (u : list pyval) : lora_frame (G:=G) (modify_self (upd_loras_set u)).
Proof. intros st x st' E. cbn in E. injection E as _ <-. reflexivity. Qed.
End LoraFrameLemmas.

#[export] Hint Resolve keeps_get_self : keeps.

Ltac solve_lora_frame :=
  match goal with
  | |- lora_frame (bind _ _) => apply lora_frame_bind; [solve_lora_frame | intro; solve_lora_frame]
  | |- lora_frame (if ?b then _ else _) => destruct b; solve_lora_frame
  | |- lora_frame (match ?x with _ => _ end) => destruct x; solve_lora_frame
  | |- lora_frame (modify_self (upd_tive_weight _)) => apply lora_frame_tive
  | |- lora_frame (modify_self (upd_loras_set _)) => apply lora_frame_loras
  | _ => apply lora_frame_keeps; solve_keeps
  end.

Section LoraRules.
Context {G : Type} `{PyRandom G}.

Lemma lora_frame_lora_rule (v1 : pyval) : lora_frame (G:=G) (lora_rule v1).
Proof. unfold lora_rule. solve_lora_frame. Qed.

Lemma lora_frame_lora_rules (rules : pydict) : lora_frame (G:=G) (lora_rules rules).
Proof.
  induction rules as [| [k1 v1] rest IH]; cbn [lora_rules]; [solve_lora_frame |].
  apply lora_frame_bind; [apply lora_frame_lora_rule | intro l].
  apply lora_frame_bind; [solve_lora_frame | intro a].
  apply lora_frame_bind; [solve_lora_frame | intro u].
  apply lora_frame_bind; [solve_lora_frame | intros _]. exact IH.
Qed.

Lemma lora_change_frame_gen (a a' : Auto) (g g' : G) :
  runStateT lora_change (a, g) = inr (tt, (a', g')) ->
  exists nl, no_lora a' = nl /\ clear_lora a' = clear_lora (upd_no_lora nl a).
Proof.
  intros Hrun. unfold lora_change in Hrun.
  run_step Hrun v1 E1. pure_inv E1.
  run_step Hrun v2 E2. pure_inv E2.
  run_step Hrun v3 E3. pure_inv E3.
  run_step Hrun v4 E4. pure_inv E4.
  run_step Hrun v5 E5. cbn in E5. destruct (random g) as [r g1]. injection E5 as <- <-.
  run_step Hrun v6 E6. pure_inv E6.
  run_step Hrun v7 E7. pure_inv E7.
  exists v6. destruct v6.
  - cbn in Hrun. injection Hrun as <- <-. split; reflexivity.
  - run_step Hrun v8 E8. pure_inv E8.
    destruct v8 as [| | | | | | rules]; try (cbn in Hrun; discriminate).
    pose proof (lora_frame_lora_rules rules _ _ _ Hrun) as Hf. cbn [fst] in Hf.
    split.
    + change (no_lora a') with (no_lora (clear_lora a')). rewrite Hf. reflexivity.
    + rewrite Hf. reflexivity.
Qed.
End LoraRules.

Section LoraChangeFrame.
Context {G : Type} `{PyRandom G}.

(** [lora_change] leaves the checkpoint and character selection and
    [is_first] as they were: the rule loop only rebinds [tive_weight] and
    [loras_set], and the call itself [no_lora]. *)
Theorem lora_change_frame (a a' : Auto) (g g' : G)
  (Hrun : runStateT lora_change (a, g) = inr (tt, (a', g'))) :
  is_first a' = is_first a /\ checkpoint_type a' = checkpoint_type a /\
  checkpoint_name a' = checkpoint_name a /\ checkpoint_path a' = checkpoint_path a /\
  char_name a' = char_name a /\ char_path a' = char_path a /\ no_char a' = no_char a.
Proof.
  destruct (lora_change_frame_gen a a' g g' Hrun) as (nl & _ & Hf).
  change (is_first a') with (is_first (clear_lora a')).
  change (checkpoint_type a') with (checkpoint_type (clear_lora a')).
  change (checkpoint_name a') with (checkpoint_name (clear_lora a')).
  change (checkpoint_path a') with (checkpoint_path (clear_lora a')).
  change (char_name a') with (char_name (clear_lora a')).
  change (char_path a') with (char_path (clear_lora a')).
  change (no_char a') with (no_char (clear_lora a')).
  rewrite Hf. repeat split.
Qed.
End LoraChangeFrame.

Section LoraChangeValid.
Context {G : Type} `{PyRandomValid G}.

(** [lora_change] with [noLoraPer] a number [q <= 0]: every successful run
    leaves [no_lora] false (the rule loop never writes it). *)
Theorem lora_change_no_lora_nonpos (a a' : Auto) (g g' : G) (v : pyval) (q : Q)
  (Hv : get_config a (PStr "noLoraPer") (PFloat (1 # 2)) = inr v) (Hq : num_of v = Some q)
  (Hq0 : q <= 0) (Hrun : runStateT lora_change (a, g) = inr (tt, (a', g'))) :
  no_lora a' = false.
Proof.
  destruct (lora_change_frame_gen a a' g g' Hrun) as (nl & Hnl & _).
  pose proof (random_range g) as Hr.
  destruct (random g) as [r g1] eqn:Eg. cbn [fst] in Hr. destruct Hr as [Hr0 _].
  assert (Hle : q <= r) by (apply Qle_trans with 0; assumption).
  unfold lora_change in Hrun.
  run_step Hrun v1 E1. pure_inv E1.
  run_step Hrun v2 E2. pure_inv E2.
  run_step Hrun v3 E3. pure_inv E3.
  run_step Hrun v4 E4. cbn -[get_config] in E4.
  change (get_config _ (PStr "noLoraPer") _) with (get_config a (PStr "noLoraPer") (PFloat (1 # 2))) in E4.
  rewrite Hv in E4. injection E4 as <- <-.
  run_step Hrun v5 E5. cbn in E5. rewrite Eg in E5. injection E5 as <- <-.
  run_step Hrun v6 E6. cbn -[py_lt] in E6. rewrite (gt_random_num v q r Hq) in E6.
  injection E6 as <- <-. rewrite (Qlt_bool_false_complete _ _ Hle) in Hrun.
  run_step Hrun v7 E7. pure_inv E7.
  run_step Hrun v8 E8. pure_inv E8.
  destruct v8 as [| | | | | | rules]; try (cbn in Hrun; discriminate).
  pose proof (lora_frame_lora_rules rules _ _ _ Hrun) as Hf. cbn [fst] in Hf.
  change (no_lora a') with (no_lora (clear_lora a')). rewrite Hf. reflexivity.
Qed.
End LoraChangeValid.

Lemma lora_change_frame_witness :
  exists a' g', runStateT lora_change
      (auto_with (PDict [(PStr "noLoraPer", PInt 1)]) (PDict []) PNone, mkDraws [1 # 2] []) =
      inr (tt, (a', g')) /\
    checkpoint_name a' = checkpoint_name (auto_with (PDict [(PStr "noLoraPer", PInt 1)]) (PDict []) PNone).
Proof.
  match goal with |- exists a' g', runStateT ?m ?s = _ /\ _ =>
    destruct (runStateT m s) as [e | [[] [a' g']]] eqn:E end;
    [vm_compute in E; discriminate |].
  exists a', g'. split; [reflexivity |].
  exact (proj1 (proj2 (proj2 (lora_change_frame _ a' _ g' E)))).
Defined.

Lemma lora_change_no_lora_nonpos_witness :
  exists a' g', runStateT lora_change
      (auto_with (PDict [(PStr "noLoraPer", PInt 0)])
         (PDict [(PNone, PDict [(PStr "WeightLora", PDict [])])]) PNone, mkDraws [1 # 2] []) =
      inr (tt, (a', g')) /\ no_lora a' = false.
Proof.
  match goal with |- exists a' g', runStateT ?m ?s = _ /\ _ =>
    destruct (runStateT m s) as [e | [[] [a' g']]] eqn:E end;
    [vm_compute in E; discriminate |].
  exists a', g'. split; [reflexivity |].
  match type of E with runStateT _ (?a0, ?g0) = _ =>
    exact (lora_change_no_lora_nonpos a0 a' g0 g' (PInt 0) 0 eq_refl eq_refl (Qle_refl 0) E) end.
Defined.

Lemma dkeys_dset_existing (d : pydict) (k v x : pyval) :
  dlookup d k = Some x -> dkeys (dset d k v) = dkeys d.
Proof.
  induction d as [| [k0 v0] r IH]; cbn [dlookup dset]; [intros H; discriminate H |].
  destruct (py_eq k k0); [reflexivity |]. intros H. cbn [dkeys map fst] in *. f_equal. exact (IH H).
Qed.

Lemma dlookup_dset_cases (d : pydict) (k v k' : pyval) :
  dlookup (dset d k v) k' = dlookup d k' \/
  (dlookup d k' = dlookup d k /\ dlookup (dset d k v) k' = Some v).
Proof.
  induction d as [| [k0 v0] r IH]; cbn [dlookup dset].
  - destruct (py_eq k' k); [right; split; reflexivity | left; reflexivity].
  - destruct (py_eq k k0) eqn:E; cbn [dlookup].
    + destruct (py_eq k' k0); [right; split; reflexivity | left; reflexivity].
    + destruct (py_eq k' k0); [left; reflexivity | exact IH].
Qed.

Lemma set_exists_walk_cons_cons (c v k k' : pyval) (ks : list pyval) :
  set_exists_walk c (k :: k' :: ks) v =
  (nxt <- py_get c k PNone ;;
   if is_dict nxt then
     r <- set_exists_walk nxt (k' :: ks) v ;;
     let (nxt', wrote) := r in
     if wrote then (c' <- py_setitem c k nxt' ;; ret (c', true))
     else ret (c, false)
   else ret (c, false)).
Proof. reflexivity. Qed.

Lemma set_exists_walk_false (c v c' : pyval) (keys : list pyval) :
  set_exists_walk c keys v = inr (c', false) -> c' = c.
Proof.
  destruct keys as [| k [| k' ks]]; [cbn [set_exists_walk] .. | ].
  - intros H; injection H as <-; reflexivity.
  - destruct (py_contains c k) as [e | []]; cbn; [intros H; discriminate H | | intros H; injection H as <-; reflexivity].
    destruct (py_setitem c k v); cbn; intros H; discriminate H.
  - rewrite set_exists_walk_cons_cons; cbn -[set_exists_walk].
    destruct (py_get c k PNone) as [e | nxt]; cbn -[set_exists_walk]; [intros H; discriminate H |].
    destruct (is_dict nxt); cbn -[set_exists_walk]; [| intros H; injection H as <-; reflexivity].
    destruct (set_exists_walk nxt (k' :: ks) v) as [e | [nxt' []]]; cbn -[set_exists_walk]; [intros H; discriminate H | | intros H; injection H as <-; reflexivity].
    destruct (py_setitem c k nxt'); cbn -[set_exists_walk]; intros H; discriminate H.
Qed.

Lemma keys_kept_refl (n : nat) (x : pyval) : keys_kept n x x.
Proof.
  revert x; induction n as [| n IH]; intros x; (split; [reflexivity |]); [exact I |].
  destruct x; try exact I. intros k. destruct (dlookup _ k); [apply IH | exact I].
Qed.

Lemma keys_kept_trans (n : nat) (x y z : pyval) :
  keys_kept n x y -> keys_kept n y z -> keys_kept n x z.
Proof.
  revert x y z; induction n as [| n IH]; intros x y z [Hxy Cxy] [Hyz Cyz]; cbn.
  - split; [congruence | exact I].
  - split; [congruence |].
    destruct x as [| | | | | | dx], y as [| | | | | | dy], z as [| | | | | | dz];
      try exact I; try discriminate.
    intros k. specialize (Cxy k). specialize (Cyz k).
    destruct (dlookup dx k), (dlookup dy k), (dlookup dz k); try contradiction; try exact I.
    eapply IH; eassumption.
Qed.

Lemma dlookup_none_dkeys (d e : pydict) (k : pyval) :
  dkeys d = dkeys e -> (dlookup d k = None <-> dlookup e k = None).
Proof.
  revert e; induction d as [| [k0 v0] r IH]; intros [| [k1 v1] r'] He; cbn in He |- *;
    try discriminate; [tauto |].
  injection He as <- He. destruct (py_eq k k0); [split; discriminate | exact (IH _ He)].
Qed.

Lemma keys_kept_dset (n : nat) (d : pydict) (k x x' : pyval) :
  dlookup d k = Some x -> keys_kept n x x' ->
  keys_kept (S n) (PDict d) (PDict (dset d k x')).
Proof.
  intros Hk Hx. split; [cbn; f_equal; exact (dkeys_dset_existing d k x' x Hk) |].
  intros k0. destruct (dlookup_dset_cases d k x' k0) as [E | [E1 E2]].
  - rewrite E. destruct (dlookup d k0); [apply keys_kept_refl | exact I].
  - rewrite E1, E2, Hk. exact Hx.
Qed.

Lemma set_exists_walk_kept (keys : list pyval) (c v c' : pyval) (b : bool) :
  set_exists_walk c keys v = inr (c', b) -> keys_kept (pred (length keys)) c c'.
Proof.
  revert c c' b; induction keys as [| k ks IH]; intros c c' b H.
  - cbn in H. injection H as <- _. apply keys_kept_refl.
  - destruct b; [| apply set_exists_walk_false in H; subst c'; apply keys_kept_refl].
    destruct ks as [| k' ks].
    + cbn in H. destruct (py_contains c k) as [e | []] eqn:Ec; cbn in H; try discriminate.
      destruct (py_setitem c k v) as [e | c1] eqn:Es; cbn in H; [discriminate |].
      injection H as <-. destruct c as [| | | | | l | d]; cbn in Es; try discriminate.
      * destruct (int_of k); [| discriminate]. destruct (py_index _ _); [| discriminate].
        injection Es as <-. split; [reflexivity | exact I].
      * cbn in Ec. destruct (hashable k); [| discriminate].
        destruct (dlookup d k) as [x |] eqn:Ek; [| discriminate].
        injection Es as <-. split; [cbn; f_equal; exact (dkeys_dset_existing d k v x Ek) | exact I].
    + rewrite set_exists_walk_cons_cons in H. cbn -[set_exists_walk] in H.
      destruct c as [| | | | | | d]; cbn -[set_exists_walk] in H; try discriminate.
      destruct (hashable k) eqn:Hh; [| discriminate]. cbn -[set_exists_walk] in H.
      destruct (dlookup d k) as [x |] eqn:Ek; [| discriminate].
      destruct (is_dict x); [| discriminate]. cbn -[set_exists_walk] in H.
      destruct (set_exists_walk x (k' :: ks) v) as [e | [x' []]] eqn:Ew; try discriminate.
      cbn -[set_exists_walk] in H. injection H as <-.
      apply (keys_kept_dset _ d k x x' Ek). exact (IH _ _ _ Ew).
Qed.

Lemma keys_kept2_same_shape (w w' : pyval) : keys_kept 2 w w' -> same_shape w w'.
Proof.
  intros [Hk C]. split; [exact Hk |].
  destruct w as [| | | | | | d], w' as [| | | | | | d']; try discriminate;
    try (split; intros n; reflexivity).
  split; intros n; specialize (C n); cbn [sub_keys input_keys];
    destruct (dlookup d n) as [x |], (dlookup d' n) as [x' |]; try contradiction; try reflexivity.
  - exact (proj1 C).
  - destruct C as [Cx C1].
    destruct x as [| | | | | | e], x' as [| | | | | | e']; try reflexivity; try discriminate Cx.
    cbn [sub_keys]. specialize (C1 (PStr "inputs")).
    destruct (dlookup e _), (dlookup e' _); try contradiction; try reflexivity.
    exact (proj1 C1).
Qed.

Section ShapeLemmas.
Context {G : Type} `{PyRandom G}.

Lemma shape_of_keeps {A : Type} (m : @M G A) : keeps_self m -> shape_kept m.
Proof. intros K st x st' E. rewrite (K _ _ _ E). apply keys_kept_refl. Qed.

Lemma shape_bind {A B : Type} (m : @M G A) (k : A -> @M G B) :
  shape_kept m -> (forall x, shape_kept (k x)) -> shape_kept (bind m k).
Proof.
  intros Hm Hk st y st' E. apply run_bind_inv in E as (x & st1 & E1 & E2).
  exact (keys_kept_trans _ _ _ _ (Hm _ _ _ E1) (Hk x _ _ _ E2)).
Qed.

Lemma shape_set_workflow (node key value : pyval) : shape_kept (G:=G) (set_workflow node key value).
Proof.
  intros [a g] x st' E. cbn -[set_exists_walk] in E.
  destruct (set_exists_walk (workflow_api a) [node; PStr "inputs"; key] value) as [e | [w' b]] eqn:Ew;
    [discriminate |].
  cbn in E. injection E as _ <-. exact (set_exists_walk_kept _ _ _ _ _ Ew).
Qed.

End ShapeLemmas.

Ltac solve_shape :=
  match goal with
  | |- shape_kept (bind _ _) => apply shape_bind; [solve_shape | intro; solve_shape]
  | |- shape_kept (if ?b then _ else _) => destruct b; solve_shape
  | |- shape_kept (match ?x with _ => _ end) => destruct x; solve_shape
  | |- shape_kept (let (_, _) := ?x in _) => destruct x; solve_shape
  | |- shape_kept (set_workflow _ _ _) => apply shape_set_workflow
  | |- shape_kept (get_workflow _ _) => unfold get_workflow; solve_shape
  | _ => apply shape_of_keeps; solve_keeps
  end.

Section ShapeLemmas2.
Context {G : Type} `{PyRandom G}.

Lemma shape_set_workflow_func_random2 (node : pyval) (key_list : list pyval)
    (random_func : option (pyval -> @M G pyval)) (func : option (pyval -> pyval -> @M G pyval)) :
  (forall f, random_func = Some f -> forall v, keeps_self (f v)) ->
  (forall f, func = Some f -> forall v k, keeps_self (f v k)) ->
  shape_kept (set_workflow_func_random2 node key_list random_func func).
Proof.
  intros Hr Hf. induction key_list as [| k rest IH]; cbn [set_workflow_func_random2]; [solve_shape |].
  apply shape_bind; [solve_shape | intro a].
  apply shape_bind; [solve_shape | intro sw].
  apply shape_bind; [solve_shape | intro v0].
  apply shape_bind; [solve_shape | intro v1].
  apply shape_bind; [destruct func as [f |]; [apply shape_of_keeps, (Hf f eq_refl) | solve_shape] | intro v2].
  apply shape_bind; [destruct random_func as [f |]; [apply shape_of_keeps, (Hr f eq_refl) | solve_shape] | intro v3].
  apply shape_bind; [solve_shape | intro s].
  apply shape_bind; [solve_shape | intro v4].
  apply shape_bind; [solve_shape | intro m].
  apply shape_bind; [solve_shape | intro v5].
  apply shape_bind; [solve_shape | intro m'].
  apply shape_bind; [solve_shape | intro v6].
  apply shape_bind; [solve_shape | intros _]. exact IH.
Qed.

Lemma shape_setup_workflow_node (k : pyval) : shape_kept (G:=G) (setup_workflow_node k).
Proof.
  unfold setup_workflow_node, node_inputs.
  do 3 (apply shape_bind; [solve_shape | intro]).
  apply shape_bind; [| intros _].
  { apply shape_set_workflow_func_random2; intros f Ef; try discriminate Ef;
      injection Ef as <-; intros; solve_keeps. }
  apply shape_bind; [solve_shape | intro].
  apply shape_set_workflow_func_random2; intros f Ef; try discriminate Ef;
    injection Ef as <-; intros; solve_keeps.
Qed.

Lemma shape_setup_workflow_nodes (nodes : list pyval) : shape_kept (G:=G) (setup_workflow_nodes nodes).
Proof.
  induction nodes as [| k rest IH]; cbn [setup_workflow_nodes]; [solve_shape |].
  apply shape_bind; [apply shape_setup_workflow_node | intros _; exact IH].
Qed.

Lemma shape_set_setup_workflow_to_workflow_api : shape_kept (G:=G) set_setup_workflow_to_workflow_api.
Proof.
  unfold set_setup_workflow_to_workflow_api.
  do 5 (apply shape_bind; [solve_shape | intro]). apply shape_setup_workflow_nodes.
Qed.

End ShapeLemmas2.

Section WorkflowShape.
Context {G : Type} `{PyRandom G}.

(** [set_setup_workflow_to_workflow_api] only overwrites values that are
    already there: when it succeeds, [workflow_api] has the same nodes,
    every node the same keys, and every node's [inputs] the same keys as
    before.  [set_exists] never creates a key, and the seed, resolver and
    clamping steps write through it only. *)
Theorem set_setup_workflow_same_shape (st st' : Auto * G)
  (Hrun : runStateT set_setup_workflow_to_workflow_api st = inr (tt, st')) :
  same_shape (workflow_api (fst st)) (workflow_api (fst st')).
Proof.
  apply keys_kept2_same_shape. exact (shape_set_setup_workflow_to_workflow_api _ _ _ Hrun).
Qed.

End WorkflowShape.

Lemma set_setup_workflow_same_shape_witness :
  exists st',
    run set_setup_workflow_to_workflow_api
      (scenario3_auto scenario3_min (PList [PFloat 0; PFloat 1])) (mkDraws [] []) = inr (tt, st') /\
    same_shape (workflow_api (scenario3_auto scenario3_min (PList [PFloat 0; PFloat 1])))
               (workflow_api (fst st')).
Proof.
  destruct (run set_setup_workflow_to_workflow_api
              (scenario3_auto scenario3_min (PList [PFloat 0; PFloat 1])) (mkDraws [] []))
    as [e | [[] st']] eqn:E; [vm_compute in E; discriminate E |].
  exists st'. split; [reflexivity |].
  exact (set_setup_workflow_same_shape _ st' E).
Defined.
